(** * Resolwe: the [register] management command

    A shallow embedding of
    [resolwe/flow/management/commands/register.py]: the discovery of
    YAML definitions ([find_schemas]), the normalisation and
    version-aware upsert of processes and descriptor schemas
    ([register_processes], [register_descriptors]) and the command's
    entry point ([handle]).

    Python values loaded from YAML are modelled by the inductive type
    [value]; a dictionary is an association list in insertion order.
    The relational store is a finite map keyed by the unique pair
    (slug, packed version); object permissions are a finite map from
    objects to sets of grants.  A Python exception is an explicit
    result: a computation returns the state it reached together with
    either a value or the exception that left it. *)

From Stdlib Require Import ZArith String Ascii List Bool Lia.
From stdpp Require Import base option list gmap strings.

Set Warnings "-register-all".
Local Open Scope string_scope.
Local Open Scope Z_scope.

(** ** Python values *)

Module Py.

(** What [yaml.load] can return, as far as this command looks at it.
    Mapping keys are strings. *)
Inductive value : Type :=
| VNone
| VBool (b : bool)
| VInt (z : Z)
| VStr (s : string)
| VList (l : list value)
| VDict (d : list (string * value)).

Definition dict : Type := list (string * value).

Inductive exn : Type :=
| KeyError
| IndexError
| TypeError
| AttributeError
| ValueError
| NotImplementedError
| YAMLError
| IOError
| SystemExit (code : Z).

(** The outcome of running fallible code: a value or a raised exception. *)
Inductive result (A : Type) : Type :=
| Ok (a : A)
| Raise (e : exn).
Arguments Ok {A} a.
Arguments Raise {A} e.

Definition bind {A B} (r : result A) (k : A → result B) : result B :=
  match r with
  | Ok a => k a
  | Raise e => Raise e
  end.

(** *** Dictionaries *)

(** [k in d] *)
Fixpoint dhas (k : string) (d : dict) : bool :=
  match d with
  | [] => false
  | (k', _) :: r => if String.eqb k k' then true else dhas k r
  end.

(** [d.get(k)] *)
Fixpoint dget (k : string) (d : dict) : option value :=
  match d with
  | [] => None
  | (k', v) :: r => if String.eqb k k' then Some v else dget k r
  end.

(** [d[k] = v]: an existing key keeps its place, a new one goes last. *)
Fixpoint dset (k : string) (v : value) (d : dict) : dict :=
  match d with
  | [] => [(k, v)]
  | (k', v') :: r =>
      if String.eqb k k' then (k', v) :: r else (k', v') :: dset k v r
  end.

(** [d.pop(k, None)], the dictionary that is left. *)
Fixpoint ddel (k : string) (d : dict) : dict :=
  match d with
  | [] => []
  | (k', v) :: r => if String.eqb k k' then ddel k r else (k', v) :: ddel k r
  end.

(** [d[k]] *)
Definition dindex (k : string) (d : dict) : result value :=
  match dget k d with
  | Some v => Ok v
  | None => Raise KeyError
  end.

(** *** Strings *)

Fixpoint last_char (s : string) : option ascii :=
  match s with
  | EmptyString => None
  | String c EmptyString => Some c
  | String _ r => last_char r
  end.

Definition colon : ascii := ":"%char.

(** [s.endswith(':')] *)
Definition ends_with_colon (s : string) : bool :=
  match last_char s with
  | Some c => Ascii.eqb c colon
  | None => false
  end.

(** [s.replace(':', '-')] *)
Fixpoint replace_colon (s : string) : string :=
  match s with
  | EmptyString => EmptyString
  | String c r =>
      String (if Ascii.eqb c colon then "-"%char else c) (replace_colon r)
  end.

(** Truth value of an object, as [if not x] tests it. *)
Definition truthy (v : value) : bool :=
  match v with
  | VNone => false
  | VBool b => b
  | VInt z => negb (Z.eqb z 0)
  | VStr s => negb (String.eqb s "")
  | VList l => match l with [] => false | _ => true end
  | VDict d => match d with [] => false | _ => true end
  end.

End Py.
Export Py.

Notation "x <- r ;; k" := (bind r (λ x, k))
  (at level 100, r at next level, right associativity, only parsing).

(** ** Walking a field schema *)

(** What a [for x in v] loop runs over. *)
Fixpoint chars (s : string) : list value :=
  match s with
  | EmptyString => []
  | String c r => VStr (String c EmptyString) :: chars r
  end.

Definition py_iter (v : value) : result (list value) :=
  match v with
  | VList l => Ok l
  | VDict d => Ok (map (λ kv, VStr kv.1) d)
  | VStr s => Ok (chars s)
  | _ => Raise TypeError
  end.

(** Whether a value can be looked up in a dictionary. *)
Definition hashable (v : value) : bool :=
  match v with
  | VList _ | VDict _ => false
  | _ => true
  end.

(** A schema that is not a list: iterating it yields no dictionary, so
    the first item, if any, fails at [field_schema['name']]. *)
Definition iterate_other {A} (v : value) (done : A) : result A :=
  items <- py_iter v ;;
  match items with
  | [] => Ok done
  | _ :: _ => Raise TypeError
  end.

(** The parts of the walk over a schema, for a given walk over the
    value of a group.  Modelled from the spec, as [iterate_schema]
    below, of which they are the body. *)
Section Leaves.

Variable walk_group : value → result (list dict).

(** the value under the key [group] of a field *)
Fixpoint group_leaves (e : dict) : result (list dict) :=
  match e with
  | [] => Ok []
  | (k, v) :: e' =>
      if String.eqb "group" k then walk_group v else group_leaves e'
  end.

Definition field_leaves (field_schema : value) : result (list dict) :=
  match field_schema with
  | VDict d =>
      name <- dindex "name" d ;;
      if dhas "group" d then
        if hashable name then group_leaves d else Raise TypeError
      else Ok [d]
  | _ => Raise TypeError
  end.

Fixpoint fields_leaves (l : list value) : result (list dict) :=
  match l with
  | [] => Ok []
  | field_schema :: r =>
      here <- field_leaves field_schema ;;
      rest <- fields_leaves r ;;
      Ok (here ++ rest)%list
  end.

End Leaves.

(** Modelled from the spec: [resolwe.flow.utils.iterate_schema] is not
    among the sources.  The spec speaks of "every nested field": the
    fields of a schema are walked in order, a field that carries a
    [group] stands for the fields nested in it, and any other field is
    yielded.  [iterate_schema schema] is the sequence of the field
    dictionaries that [iterate_schema({}, schema)] yields. *)
Fixpoint iterate_schema (schema : value) : result (list dict) :=
  match schema with
  | VList fields => fields_leaves iterate_schema fields
  | _ => iterate_other schema []
  end.

(** The parts of a loop over the fields that [iterate_schema] yields,
    for a given loop over the value of a group. *)
Section Update.

Variable body : dict → result dict.
Variable update_group : value → result value.

Fixpoint group_update (e : dict) : result dict :=
  match e with
  | [] => Ok []
  | (k, v) :: e' =>
      if String.eqb "group" k then
        v' <- update_group v ;; Ok ((k, v') :: e')
      else
        e'' <- group_update e' ;; Ok ((k, v) :: e'')
  end.

Definition field_update (field_schema : value) : result value :=
  match field_schema with
  | VDict d =>
      name <- dindex "name" d ;;
      d' <- (if dhas "group" d then
               if hashable name then group_update d else Raise TypeError
             else body d) ;;
      Ok (VDict d')
  | _ => Raise TypeError
  end.

Fixpoint fields_update (l : list value) : result (list value) :=
  match l with
  | [] => Ok []
  | field_schema :: r =>
      here <- field_update field_schema ;;
      rest <- fields_update r ;;
      Ok (here :: rest)
  end.

End Update.

(** The loop [for schema, _, _ in iterate_schema({}, s): body(schema)]
    where the body changes the yielded dictionary in place: the schema
    after the loop.  Fields are visited in the order of
    [iterate_schema]; the first exception ends the loop. *)
Fixpoint update_fields (body : dict → result dict) (schema : value)
  : result value :=
  match schema with
  | VList fields =>
      l' <- fields_update body (update_fields body) fields ;;
      Ok (VList l')
  | _ => iterate_other schema schema
  end.

(** ** Normalisation of a process definition (lines 101-126) *)

(** [x[-1]] followed by a test of the last item against [':'], and
    [x += ':'] when the test fails.  [strict] is the nested-field form
    [x[-1].endswith(':')], which needs the last item to be a string;
    the top-level form [x[-1] != ':'] compares any item. *)
Definition terminate_type (strict : bool) (t : value) : result value :=
  match t with
  | VStr s =>
      match last_char s with
      | None => Raise IndexError
      | Some c => if Ascii.eqb c colon then Ok t else Ok (VStr (s ++ ":"))
      end
  | VList l =>
      match last l with
      | None => Raise IndexError
      | Some (VStr e) =>
          if (if strict then ends_with_colon e else String.eqb e ":")
          then Ok t else Ok (VList (l ++ [VStr ":"])%list)
      | Some _ =>
          if strict then Raise AttributeError
          else Ok (VList (l ++ [VStr ":"])%list)
      end
  | VDict _ => Raise KeyError
  | _ => Raise TypeError
  end.

(** Body of the loop of lines 124-126. *)
Definition terminate_field_type (schema : dict) : result dict :=
  t <- dindex "type" schema ;;
  t' <- terminate_type true t ;;
  Ok (dset "type" t' schema).

(** Lines 105-106. *)
Definition terminate_category (p : dict) : result dict :=
  match dget "category" p with
  | None => Ok p
  | Some (VStr s) =>
      if ends_with_colon s then Ok p
      else Ok (dset "category" (VStr (s ++ ":")) p)
  | Some _ => Raise AttributeError
  end.

(** Body of the loop of lines 110-112. *)
Definition take_data_name (p : dict) (schema : dict) : dict :=
  match dget "name" schema, dget "default" schema with
  | Some (VStr n), Some dflt =>
      if String.eqb n "name" then dset "data_name" dflt p else p
  | _, _ => p
  end.

(** Lines 109-112. *)
Definition data_name_from_static (p : dict) : result dict :=
  match dget "static" p with
  | None => Ok p
  | Some static =>
      fields <- iterate_schema static ;;
      Ok (foldl take_data_name p fields)
  end.

(** Lines 123-126, one [field] of the outer loop. *)
Definition terminate_section (field : string) (p : dict) : result dict :=
  match dget field p with
  | None => Ok p
  | Some sec =>
      sec' <- update_fields terminate_field_type sec ;;
      Ok (dset field sec' p)
  end.

Definition schema_sections : list string :=
  ["input"; "output"; "var"; "static"].

(** Lines 116-118 (and 227-229): a definition without [slug] gets one
    from its [name], and its [label] becomes the [name].
    [slugify] is [django.utils.text.slugify]. *)
Definition legacy_names (slugify : string → string) (p : dict) : result dict :=
  name <- dindex "name" p ;;
  match name with
  | VStr n =>
      let p := dset "slug" (VStr (slugify (replace_colon n))) (ddel "name" p) in
      label <- dindex "label" p ;;
      Ok (dset "name" label (ddel "label" p))
  | _ => Raise AttributeError
  end.

(** Lines 116-121. *)
Definition legacy_slug (slugify : string → string) (p : dict) : result dict :=
  if dhas "slug" p then Ok p
  else
    p <- legacy_names slugify p ;;
    Ok (ddel "static" (ddel "var" p)).

(** Lines 102-103. *)
Definition terminate_top_type (p : dict) : result dict :=
  t <- dindex "type" p ;;
  t' <- terminate_type false t ;;
  Ok (dset "type" t' p).

(** Lines 102-126: the definition as it reaches validation. *)
Definition normalize (slugify : string → string) (p : dict) : result dict :=
  p <- terminate_top_type p ;;
  p <- terminate_category p ;;
  p <- data_name_from_static p ;;
  p <- legacy_slug slugify p ;;
  p <- terminate_section "input" p ;;
  p <- terminate_section "output" p ;;
  p <- terminate_section "var" p ;;
  terminate_section "static" p.

(** ** The store *)

Inductive model : Type := ProcessModel | DescriptorModel.

Inductive principal : Type := PUser (id : nat) | PGroup (id : nat).

Global Instance model_eq_dec : EqDecision model.
Proof. solve_decision. Defined.

Global Instance model_countable : Countable model.
Proof.
  refine (inj_countable' (λ m, match m with ProcessModel => false | DescriptorModel => true end)
            (λ b : bool, if b then DescriptorModel else ProcessModel) _).
  by intros [].
Defined.

Global Instance principal_eq_dec : EqDecision principal.
Proof. solve_decision. Defined.

Global Instance principal_countable : Countable principal.
Proof.
  refine (inj_countable' (λ q, match q with PUser i => inl i | PGroup i => inr i end)
            (λ x : nat + nat, match x with inl i => PUser i | inr i => PGroup i end) _).
  by intros [].
Defined.

(** A row of [Process] or [DescriptorSchema]: its contributor and the
    columns given as keyword arguments.  The key of a row is the pair
    of its slug and its version as the packed integer the
    [VersionField] column stores; the pair is unique in each table. *)
Record record : Type := Record_ {
  contributor : nat;
  fields : dict;
}.

Record user : Type := User {
  user_id : nat;
  is_superuser : bool;
  date_joined : Z;
}.

Record state : Type := State {
  processes : gmap (string * Z) record;
  descriptors : gmap (string * Z) record;
  (** object permissions: the grants (who, codename) on each object *)
  permissions : gmap (model * (string * Z)) (gset (principal * string));
  users : list user;
  stdout : list string;
  stderr : list string;
}.

Definition table (m : model) (st : state) : gmap (string * Z) record :=
  match m with
  | ProcessModel => processes st
  | DescriptorModel => descriptors st
  end.

Definition set_table (m : model) (t : gmap (string * Z) record) (st : state) : state :=
  match m with
  | ProcessModel =>
      State t (descriptors st) (permissions st) (users st) (stdout st) (stderr st)
  | DescriptorModel =>
      State (processes st) t (permissions st) (users st) (stdout st) (stderr st)
  end.

Definition set_permissions (g : gmap (model * (string * Z)) (gset (principal * string)))
    (st : state) : state :=
  State (processes st) (descriptors st) g (users st) (stdout st) (stderr st).

(** [self.stdout.write(line)] *)
Definition write_out (line : string) (st : state) : state :=
  State (processes st) (descriptors st) (permissions st) (users st)
        (stdout st ++ [line])%list (stderr st).

(** [self.stderr.write(line)] *)
Definition write_err (line : string) (st : state) : state :=
  State (processes st) (descriptors st) (permissions st) (users st)
        (stdout st) (stderr st ++ [line])%list.

(** What is stored: rows and grants, without the two output streams. *)
Definition stored (st : state)
  : gmap (string * Z) record * gmap (string * Z) record *
    gmap (model * (string * Z)) (gset (principal * string)) :=
  (processes st, descriptors st, permissions st).

(** The greatest version among the rows of a slug, [None] without rows. *)
Definition max_version_in (slug : string) (rows : list (string * Z * record))
  : option Z :=
  foldr (λ kr acc,
           if String.eqb kr.1.1 slug then
             Some (match acc with Some m => Z.max kr.1.2 m | None => kr.1.2 end)
           else acc)
        None rows.

(** [Model.objects.filter(slug=slug).aggregate(Max('version'))['version__max']] *)
Definition version_max (t : gmap (string * Z) record) (slug : string) : option Z :=
  max_version_in slug (map_to_list t).

(** Modelled from the spec: the [Meta.get_latest_by] of the models is
    not among the sources.  The spec calls the row that
    [filter(slug=slug).latest()] returns "the slug's previous latest
    version": the row of the slug with the greatest version. *)
Definition latest (t : gmap (string * Z) record) (slug : string) : option (string * Z) :=
  match version_max t slug with
  | Some v => Some (slug, v)
  | None => None
  end.

(** [queryset.update] with the keywords of [p]: the columns named in [p] are
    assigned, the
    others keep their value.  The keys of a Python dictionary are
    distinct, so the order of the assignments is immaterial. *)
Definition update_columns (p : dict) (r : record) : record :=
  Record_ (contributor r) (foldr (λ kv acc, dset kv.1 kv.2 acc) (fields r) p).

Definition grants_on (g : gmap (model * (string * Z)) (gset (principal * string)))
    (o : model * (string * Z)) : gset (principal * string) :=
  default ∅ (g !! o).

(** Modelled from the spec: [resolwe.permissions.utils] is not among
    the sources.  "Assigns contributor permissions": the contributor of
    the object is granted every permission [codenames] of its model. *)
Definition assign_contributor_permissions (codenames : list string)
    (o : model * (string * Z)) (who : nat)
    (g : gmap (model * (string * Z)) (gset (principal * string)))
  : gmap (model * (string * Z)) (gset (principal * string)) :=
  <[o := grants_on g o ∪ list_to_set (map (λ c, (PUser who, c)) codenames)]> g.

(** Modelled from the spec: [resolwe.permissions.utils] is not among
    the sources.  "Copies the previous record's permission grants onto
    the new record": every grant on [src] is also given on [dest]. *)
Definition copy_permissions (src dest : model * (string * Z))
    (g : gmap (model * (string * Z)) (gset (principal * string)))
  : gmap (model * (string * Z)) (gset (principal * string)) :=
  <[dest := grants_on g dest ∪ grants_on g src]> g.

(** ** Collaborators *)

(** What [jsonschema.validate] reports when it fails. *)
Record validation_error : Type := ValidationError {
  ex_path : string;
  ex_message : string;
  ex_validator : string;
  ex_validator_value : string;
}.

(** What [yaml.load(open(file))] does. *)
Inductive load : Type :=
| LoadRaises (e : exn)
| Loaded (v : value).

(** The libraries, settings and surroundings the command runs in.
    None of them is defined in [register.py]. *)
Record collaborators : Type := Collaborators {
  (** [django.utils.text.slugify] *)
  slugify : string → string;
  (** [convert_version_string_to_int(version, VERSION_NUMBER_BITS)],
      which is also how the [VersionField] column stores a version *)
  version_int : string → result Z;
  (** [str(x)], as ['{}'.format(x)] prints it *)
  py_str : value → string;
  (** [jsonschema.validate(instance, PROCESSOR_SCHEMA)] and
      [jsonschema.validate(instance, DESCRIPTOR_SCHEMA)] *)
  jsonschema_validate : model → dict → option validation_error;
  PERSISTENCE_RAW : value;
  PERSISTENCE_CACHED : value;
  PERSISTENCE_TEMP : value;
  SCHEDULING_CLASS_INTERACTIVE : value;
  SCHEDULING_CLASS_BATCH : value;
  (** [manager.get_execution_engine(language).get_output_schema(p)];
      [None] when [InvalidEngineError] is raised *)
  engine_output_schema : value → dict → option (list value);
  (** the permission codenames of a model *)
  codenames : model → list string;
  (** the files below a path in the order of [os.walk], each with what
      loading it does; [None] when the path is not a directory *)
  walk : string → option (list (string * load));
  (** [get_finders()]: what [find_processes()] and [find_descriptors()]
      of each finder return *)
  finders : list (list string * list string);
}.

(** ** Strings of file names and messages *)

Definition lower_char (c : ascii) : ascii :=
  let n := nat_of_ascii c in
  if ((65 <=? n) && (n <=? 90))%nat then ascii_of_nat (n + 32) else c.

(** [s.lower()], on ASCII letters *)
Fixpoint lower (s : string) : string :=
  match s with
  | EmptyString => EmptyString
  | String c r => String (lower_char c) (lower r)
  end.

(** [s.endswith(suffix)] *)
Fixpoint ends_with (suffix s : string) : bool :=
  String.eqb s suffix ||
  match s with
  | EmptyString => false
  | String _ r => ends_with suffix r
  end.

(** [needle in s] for two strings *)
Fixpoint is_substring (needle s : string) : bool :=
  String.prefix needle s ||
  match s with
  | EmptyString => false
  | String _ r => is_substring needle r
  end.

(** Line 74. *)
Definition is_yaml_name (file : string) : bool :=
  ends_with ".yml" (lower file) || ends_with ".yaml" (lower file).

(** [key in v] *)
Definition py_contains (key : string) (v : value) : result bool :=
  match v with
  | VDict d => Ok (dhas key d)
  | VList l =>
      Ok (existsb (λ x, match x with VStr s => String.eqb s key | _ => false end) l)
  | VStr s => Ok (is_substring key s)
  | _ => Raise TypeError
  end.

(** [v in filters], [filters] a list of strings *)
Definition in_filters (v : value) (filters : list string) : bool :=
  match v with
  | VStr s => existsb (String.eqb s) filters
  | _ => false
  end.

(** ** [find_schemas] *)

(** Lines 83-92: whether a schema of a file is appended to the matches. *)
Definition schema_matches (filters : option (list string)) (schema_type : model)
    (schema : value) : result bool :=
  wanted <-
    match filters with
    | None | Some [] => Ok true
    | Some fs =>
        match schema with
        | VDict d =>
            Ok (in_filters (default (VStr "") (dget "slug" d)) fs
                || in_filters (default (VStr "") (dget "name" d)) fs)
        | _ => Raise AttributeError
        end
    end ;;
  if wanted then
    py_contains (match schema_type with
                 | ProcessModel => "run"
                 | DescriptorModel => "schema"
                 end) schema
  else Ok false.

(** Lines 82-92: the loop over the schemas of one file. *)
Fixpoint select_schemas (filters : option (list string)) (schema_type : model)
    (schemas : list value) : result (list value) :=
  match schemas with
  | [] => Ok []
  | schema :: r =>
      keep <- schema_matches filters schema_type schema ;;
      rest <- select_schemas filters schema_type r ;;
      Ok (if keep then schema :: rest else rest)
  end.

(** Lines 71-92: the loop over the files of the tree. *)
Fixpoint scan_files (filters : option (list string)) (schema_type : model)
    (files : list (string * load)) (st : state) (found : list value)
  : state * result (list value) :=
  match files with
  | [] => (st, Ok found)
  | (schema_file, content) :: r =>
      if is_yaml_name schema_file then
        match content with
        | LoadRaises e => (st, Raise e)
        | Loaded schemas =>
            if truthy schemas then
              match (items <- py_iter schemas ;;
                     select_schemas filters schema_type items) with
              | Ok chosen => scan_files filters schema_type r st (found ++ chosen)%list
              | Raise e => (st, Raise e)
              end
            else
              scan_files filters schema_type r
                (write_err ("Could not read YAML file " ++ schema_file) st) found
        end
      else scan_files filters schema_type r st found
  end.

Section Register.

Context (env : collaborators).

(** Lines 59-94.  [None] is Python's [None], which the bare [return]
    of line 66 gives. *)
Definition find_schemas (schema_path : string) (filters : option (list string))
    (schema_type : model) (verbosity : Z) (st : state)
  : state * result (option (list value)) :=
  match walk env schema_path with
  | None =>
      (if 0 <? verbosity then write_out ("Invalid path " ++ schema_path) st else st,
       Ok None)
  | Some files =>
      match scan_files filters schema_type files st [] with
      | (st, Ok found) => (st, Ok (Some found))
      | (st, Raise e) => (st, Raise e)
      end
  end.

(** How a loop iteration or a call ends: it runs to its end (or to a
    [continue]), or an exception leaves it. *)
Inductive outcome : Type :=
| Done
| Raised (e : exn).

(** Lines 46-57: [None] when the instance is valid, else the lines
    written to the error stream. *)
Definition valid (m : model) (instance : dict) : option (list string) :=
  match jsonschema_validate env m instance with
  | None => None
  | Some ex =>
      let name :=
        match dget "name" instance with
        | Some n => py_str env n
        | None => ""
        end in
      Some [ "    VALIDATION ERROR: " ++ name;
             "        path:       " ++ ex_path ex;
             "        message:    " ++ ex_message ex;
             "        validator:  " ++ ex_validator ex;
             "        val. value: " ++ ex_validator_value ex ]
  end.

(** [mapping[key]] for a dictionary literal with string keys. *)
Definition mapping_index (mapping : list (string * value)) (key : value) : result value :=
  match key with
  | VStr k => dindex k mapping
  | VList _ | VDict _ => Raise TypeError
  | _ => Raise KeyError
  end.

(** Lines 132-153. *)
Definition map_columns (p : dict) : result dict :=
  p <-
    match dget "persistence" p with
    | Some v =>
        v' <- mapping_index [("RAW", PERSISTENCE_RAW env);
                             ("CACHED", PERSISTENCE_CACHED env);
                             ("TEMP", PERSISTENCE_TEMP env)] v ;;
        Ok (dset "persistence" v' p)
    | None => Ok p
    end ;;
  p <-
    match dget "scheduling_class" p with
    | Some v =>
        v' <- mapping_index [("interactive", SCHEDULING_CLASS_INTERACTIVE env);
                             ("batch", SCHEDULING_CLASS_BATCH env)] v ;;
        Ok (dset "scheduling_class" v' p)
    | None => Ok p
    end ;;
  let p :=
    match dget "input" p with
    | Some v => dset "input_schema" v (ddel "input" p)
    | None => p
    end in
  let p :=
    match dget "output" p with
    | Some v => dset "output_schema" v (ddel "output" p)
    | None => p
    end in
  Ok p.

(** Lines 157-171: the definition with the output schema of its
    execution engine, or the message of the [except] branch. *)
Definition resolve_engine (slug : value) (p : dict) : result (dict + string) :=
  match dget "run" p with
  | None => Ok (inl p)
  | Some (VDict run) =>
      let run :=
        if dhas "language" run then run else dset "language" (VStr "bash") run in
      let p := dset "run" (VDict run) p in
      let language := default VNone (dget "language" run) in
      match engine_output_schema env language p with
      | None =>
          Ok (inr ("Skip processor " ++ py_str env slug ++ ": execution engine '"
                   ++ py_str env language ++ "' not supported"))
      | Some [] => Ok (inl p)
      | Some extra =>
          match dget "output_schema" p with
          | None => Ok (inl (dset "output_schema" (VList extra) p))
          | Some (VList l) => Ok (inl (dset "output_schema" (VList (l ++ extra)%list) p))
          | Some _ => Raise AttributeError
          end
      end
  | Some _ => Raise AttributeError
  end.

(** Lines 173-202 and 243-272: the version-aware upsert of one
    definition into the table of [m].  [noun] is how the messages name
    the model.  The ORM calls are taken to accept the keyword
    arguments: the definition has passed validation.  A slug that is
    not a string stops the model with [TypeError]. *)
Definition upsert (m : model) (noun : string) (force : bool) (verbosity : Z)
    (who : user) (p : dict) (slug version : value) (st : state) (log : list string)
  : state * list string * outcome :=
  match version with
  | VStr version =>
      match version_int env version, slug with
      | Raise e, _ => (st, log, Raised e)
      | Ok int_version, VStr slug =>
          let latest_version := version_max (table m st) slug in
          if match latest_version with
             | Some v => int_version <? v
             | None => false
             end
          then
            (write_err ("Skip " ++ noun ++ " " ++ slug ++ ": newer version installed") st,
             log, Done)
          else
            let previous := latest (table m st) slug in
            match table m st !! (slug, int_version) with
            | Some r =>
                if force then
                  (set_table m (<[(slug, int_version) := update_columns p r]> (table m st)) st,
                   (log ++ ["Updated " +:+ slug])%list, Done)
                else
                  (if 0 <? verbosity then
                     write_out ("Skip " ++ noun ++ " " ++ slug ++ ": same version installed") st
                   else st,
                   log, Done)
            | None =>
                let new := (m, (slug, int_version)) in
                let st :=
                  set_table m (<[(slug, int_version) := Record_ (user_id who) p]> (table m st)) st in
                let g :=
                  assign_contributor_permissions (codenames env m) new (user_id who)
                    (permissions st) in
                let g :=
                  match previous with
                  | Some old => copy_permissions (m, old) new g
                  | None => g
                  end in
                (set_permissions g st, (log ++ ["Inserted " +:+ slug])%list, Done)
            end
      | Ok _, _ => (st, log, Raised TypeError)
      end
  | _ => (st, log, Raised AttributeError)
  end.

(** How a definition leaves the part of the loop body before the
    upsert: ready to be stored under a slug and a version, or skipped
    by a [continue] after the given lines went to the error stream. *)
Inductive prepared : Type :=
| Ready (p : dict) (slug version : value)
| Skipped (lines : list string).

(** Lines 102-173. *)
Definition prepare_process (p : dict) : result prepared :=
  p <- normalize (slugify env) p ;;
  match valid ProcessModel p with
  | Some lines => Ok (Skipped lines)
  | None =>
      p <- map_columns p ;;
      slug <- dindex "slug" p ;;
      r <- resolve_engine slug p ;;
      match r with
      | inr message => Ok (Skipped [message])
      | inl p =>
          version <- dindex "version" p ;;
          Ok (Ready p slug version)
      end
  end.

Definition write_errs (lines : list string) (st : state) : state :=
  foldl (λ st line, write_err line st) st lines.

(** Lines 102-202: the body of the loop of [register_processes]. *)
Definition register_process (who : user) (force : bool) (verbosity : Z)
    (p : value) (st : state) (log : list string) : state * list string * outcome :=
  match p with
  | VDict p =>
      match prepare_process p with
      | Raise e => (st, log, Raised e)
      | Ok (Skipped lines) => (write_errs lines st, log, Done)
      | Ok (Ready p slug version) =>
          upsert ProcessModel "processor" force verbosity who p slug version st log
      end
  | _ => (st, log, Raised TypeError)
  end.

(** A [for] loop whose body can raise. *)
Fixpoint for_each (body : value → state → list string → state * list string * outcome)
    (items : list value) (st : state) (log : list string)
  : state * list string * outcome :=
  match items with
  | [] => (st, log, Done)
  | x :: r =>
      match body x st log with
      | (st, log, Done) => for_each body r st log
      | raised => raised
      end
  end.

(** [for log in logs: self.stdout.write("  {}".format(log))] *)
Definition write_logs (title : string) (log : list string) (st : state) : state :=
  match log with
  | [] => st
  | _ => foldl (λ st line, write_out ("  " ++ line) st) (write_out title st) log
  end.

(** Lines 96-213. *)
Definition register_processes (process_schemas : list value) (who : user)
    (force : bool) (verbosity : Z) (st : state) : state * outcome :=
  match for_each (register_process who force verbosity) process_schemas st [] with
  | (st, log, Done) =>
      (if 0 <? verbosity then write_logs "Processor Updates:" log st else st, Done)
  | (st, _, Raised e) => (st, Raised e)
  end.

(** Lines 234-237: [d['schema'].extend(d.pop(field))] when [field]
    is in [d]. *)
Definition merge_into_schema (field : string) (d : dict) : result dict :=
  match dget field d with
  | None => Ok d
  | Some extra =>
      schema <- dindex "schema" d ;;
      match schema with
      | VList l =>
          items <- py_iter extra ;;
          Ok (dset "schema" (VList (l ++ items)%list) (ddel field d))
      | _ => Raise AttributeError
      end
  end.

(** Lines 220-237: the descriptor schema as it reaches validation. *)
Definition normalize_descriptor (d : dict) : result dict :=
  d <- terminate_section "var" d ;;
  d <- terminate_section "schema" d ;;
  d <- (if dhas "slug" d then Ok d else legacy_names (slugify env) d) ;;
  let d := if dhas "schema" d then d else dset "schema" (VList []) d in
  d <- merge_into_schema "static" d ;;
  merge_into_schema "var" d.

(** Lines 220-244. *)
Definition prepare_descriptor (d : dict) : result prepared :=
  d <- normalize_descriptor d ;;
  match valid DescriptorModel d with
  | Some lines => Ok (Skipped lines)
  | None =>
      slug <- dindex "slug" d ;;
      Ok (Ready d slug (default (VStr "0.0.0") (dget "version" d)))
  end.

(** Lines 220-272: the body of the loop of [register_descriptors]. *)
Definition register_descriptor (who : user) (force : bool) (verbosity : Z)
    (descriptor_schema : value) (st : state) (log : list string)
  : state * list string * outcome :=
  match descriptor_schema with
  | VDict d =>
      match prepare_descriptor d with
      | Raise e => (st, log, Raised e)
      | Ok (Skipped lines) => (write_errs lines st, log, Done)
      | Ok (Ready d slug version) =>
          upsert DescriptorModel "descriptor schema" force verbosity who d slug version
            st log
      end
  | _ => (st, log, Raised AttributeError)
  end.

(** Lines 215-277. *)
Definition register_descriptors (descriptor_schemas : list value) (who : user)
    (force : bool) (verbosity : Z) (st : state) : state * outcome :=
  match for_each (register_descriptor who force verbosity) descriptor_schemas st [] with
  | (st, log, Done) =>
      (if 0 <? verbosity then write_logs "Descriptor schemas Updates:" log st else st,
       Done)
  | (st, _, Raised e) => (st, Raised e)
  end.

(** [order_by('date_joined')]: rows of equal date keep the order of
    the table. *)
Fixpoint insert_by_date (u : user) (l : list user) : list user :=
  match l with
  | [] => [u]
  | v :: r =>
      if date_joined u <=? date_joined v then u :: l
      else v :: insert_by_date u r
  end.

Definition order_by_date_joined (l : list user) : list user :=
  foldr insert_by_date [] l.

(** Line 293. *)
Definition superusers (st : state) : list user :=
  order_by_date_joined (filter (λ u, is_superuser u = true) (users st)).

(** Lines 309-312 and 316-319: [found.extend(self.find_schemas(path, ...))]
    for each path; extending by [None] raises [TypeError]. *)
Fixpoint collect_schemas (filters : option (list string)) (schema_type : model)
    (verbosity : Z) (paths : list string) (st : state) (found : list value)
  : state * result (list value) :=
  match paths with
  | [] => (st, Ok found)
  | path :: r =>
      match find_schemas path filters schema_type verbosity st with
      | (st, Ok (Some l)) =>
          collect_schemas filters schema_type verbosity r st (found ++ l)%list
      | (st, Ok None) => (st, Raise TypeError)
      | (st, Raise e) => (st, Raise e)
      end
  end.

(** Lines 279-321.  [paths] is a list and [schemas] a list or [None]
    by their types, so the two [ValueError]s of lines 287-291 cannot
    happen. *)
Definition handle (schemas : option (list string)) (force : bool)
    (paths : list string) (verbosity : Z) (st : state) : state * outcome :=
  match superusers st with
  | [] =>
      (write_err "Admin does not exist: create a superuser" st, Raised (SystemExit 1))
  | user_admin :: _ =>
      let processes_paths :=
        match paths with
        | [] => concat (map fst (finders env))
        | _ => paths
        end in
      let descriptors_paths :=
        match paths with
        | [] => concat (map snd (finders env))
        | _ => paths
        end in
      match collect_schemas schemas ProcessModel verbosity processes_paths st [] with
      | (st, Raise e) => (st, Raised e)
      | (st, Ok process_schemas) =>
          match register_processes process_schemas user_admin force verbosity st with
          | (st, Raised e) => (st, Raised e)
          | (st, Done) =>
              match collect_schemas schemas DescriptorModel verbosity
                      descriptors_paths st [] with
              | (st, Raise e) => (st, Raised e)
              | (st, Ok descriptor_schemas) =>
                  register_descriptors descriptor_schemas user_admin force verbosity st
              end
          end
      end
  end.

End Register.

(** ** The version encoding *)

Definition digit (c : ascii) : option Z :=
  let n := nat_of_ascii c in
  if ((48 <=? n) && (n <=? 57))%nat then Some (Z.of_nat (n - 48)) else None.

Fixpoint parse_digits (s : string) (acc : Z) : option Z :=
  match s with
  | EmptyString => Some acc
  | String c r =>
      match digit c with
      | Some d => parse_digits r (10 * acc + d)
      | None => None
      end
  end.

(** [int(s)] for a string of decimal digits; anything else is taken
    to raise [ValueError]. *)
Definition py_int (s : string) : result Z :=
  match s with
  | EmptyString => Raise ValueError
  | _ =>
      match parse_digits s 0 with
      | Some z => Ok z
      | None => Raise ValueError
      end
  end.

(** [s.split(".")] *)
Fixpoint split_dots (s : string) : list string :=
  match s with
  | EmptyString => [EmptyString]
  | String c r =>
      if Ascii.eqb c "."%char then EmptyString :: split_dots r
      else
        match split_dots r with
        | h :: t => String c h :: t
        | [] => [String c EmptyString]
        end
  end.

Fixpoint all_ints (parts : list string) : result (list Z) :=
  match parts with
  | [] => Ok []
  | s :: r =>
      n <- py_int s ;;
      ns <- all_ints r ;;
      Ok (n :: ns)
  end.

(** The packed number and the bits used so far, for the numbers from
    the last one to the first. *)
Fixpoint pack (parts : list (Z * Z)) : result (Z * Z) :=
  match parts with
  | [] => Ok (0, 0)
  | (num, bits) :: r =>
      lower_part <- pack r ;;
      if Z.shiftl 1 bits <=? num then Raise ValueError
      else Ok (lower_part.1 + Z.shiftl num lower_part.2, lower_part.2 + bits)
  end.

(** Modelled from the spec: [versionfield.utils.convert_version_string_to_int]
    is not among the sources.  The spec describes "a packed integer
    encoding of major/minor/patch": the dot-separated numbers of the
    version, missing ones being zero, each in its own bit field, the
    major number in the highest one. *)
Definition convert_version_string_to_int (version : string) (number_bits : list Z)
  : result Z :=
  numbers <- all_ints (split_dots version) ;;
  if (length number_bits <? length numbers)%nat then Raise NotImplementedError
  else
    let numbers :=
      (numbers ++ repeat 0 (length number_bits - length numbers))%list in
    packed <- pack (zip numbers number_bits) ;;
    Ok packed.1.

(** Modelled from the spec: the setting [VERSION_NUMBER_BITS] of
    [resolwe.flow.models.base] is not among the sources; the widths of
    the major, minor and patch fields. *)
Definition VERSION_NUMBER_BITS : list Z := [8; 10; 14].

(** ** An environment to run the command in *)

Definition example_files : list (string * load) :=
  [ ("processes/README.txt", LoadRaises IOError);
    ("processes/empty.yml", Loaded VNone);
    ("processes/broken.yml", LoadRaises YAMLError);
    ("processes/upload.YAML",
      Loaded (VList [VDict [("slug", VStr "upload"); ("name", VStr "Upload");
                            ("version", VStr "1.0.0"); ("type", VStr "data:raw");
                            ("run", VDict [("program", VStr "true")])]])) ].

Definition example_env : collaborators := {|
  slugify := lower;
  version_int := λ v, convert_version_string_to_int v VERSION_NUMBER_BITS;
  py_str := λ v, match v with VStr s => s | _ => "?" end;
  jsonschema_validate := λ _ d,
    if dhas "name" d then None
    else Some (ValidationError "[]" "'name' is a required property" "required" "['name']");
  PERSISTENCE_RAW := VStr "RAW";
  PERSISTENCE_CACHED := VStr "CAC";
  PERSISTENCE_TEMP := VStr "TMP";
  SCHEDULING_CLASS_INTERACTIVE := VStr "IN";
  SCHEDULING_CLASS_BATCH := VStr "BA";
  engine_output_schema := λ language _,
    match language with
    | VStr "bash" => Some []
    | VStr "workflow" => Some [VDict [("name", VStr "steps"); ("type", VStr "list:data:")]]
    | _ => None
    end;
  codenames := λ _, ["view"; "share"; "owner"];
  walk := λ path,
    if String.eqb path "processes" then Some example_files
    else if String.eqb path "clean" then Some (drop 3 example_files)
    else if String.eqb path "nothing" then Some []
    else None;
  finders := [(["clean"], ["nothing"])];
|}.

Definition admin : user := User 1 true 100.

Definition example_state : state :=
  State ∅ ∅ ∅ [User 7 false 5; User 3 true 200; admin] [] [].

(** A definition in the current format and one in the legacy format. *)
Definition example_process (version : string) : dict :=
  [ ("slug", VStr "aligner"); ("name", VStr "Aligner");
    ("version", VStr version); ("type", VStr "data:alignment");
    ("category", VStr "analyses");
    ("persistence", VStr "CACHED");
    ("input", VList [VDict [("name", VStr "reads"); ("type", VStr "data:reads")];
                     VDict [("name", VStr "options");
                            ("group", VList [VDict [("name", VStr "threads");
                                                    ("type", VStr "basic:integer:")]])]]);
    ("run", VDict [("program", VStr "align")]) ].

Definition legacy_process : dict :=
  [ ("name", VStr "import:upload"); ("label", VStr "Upload");
    ("version", VStr "0.1.2"); ("type", VStr "data:raw");
    ("static", VList [VDict [("name", VStr "name"); ("type", VStr "basic:string");
                             ("default", VStr "Uploaded file")]]);
    ("run", VDict [("language", VStr "bash")]) ].

(** A store that holds the process [aligner] at the given packed
    versions, contributed by user 3, each with a grant to group 9. *)
Definition old_aligner : record := Record_ 3 [("name", VStr "Old aligner")].

Definition store_with (versions : list Z) : state :=
  State (list_to_map ((λ v, (("aligner", v), old_aligner)) <$> versions))
        ∅
        (list_to_map ((λ v, ((ProcessModel, ("aligner", v)),
                             {[ (PGroup 9, "view") ]})) <$> versions))
        [User 7 false 5; User 3 true 200; admin] [] [].

Definition v1_0_0 : Z := 16777216.
Definition v2_0_0 : Z := 33554432.
Definition v9_0_0 : Z := 150994944.
Definition v10_0_0 : Z := 167772160.

(** A valid definition whose language no execution engine runs. *)
Definition perl_process : dict :=
  [ ("slug", VStr "counter"); ("name", VStr "Counter");
    ("version", VStr "1.0.0"); ("type", VStr "data:counts:");
    ("run", VDict [("language", VStr "perl"); ("program", VStr "print 1")]) ].

(** A store without any superuser. *)
Definition state_without_admin : state :=
  State ∅ ∅ ∅ [User 7 false 5; User 8 false 50] [] [].

(** A definition without a type. *)
Definition untyped_process : dict :=
  [ ("slug", VStr "aligner"); ("name", VStr "Aligner"); ("version", VStr "1.0.0") ].

(** The definition a prepared result carries. *)
Definition ready_dict (r : result prepared) : dict :=
  match r with
  | Ok (Ready p _ _) => p
  | _ => []
  end.

(** Every row of [st] was contributed by [uid], or is a row that
    [st0] has under the same key with the same contributor. *)
Definition contributed (uid : nat) (st0 st : state) : Prop :=
  ∀ m k r, table m st !! k = Some r →
    contributor r = uid ∨ ∃ r0, table m st0 !! k = Some r0 ∧ contributor r0 = contributor r.

(** ** Shapes of types and schemas *)

(** A type that ends with the namespace separator: a string whose last
    character is [':'], or a list whose last item is such a string. *)
Definition ends_in_separator (t : value) : bool :=
  match t with
  | VStr s => ends_with_colon s
  | VList l =>
      match last l with
      | Some (VStr e) => ends_with_colon e
      | _ => false
      end
  | _ => false
  end.

(** The default that the loop of lines 110-112 leaves in [data_name]:
    the one of the last field called [name] that has a default. *)
Definition data_name_of (fields : list dict) : option value :=
  foldl (λ found schema,
           match dget "name" schema, dget "default" schema with
           | Some (VStr n), Some dflt => if String.eqb n "name" then Some dflt else found
           | _, _ => found
           end) None fields.

Definition nonempty_string (v : option value) : bool :=
  match v with
  | Some (VStr s) => negb (String.eqb s "")
  | _ => false
  end.

Section FieldShape.

Variable group_ok : value → bool.

Fixpoint group_value_ok (e : dict) : bool :=
  match e with
  | [] => true
  | (k, v) :: e' => if String.eqb "group" k then group_ok v else group_value_ok e'
  end.

(** A field: a dictionary with a string [name] and either a [group]
    of fields or a non-empty string [type]. *)
Definition field_ok (field_schema : value) : bool :=
  match field_schema with
  | VDict d =>
      match dget "name" d with
      | Some (VStr _) =>
          if dhas "group" d then group_value_ok d
          else nonempty_string (dget "type" d)
      | _ => false
      end
  | _ => false
  end.

End FieldShape.

(** A schema: a list of fields. *)
Fixpoint fields_ok (schema : value) : bool :=
  match schema with
  | VList fields => forallb (field_ok fields_ok) fields
  | _ => false
  end.

Definition section_ok (field : string) (p : dict) : bool :=
  match dget field p with
  | Some sec => fields_ok sec
  | None => true
  end.

(** The shape of a definition that the normalisation is written for. *)
Definition well_shaped (p : dict) : bool :=
  nonempty_string (dget "type" p)
  && match dget "category" p with
     | Some (VStr _) | None => true
     | Some _ => false
     end
  && (dhas "slug" p
      || match dget "name" p with
         | Some (VStr _) => dhas "label" p
         | _ => false
         end)
  && forallb (λ field, section_ok field p) schema_sections.

(** The fields that the walk yields in [v'] are the outcomes of [body]
    on the fields it yields in [v], one by one. *)
Definition leafwise (body : dict → result dict) (v v' : value) : Prop :=
  ∃ ls ls',
    iterate_schema v = Ok ls ∧ iterate_schema v' = Ok ls'
    ∧ Forall2 (λ d d', body d = Ok d') ls ls'.

(** ** Normal definitions *)

(** What the steps of the normalisation leave behind, each as a
    property of the definition: the top-level type and the category end
    with the separator, [data_name] holds the default named in the
    static section, there is a slug, and a second run of the loop over
    a section changes nothing. *)
Definition type_settled (p : dict) : Prop :=
  ∃ t, dget "type" p = Some t ∧ terminate_type false t = Ok t.

Definition category_settled (p : dict) : Prop :=
  match dget "category" p with
  | None => True
  | Some (VStr s) => ends_with_colon s = true
  | Some _ => False
  end.

Definition data_name_settled (p : dict) : Prop :=
  match dget "static" p with
  | None => True
  | Some static =>
      ∃ fields, iterate_schema static = Ok fields
                ∧ ∀ x, data_name_of fields = Some x → dget "data_name" p = Some x
  end.

Definition section_settled (field : string) (p : dict) : Prop :=
  match dget field p with
  | None => True
  | Some sec => update_fields terminate_field_type sec = Ok sec
  end.

Definition normalized (p : dict) : Prop :=
  type_settled p ∧ category_settled p ∧ data_name_settled p
  ∧ dhas "slug" p = true
  ∧ ∀ field, field ∈ schema_sections → section_settled field p.

(** [p] with the default found for [data_name], if any. *)
Definition with_data_name (found : option value) (p : dict) : dict :=
  match found with
  | Some x => dset "data_name" x p
  | None => p
  end.


(** The normalised definition, when the normalisation returns. *)
Definition normal_form (slugify : string → string) (p : dict) : dict :=
  match normalize slugify p with
  | Ok p' => p'
  | Raise _ => []
  end.

(** A second run of the loop over the updated schema changes nothing
    more, and its fields are the updated fields. *)
Definition settles (body : dict → result dict) (v : value) : Prop :=
  ∀ v', update_fields body v = Ok v' →
        update_fields body v' = Ok v' ∧ leafwise body v v'.

(** [d'] is the field [d] with its type terminated: every other key
    has the value it had, the type ends with the separator, and a
    string type is the given string, with [':'] appended when it did
    not end with it. *)
Definition type_terminated (d d' : dict) : Prop :=
  (∀ k, k ≠ "type" → dget k d' = dget k d)
  ∧ (∃ t, dget "type" d' = Some t ∧ ends_in_separator t = true)
  ∧ ∀ s, dget "type" d = Some (VStr s) →
         dget "type" d' = Some (VStr (if ends_with_colon s then s else s ++ ":")).

(** The fields that the walk yields in [sec'] are the fields it yields
    in [sec], one by one and in the same order, each with its type
    terminated. *)
Definition types_terminated (sec sec' : value) : Prop :=
  ∃ fields fields',
    iterate_schema sec = Ok fields ∧ iterate_schema sec' = Ok fields'
    ∧ Forall2 type_terminated fields fields'.

(** Whether the section [field] of [p] is still there when the loop of
    lines 123-126 runs: lines 120-121 drop [var] and [static] from a
    definition that came without a slug. *)
Definition section_kept (field : string) (p : dict) : bool :=
  dhas "slug" p || String.eqb field "input" || String.eqb field "output".

(** ** Relations between the store before and after *)

(** No row is removed. *)
Definition rows_kept (st st' : state) : Prop :=
  ∀ m k, is_Some (table m st !! k) → is_Some (table m st' !! k).

(** A row that [st] does not have lies above every version that [st]
    has of its slug. *)
Definition added_above (st st' : state) : Prop :=
  ∀ m slug v,
    is_Some (table m st' !! (slug, v)) →
    is_Some (table m st !! (slug, v))
    ∨ ∀ v0, is_Some (table m st !! (slug, v0)) → v0 < v.

(** The rows of [st] are in [st'] as they are. *)
Definition rows_unchanged (st st' : state) : Prop :=
  ∀ m k r, table m st !! k = Some r → table m st' !! k = Some r.

(** What a step of a run may do to the rows and the users: rows are
    kept, added rows lie above the versions of their slug, the users
    stay, and without force the rows stay as they are. *)
Definition quiet (force : bool) (st st' : state) : Prop :=
  rows_kept st st' ∧ added_above st st' ∧ users st' = users st
  ∧ (force = false → rows_unchanged st st').

(** Two states that hold the same rows, grants and users; with [out]
    they have also printed the same to the output stream, with [err]
    the same to the error stream. *)
Definition alike (out err : bool) (s s' : state) : Prop :=
  stored s = stored s' ∧ users s = users s'
  ∧ (out = true → stdout s = stdout s') ∧ (err = true → stderr s = stderr s').

(** A definition that validation refuses: it has no name. *)
Definition nameless_process : dict :=
  [ ("slug", VStr "nameless"); ("version", VStr "1.0.0"); ("type", VStr "data:raw") ].

(** The rows of [st] have in [st'] the grants they have in [st], and
    no object has lost a grant. *)
Definition grants_kept (st st' : state) : Prop :=
  (∀ m k, is_Some (table m st !! k) →
          permissions st' !! (m, k) = permissions st !! (m, k))
  ∧ ∀ o, grants_on (permissions st) o ⊆ grants_on (permissions st') o.

(** A descriptor schema in the legacy format, without a version, with
    fields of its own and fields under [static] and [var]. *)
Definition sample_descriptor : dict :=
  [ ("name", VStr "sample:info"); ("label", VStr "Sample");
    ("schema", VList [VDict [("name", VStr "organism"); ("type", VStr "basic:string")]]);
    ("static", VList [VDict [("name", VStr "notes"); ("type", VStr "basic:text")]]);
    ("var", VList [VDict [("name", VStr "replicate"); ("type", VStr "basic:integer")]]) ].

(** A definition with a name, and a persistence the command does not
    know. *)
Definition odd_persistence_process : dict :=
  [ ("slug", VStr "odd"); ("name", VStr "Odd"); ("version", VStr "1.0.0");
    ("type", VStr "data:odd:"); ("persistence", VStr "FOREVER") ].

(** The normalised descriptor schema, when the normalisation returns. *)
Definition descriptor_form (env : collaborators) (d : dict) : dict :=
  match normalize_descriptor env d with
  | Ok d' => d'
  | Raise _ => []
  end.

(** * Properties *)

#[local] Arguments String.eqb : simpl never.
#[local] Arguments Ascii.eqb : simpl never.

(** ** Dictionaries *)

Lemma dget_dset_eq k v d : dget k (dset k v d) = Some v.
Proof.
  induction d as [|[k' v'] d IH]; simpl.
  - by rewrite String.eqb_refl.
  - destruct (String.eqb k k') eqn:E; simpl; rewrite E; [done | apply IH].
Qed.

Lemma dget_dset_ne k k' v d : k ≠ k' → dget k (dset k' v d) = dget k d.
Proof.
  intros Hne. induction d as [|[k0 v0] d IH]; simpl.
  - by apply String.eqb_neq in Hne as ->.
  - destruct (String.eqb k' k0) eqn:E; simpl.
    + apply String.eqb_eq in E as <-. by apply String.eqb_neq in Hne as ->.
    + by rewrite IH.
Qed.

Lemma dget_ddel_eq k d : dget k (ddel k d) = None.
Proof.
  induction d as [|[k' v'] d IH]; simpl; [done |].
  destruct (String.eqb k k') eqn:E; simpl; [done | by rewrite E].
Qed.

Lemma dget_ddel_ne k k' d : k ≠ k' → dget k (ddel k' d) = dget k d.
Proof.
  intros Hne. induction d as [|[k0 v0] d IH]; simpl; [done |].
  destruct (String.eqb k' k0) eqn:E; simpl.
  - apply String.eqb_eq in E as <-. by apply String.eqb_neq in Hne as ->.
  - by rewrite IH.
Qed.

Lemma dhas_dget k d : dhas k d = match dget k d with Some _ => true | None => false end.
Proof.
  induction d as [|[k' v'] d IH]; simpl; [done |].
  by destruct (String.eqb k k').
Qed.

Lemma dset_same k v d : dget k d = Some v → dset k v d = d.
Proof.
  induction d as [|[k' v'] d IH]; simpl; [done |].
  destruct (String.eqb k k') eqn:E.
  - by intros [= ->].
  - intros H. by rewrite IH.
Qed.

Lemma dset_dset k v w d : dset k w (dset k v d) = dset k w d.
Proof.
  induction d as [|[k' v'] d IH]; simpl.
  - by rewrite String.eqb_refl.
  - destruct (String.eqb k k') eqn:E; simpl; rewrite E; [done | by rewrite IH].
Qed.

Lemma dget_update_columns k v p r :
  dget k p = Some v → dget k (fields (update_columns p r)) = Some v.
Proof.
  unfold update_columns; simpl.
  induction p as [|[k' v'] p IH]; simpl; [done |].
  destruct (String.eqb k k') eqn:E.
  - apply String.eqb_eq in E as <-. intros [= ->]. apply dget_dset_eq.
  - intros H. rewrite dget_dset_ne; [by apply IH | by apply String.eqb_neq].
Qed.

(** ** The greatest stored version of a slug *)

Lemma max_version_in_None slug rows :
  max_version_in slug rows = None ↔ ∀ v r, (slug, v, r) ∉ rows.
Proof.
  induction rows as [|[[s z] r] rows IH]; simpl.
  - split; [| done]. intros _ v r Hin. by apply elem_of_nil in Hin.
  - destruct (String.eqb s slug) eqn:E.
    + apply String.eqb_eq in E as ->. split; [done |].
      intros Hnone. exfalso. apply (Hnone z r). by left.
    + apply String.eqb_neq in E. rewrite IH. split.
      * intros Hnone v r' [[= ? ? ?]|Hin]%elem_of_cons; [done |]. by apply Hnone in Hin.
      * intros Hnone v r' Hin. apply (Hnone v r'). by right.
Qed.

Lemma max_version_in_Some slug rows v :
  max_version_in slug rows = Some v ↔
  (∃ r, (slug, v, r) ∈ rows) ∧ ∀ v' r, (slug, v', r) ∈ rows → v' ≤ v.
Proof.
  revert v. induction rows as [|[[s z] r] rows IH]; intros v; simpl.
  - split; [done |]. intros [[r Hr] _]. by apply elem_of_nil in Hr.
  - destruct (String.eqb s slug) eqn:E.
    + apply String.eqb_eq in E as ->.
      destruct (max_version_in slug rows) as [m|] eqn:Hf.
      * destruct (proj1 (IH m) eq_refl) as [[r0 Hr0] Hm]. split.
        -- intros [= <-]. split.
           ++ destruct (Z.max_spec z m) as [[_ ->]|[_ ->]];
                [exists r0; by right | exists r; by left].
           ++ intros v' r' [[= -> ->]|Hin]%elem_of_cons; [lia |].
              specialize (Hm _ _ Hin). lia.
        -- intros [[r1 Hr1] Hle]. f_equal.
           assert (z ≤ v) by (apply (Hle z r); by left).
           assert (m ≤ v) by (apply (Hle m r0); by right).
           apply elem_of_cons in Hr1 as [[= -> ->]|Hin]; [lia |].
           specialize (Hm _ _ Hin). lia.
      * pose proof (proj1 (max_version_in_None slug rows) Hf) as Hnone. split.
        -- intros [= <-]. split; [exists r; by left |].
           intros v' r' [[= -> ->]|Hin]%elem_of_cons; [lia | by apply Hnone in Hin].
        -- intros [[r1 Hr1] _]. f_equal.
           apply elem_of_cons in Hr1 as [[= -> ->]|Hin]; [done | by apply Hnone in Hin].
    + apply String.eqb_neq in E. rewrite IH. split.
      * intros [[r0 Hr0] Hle]. split; [exists r0; by right |].
        intros v' r' [[= -> ->]|Hin]%elem_of_cons; [done | eauto].
      * intros [[r0 Hr0] Hle]. split.
        -- apply elem_of_cons in Hr0 as [[= -> ->]|Hin]; [done | eauto].
        -- intros v' r' Hin. apply (Hle v' r'). by right.
Qed.

Lemma version_max_Some t slug v :
  version_max t slug = Some v ↔
  is_Some (t !! (slug, v)) ∧ ∀ v', is_Some (t !! (slug, v')) → v' ≤ v.
Proof.
  unfold version_max. rewrite max_version_in_Some. split.
  - intros [[r Hr] Hle]. split.
    + exists r. by apply elem_of_map_to_list in Hr.
    + intros v' [r' Hr']. apply (Hle v' r'). by apply elem_of_map_to_list.
  - intros [[r Hr] Hle]. split.
    + exists r. by apply elem_of_map_to_list.
    + intros v' r' Hin. apply Hle. exists r'. by apply elem_of_map_to_list in Hin.
Qed.

Lemma version_max_None t slug :
  version_max t slug = None ↔ ∀ v, t !! (slug, v) = None.
Proof.
  unfold version_max. rewrite max_version_in_None. split.
  - intros Hnone v. destruct (t !! (slug, v)) as [r|] eqn:Hr; [| done].
    apply elem_of_map_to_list in Hr. by apply Hnone in Hr.
  - intros Hnone v r Hin. apply elem_of_map_to_list in Hin. by rewrite Hnone in Hin.
Qed.

(** ** The version-aware upsert *)

Section Upsert.

Context (env : collaborators).

Lemma stored_write_err line st : stored (write_err line st) = stored st.
Proof. done. Qed.

Lemma stored_write_out line st : stored (write_out line st) = stored st.
Proof. done. Qed.

Lemma table_set_table m t st : table m (set_table m t st) = t.
Proof. by destruct m. Qed.

(** The slug has a greater version: nothing is stored. *)
Lemma upsert_newer m noun force verbosity who p slug version iv v' st log :
  version_int env version = Ok iv →
  is_Some (table m st !! (slug, v')) → iv < v' →
  upsert env m noun force verbosity who p (VStr slug) (VStr version) st log =
    (write_err ("Skip " ++ noun ++ " " ++ slug ++ ": newer version installed") st,
     log, Done).
Proof.
  intros Hiv Hsome Hlt. unfold upsert. rewrite Hiv.
  destruct (version_max (table m st) slug) as [lv|] eqn:Hmax.
  - apply version_max_Some in Hmax as [_ Hle]. specialize (Hle _ Hsome).
    by destruct (Z.ltb_spec iv lv); [| lia].
  - pose proof (proj1 (version_max_None _ _) Hmax v') as Hnone.
    rewrite Hnone in Hsome. by destruct Hsome.
Qed.

(** The slug has no greater version: the exact row decides. *)
Lemma upsert_not_newer m noun force verbosity who p slug version iv st log :
  version_int env version = Ok iv →
  (∀ v', is_Some (table m st !! (slug, v')) → v' ≤ iv) →
  upsert env m noun force verbosity who p (VStr slug) (VStr version) st log =
    match table m st !! (slug, iv) with
    | Some r =>
        if force then
          (set_table m (<[(slug, iv) := update_columns p r]> (table m st)) st,
           (log ++ ["Updated " +:+ slug])%list, Done)
        else
          (if 0 <? verbosity then
             write_out ("Skip " ++ noun ++ " " ++ slug ++ ": same version installed") st
           else st, log, Done)
    | None =>
        let new := (m, (slug, iv)) in
        let st' := set_table m (<[(slug, iv) := Record_ (user_id who) p]> (table m st)) st in
        let g := assign_contributor_permissions (codenames env m) new (user_id who)
                   (permissions st') in
        let g := match latest (table m st) slug with
                 | Some old => copy_permissions (m, old) new g
                 | None => g
                 end in
        (set_permissions g st', (log ++ ["Inserted " +:+ slug])%list, Done)
    end.
Proof.
  intros Hiv Hle. unfold upsert. rewrite Hiv.
  destruct (version_max (table m st) slug) as [lv|] eqn:Hmax; [| done].
  apply version_max_Some in Hmax as [Hsome _]. specialize (Hle _ Hsome).
  by destruct (Z.ltb_spec iv lv); [lia |].
Qed.

End Upsert.

(** ** Registering a process *)

(** C1: a definition that reaches the upsert with a slug of which the
    store holds a strictly greater version is skipped, whatever the
    force flag: the only effect is the message on the error stream, no
    row is inserted or updated and no grant changes.  The versions
    compared are the packed integers [version_int] gives, not the
    version strings. *)
Theorem newer_version_skips_registration
    env who force verbosity p st log p' slug version iv v' :
  prepare_process env p = Ok (Ready p' (VStr slug) (VStr version)) →
  version_int env version = Ok iv →
  is_Some (processes st !! (slug, v')) →
  iv < v' →
  ∃ st',
    register_process env who force verbosity (VDict p) st log = (st', log, Done)
    ∧ stored st' = stored st
    ∧ stdout st' = stdout st
    ∧ stderr st' =
        (stderr st ++ ["Skip processor " +:+ slug +:+ ": newer version installed"])%list.
Proof.
  intros Hp Hiv Hsome Hlt. eexists. split.
  - unfold register_process. rewrite Hp.
    by apply (upsert_newer env ProcessModel) with (iv := iv) (v' := v').
  - done.
Qed.

Lemma newer_version_skips_registration_witness :
  String.ltb "10.0.0" "9.0.0" = true
  ∧ ∃ st',
      register_process example_env admin true 1 (VDict (example_process "9.0.0"))
        (store_with [v10_0_0]) [] = (st', [], Done)
      ∧ stored st' = stored (store_with [v10_0_0])
      ∧ stdout st' = stdout (store_with [v10_0_0])
      ∧ stderr st' =
          (stderr (store_with [v10_0_0])
           ++ ["Skip processor " +:+ "aligner" +:+ ": newer version installed"])%list.
Proof.
  split; [reflexivity |].
  refine (newer_version_skips_registration example_env admin true 1
            (example_process "9.0.0") (store_with [v10_0_0]) []
            (ready_dict (prepare_process example_env (example_process "9.0.0")))
            "aligner" "9.0.0" v9_0_0 v10_0_0 _ _ _ _).
  - vm_compute; reflexivity.
  - vm_compute; reflexivity.
  - vm_compute; eexists; reflexivity.
  - vm_compute; reflexivity.
Defined.
(** C2: a definition that reaches the upsert while the row of its slug
    and version exists, registered without force, leaves every row and
    every grant as they were and logs no update. *)
Theorem same_version_without_force_is_noop
    env who verbosity p st log p' slug version iv :
  prepare_process env p = Ok (Ready p' (VStr slug) (VStr version)) →
  version_int env version = Ok iv →
  is_Some (processes st !! (slug, iv)) →
  ∃ st',
    register_process env who false verbosity (VDict p) st log = (st', log, Done)
    ∧ stored st' = stored st
    ∧ users st' = users st.
Proof.
  intros Hp Hiv [r Hr]. unfold register_process. rewrite Hp.
  destruct (version_max (processes st) slug) as [lv|] eqn:Hmax.
  - apply version_max_Some in Hmax as [Hsome Hle].
    destruct (decide (iv < lv)) as [Hlt|Hge].
    + eexists. split.
      * by apply (upsert_newer env ProcessModel) with (iv := iv) (v' := lv).
      * done.
    + eexists. split.
      * rewrite (upsert_not_newer env ProcessModel) with (iv := iv); [| done |].
        -- simpl. rewrite Hr. reflexivity.
        -- intros v' Hv'. specialize (Hle _ Hv'). lia.
      * by destruct (0 <? verbosity).
  - pose proof (proj1 (version_max_None _ _) Hmax iv) as Hnone.
    simpl in Hnone. congruence.
Qed.

(** Registering 1.0.0 again, without force, over a store that holds it. *)
Lemma same_version_without_force_is_noop_witness :
  ∃ st',
    register_process example_env admin false 1 (VDict (example_process "1.0.0"))
      (store_with [v1_0_0]) [] = (st', [], Done)
    ∧ stored st' = stored (store_with [v1_0_0])
    ∧ users st' = users (store_with [v1_0_0]).
Proof.
  refine (same_version_without_force_is_noop example_env admin 1
            (example_process "1.0.0") (store_with [v1_0_0]) []
            (ready_dict (prepare_process example_env (example_process "1.0.0")))
            "aligner" "1.0.0" v1_0_0 _ _ _).
  - vm_compute; reflexivity.
  - vm_compute; reflexivity.
  - vm_compute; eexists; reflexivity.
Defined.

Lemma store_with_versions versions slug v :
  is_Some (processes (store_with versions) !! (slug, v)) → v ∈ versions.
Proof.
  intros [r Hr]. unfold store_with in Hr. cbn [processes] in Hr.
  apply elem_of_list_to_map_2 in Hr.
  apply list_elem_of_fmap in Hr as (v0 & Heq & Hin).
  by injection Heq as -> -> ->.
Qed.

(** C4 as stated fails: with 1.0.0 and 2.0.0 stored, registering 1.0.0
    under force meets the row of its slug and version, yet the row is
    left as it was, because 2.0.0 is newer. *)
Lemma force_update_refused_below_latest :
  let st := store_with [v1_0_0; v2_0_0] in
  let p' := ready_dict (prepare_process example_env (example_process "1.0.0")) in
  prepare_process example_env (example_process "1.0.0")
    = Ok (Ready p' (VStr "aligner") (VStr "1.0.0"))
  ∧ version_int example_env "1.0.0" = Ok v1_0_0
  ∧ processes st !! ("aligner", v1_0_0) = Some old_aligner
  ∧ register_process example_env admin true 1 (VDict (example_process "1.0.0")) st []
    = (write_err "Skip processor aligner: newer version installed" st, [], Done)
  ∧ update_columns p' old_aligner ≠ old_aligner.
Proof.
  repeat split; try (vm_compute; reflexivity).
  vm_compute. discriminate.
Qed.

(** C4, amended: a definition that reaches the version check of
    lines 173-174 with a slug and a version that are strings (it is
    normalised without an exception, passes validation, has its
    persistence and scheduling class mapped and its execution engine
    resolved without an exception and without being skipped, and has a
    version), whose version converts to a packed integer, while the
    row of its slug and version exists and its slug has no strictly
    greater version, registered under force, has the columns of the
    prepared definition assigned to the existing row, in place: the
    table keeps its keys, the row keeps its contributor, and every
    column of the definition is stored in it. *)
Theorem force_update_in_place
    env who verbosity p st log p' slug version iv r :
  prepare_process env p = Ok (Ready p' (VStr slug) (VStr version)) →
  version_int env version = Ok iv →
  processes st !! (slug, iv) = Some r →
  (∀ v', is_Some (processes st !! (slug, v')) → v' ≤ iv) →
  ∃ st',
    register_process env who true verbosity (VDict p) st log
      = (st', (log ++ ["Updated " +:+ slug])%list, Done)
    ∧ processes st' = <[(slug, iv) := update_columns p' r]> (processes st)
    ∧ dom (processes st') = dom (processes st)
    ∧ contributor (update_columns p' r) = contributor r
    ∧ ∀ k v, dget k p' = Some v → dget k (fields (update_columns p' r)) = Some v.
Proof.
  intros Hp Hiv Hr Hle.
  exists (set_table ProcessModel (<[(slug, iv) := update_columns p' r]> (processes st)) st).
  split; [| split; [| split; [| split]]].
  - unfold register_process. rewrite Hp.
    rewrite (upsert_not_newer env ProcessModel) with (iv := iv); [| done | done].
    cbn [table]. rewrite Hr. reflexivity.
  - done.
  - cbn [set_table processes]. rewrite dom_insert_L.
    apply subseteq_union_1_L, singleton_subseteq_l, elem_of_dom. eauto.
  - done.
  - intros k v Hk. by apply dget_update_columns.
Qed.

(** Registering 2.0.0 under force over a store that holds 1.0.0 and 2.0.0. *)
Lemma force_update_in_place_witness :
  let st := store_with [v1_0_0; v2_0_0] in
  let p' := ready_dict (prepare_process example_env (example_process "2.0.0")) in
  ∃ st',
    register_process example_env admin true 1 (VDict (example_process "2.0.0")) st []
      = (st', ([] ++ ["Updated " +:+ "aligner"])%list, Done)
    ∧ processes st' = <[("aligner", v2_0_0) := update_columns p' old_aligner]> (processes st)
    ∧ dom (processes st') = dom (processes st)
    ∧ contributor (update_columns p' old_aligner) = contributor old_aligner
    ∧ ∀ k v, dget k p' = Some v →
             dget k (fields (update_columns p' old_aligner)) = Some v.
Proof.
  intros st p'.
  refine (force_update_in_place example_env admin 1
            (example_process "2.0.0") st [] p' "aligner" "2.0.0" v2_0_0 old_aligner
            _ _ _ _).
  - vm_compute; reflexivity.
  - vm_compute; reflexivity.
  - vm_compute; reflexivity.
  - intros v' Hsome. apply store_with_versions in Hsome.
    apply elem_of_cons in Hsome as [->|Hsome]; [vm_compute; discriminate |].
    apply list_elem_of_singleton in Hsome as ->. vm_compute; discriminate.
Defined.
(** C10: a definition that reaches the upsert while the row of its
    slug and version exists, registered under force, leaves every
    grant as it was; the descriptor schemas, the other rows and the
    contributor of the row are untouched as well. *)
Theorem force_update_keeps_permissions
    env who verbosity p st log p' slug version iv :
  prepare_process env p = Ok (Ready p' (VStr slug) (VStr version)) →
  version_int env version = Ok iv →
  is_Some (processes st !! (slug, iv)) →
  ∃ st' log',
    register_process env who true verbosity (VDict p) st log = (st', log', Done)
    ∧ permissions st' = permissions st
    ∧ descriptors st' = descriptors st
    ∧ (∀ k, k ≠ (slug, iv) → processes st' !! k = processes st !! k)
    ∧ contributor <$> processes st' !! (slug, iv)
      = contributor <$> processes st !! (slug, iv).
Proof.
  intros Hp Hiv [r Hr]. unfold register_process. rewrite Hp.
  destruct (version_max (processes st) slug) as [lv|] eqn:Hmax.
  - apply version_max_Some in Hmax as [Hsome Hle].
    destruct (decide (iv < lv)) as [Hlt|Hge].
    + exists (write_err ("Skip processor " +:+ slug +:+ ": newer version installed") st), log.
      split; [| done].
      by apply (upsert_newer env ProcessModel) with (iv := iv) (v' := lv).
    + exists (set_table ProcessModel
                (<[(slug, iv) := update_columns p' r]> (processes st)) st),
             (log ++ ["Updated " +:+ slug])%list.
      split; [| split; [| split; [| split]]].
      * rewrite (upsert_not_newer env ProcessModel) with (iv := iv); [| done |].
        -- cbn [table]. rewrite Hr. reflexivity.
        -- intros v' Hv'. specialize (Hle _ Hv'). lia.
      * done.
      * done.
      * intros k Hk. cbn [set_table processes]. by rewrite lookup_insert_ne.
      * cbn [set_table processes]. by rewrite lookup_insert_eq, Hr.
  - pose proof (proj1 (version_max_None _ _) Hmax iv) as Hnone.
    cbn [table] in Hnone. congruence.
Qed.

(** The grants after a forced update of 2.0.0 are those before it. *)
Lemma force_update_keeps_permissions_witness :
  let st := store_with [v1_0_0; v2_0_0] in
  ∃ st' log',
    register_process example_env admin true 1 (VDict (example_process "2.0.0")) st []
      = (st', log', Done)
    ∧ permissions st' = permissions st
    ∧ descriptors st' = descriptors st
    ∧ (∀ k, k ≠ ("aligner", v2_0_0) → processes st' !! k = processes st !! k)
    ∧ contributor <$> processes st' !! ("aligner", v2_0_0)
      = contributor <$> processes st !! ("aligner", v2_0_0).
Proof.
  intros st.
  refine (force_update_keeps_permissions example_env admin 1
            (example_process "2.0.0") st []
            (ready_dict (prepare_process example_env (example_process "2.0.0")))
            "aligner" "2.0.0" v2_0_0 _ _ _).
  - vm_compute; reflexivity.
  - vm_compute; reflexivity.
  - vm_compute; eexists; reflexivity.
Defined.
Lemma grants_on_insert_eq g o s : grants_on (<[o := s]> g) o = s.
Proof. unfold grants_on. by rewrite lookup_insert_eq. Qed.

Lemma grants_on_insert_ne g o o' s : o ≠ o' → grants_on (<[o := s]> g) o' = grants_on g o'.
Proof. intros Hne. unfold grants_on. by rewrite lookup_insert_ne. Qed.

(** C3 as stated fails: a definition that passes validation, whose
    slug and version are not stored and whose slug has no stored
    version at all, is not inserted when no execution engine runs its
    language. *)
Lemma unsupported_engine_not_inserted :
  let st := example_state in
  normalize (slugify example_env) perl_process = Ok perl_process
  ∧ valid example_env ProcessModel perl_process = None
  ∧ version_int example_env "1.0.0" = Ok v1_0_0
  ∧ (∀ v, processes st !! ("counter", v) = None)
  ∧ register_process example_env admin false 1 (VDict perl_process) st []
    = (write_err "Skip processor counter: execution engine 'perl' not supported" st,
       [], Done)
  ∧ processes
      (write_err "Skip processor counter: execution engine 'perl' not supported" st)
    = ∅.
Proof.
  repeat split; try (vm_compute; reflexivity).
Qed.

(** C3, amended: a definition that reaches the version check of
    lines 173-174 with a slug and a version that are strings (it is
    normalised without an exception, passes validation, has its
    persistence and scheduling class mapped and its execution engine
    resolved without an exception and without being skipped, and has a
    version), whose version converts to a packed integer, while the
    row of its slug and version does not exist and its slug has no
    strictly greater version, is inserted as a new row of the
    contributor; the contributor is granted every permission of the
    model on it; the grants on the previous latest version of the slug,
    if there is one, are also given on it; the grants on other objects
    stay as they were. *)
Theorem new_version_is_inserted
    env who force verbosity p st log p' slug version iv :
  prepare_process env p = Ok (Ready p' (VStr slug) (VStr version)) →
  version_int env version = Ok iv →
  processes st !! (slug, iv) = None →
  (∀ v', is_Some (processes st !! (slug, v')) → v' ≤ iv) →
  ∃ st',
    register_process env who force verbosity (VDict p) st log
      = (st', (log ++ ["Inserted " +:+ slug])%list, Done)
    ∧ processes st' = <[(slug, iv) := Record_ (user_id who) p']> (processes st)
    ∧ descriptors st' = descriptors st
    ∧ (∀ c, c ∈ codenames env ProcessModel →
            (PUser (user_id who), c)
              ∈ grants_on (permissions st') (ProcessModel, (slug, iv)))
    ∧ (∀ v0, is_Some (processes st !! (slug, v0)) →
             (∀ v', is_Some (processes st !! (slug, v')) → v' ≤ v0) →
             grants_on (permissions st) (ProcessModel, (slug, v0))
               ⊆ grants_on (permissions st') (ProcessModel, (slug, iv)))
    ∧ (∀ o, o ≠ (ProcessModel, (slug, iv)) →
            permissions st' !! o = permissions st !! o).
Proof.
  intros Hp Hiv Hnone Hle. unfold register_process. rewrite Hp.
  rewrite (upsert_not_newer env ProcessModel) with (iv := iv); [| done | done].
  cbn [table]. rewrite Hnone. cbv zeta. eexists. split; [reflexivity |].
  cbn [set_permissions set_table processes descriptors permissions].
  split; [done |]. split; [done |].
  set (new := (ProcessModel, (slug, iv))).
  set (g1 := assign_contributor_permissions _ new _ (permissions st)).
  assert (∀ c, c ∈ codenames env ProcessModel →
               (PUser (user_id who), c) ∈ grants_on g1 new) as Hcontrib.
  { intros c Hc. unfold g1, assign_contributor_permissions.
    rewrite grants_on_insert_eq. apply elem_of_union_r, elem_of_list_to_set.
    apply list_elem_of_In, in_map. by apply list_elem_of_In. }
  assert (∀ o, o ≠ new → g1 !! o = permissions st !! o) as Hother.
  { intros o Ho. unfold g1, assign_contributor_permissions.
    by rewrite lookup_insert_ne. }
  unfold latest. destruct (version_max (processes st) slug) as [lv|] eqn:Hmax.
  - apply version_max_Some in Hmax as [Hsome Hmax].
    assert ((ProcessModel, (slug, lv)) ≠ new) as Hold.
    { intros [= ->]. rewrite Hnone in Hsome. by destruct Hsome. }
    unfold copy_permissions. split; [| split].
    + intros c Hc. rewrite grants_on_insert_eq. apply elem_of_union_l. by apply Hcontrib.
    + intros v0 Hv0 Hv0max.
      assert (v0 = lv) as -> by (specialize (Hmax _ Hv0); specialize (Hv0max _ Hsome); lia).
      rewrite grants_on_insert_eq. intros x Hx. apply elem_of_union_r.
      unfold grants_on. by rewrite Hother.
    + intros o Ho. rewrite lookup_insert_ne by done. by apply Hother.
  - split; [done |]. split; [| done].
    intros v0 [r Hr] _. pose proof (proj1 (version_max_None _ _) Hmax v0). congruence.
Qed.

(** Registering 2.0.0 over a store that holds 1.0.0. *)
Lemma new_version_is_inserted_witness :
  let st := store_with [v1_0_0] in
  let p' := ready_dict (prepare_process example_env (example_process "2.0.0")) in
  ∃ st',
    register_process example_env admin false 1 (VDict (example_process "2.0.0")) st []
      = (st', ([] ++ ["Inserted " +:+ "aligner"])%list, Done)
    ∧ processes st' = <[("aligner", v2_0_0) := Record_ (user_id admin) p']> (processes st)
    ∧ descriptors st' = descriptors st
    ∧ (∀ c, c ∈ codenames example_env ProcessModel →
            (PUser (user_id admin), c)
              ∈ grants_on (permissions st') (ProcessModel, ("aligner", v2_0_0)))
    ∧ (∀ v0, is_Some (processes st !! ("aligner", v0)) →
             (∀ v', is_Some (processes st !! ("aligner", v')) → v' ≤ v0) →
             grants_on (permissions st) (ProcessModel, ("aligner", v0))
               ⊆ grants_on (permissions st') (ProcessModel, ("aligner", v2_0_0)))
    ∧ (∀ o, o ≠ (ProcessModel, ("aligner", v2_0_0)) →
            permissions st' !! o = permissions st !! o).
Proof.
  intros st p'.
  refine (new_version_is_inserted example_env admin false 1
            (example_process "2.0.0") st [] p' "aligner" "2.0.0" v2_0_0 _ _ _ _).
  - vm_compute; reflexivity.
  - vm_compute; reflexivity.
  - vm_compute; reflexivity.
  - intros v' Hsome. apply store_with_versions in Hsome.
    apply list_elem_of_singleton in Hsome as ->. vm_compute; discriminate.
Defined.


(** ** Finding schemas *)

Section Scan.

Context (env : collaborators).

Lemma stored_write_errs lines st :
  stored (write_errs lines st) = stored st ∧ users (write_errs lines st) = users st.
Proof.
  unfold write_errs. revert st. induction lines as [|line lines IH]; intros st; [done |].
  simpl. destruct (IH (write_err line st)) as [-> ->]. done.
Qed.

Lemma stored_write_logs title log st :
  stored (write_logs title log st) = stored st ∧ users (write_logs title log st) = users st.
Proof.
  unfold write_logs. destruct log as [|l0 log]; [done |].
  assert (∀ lines st0, stored (foldl (λ st line, write_out ("  " ++ line) st) st0 lines)
                       = stored st0
                       ∧ users (foldl (λ st line, write_out ("  " ++ line) st) st0 lines)
                         = users st0) as Hfold.
  { induction lines as [|line lines IH]; intros st0; [done |].
    simpl. destruct (IH (write_out ("  " ++ line) st0)) as [-> ->]. done. }
  destruct (Hfold (l0 :: log) (write_out title st)) as [-> ->]. done.
Qed.

Lemma scan_files_stored filters schema_type files st found st' res :
  scan_files filters schema_type files st found = (st', res) →
  stored st' = stored st ∧ users st' = users st.
Proof.
  revert st found. induction files as [|[name content] files IH]; intros st found; simpl.
  - by intros [= <- _].
  - destruct (is_yaml_name name); [| by apply IH].
    destruct content as [e|schemas]; [by intros [= <- _] |].
    destruct (truthy schemas).
    + destruct (bind _ _) as [chosen|e]; [by apply IH | by intros [= <- _]].
    + intros H. by apply IH in H as [-> ->].
Qed.

Lemma find_schemas_stored path filters schema_type verbosity st st' res :
  find_schemas env path filters schema_type verbosity st = (st', res) →
  stored st' = stored st ∧ users st' = users st.
Proof.
  unfold find_schemas. destruct (walk env path) as [files|].
  - destruct (scan_files _ _ _ _ _) as [st1 [found|e]] eqn:Hscan;
      intros [= <- _]; by eapply scan_files_stored.
  - intros [= <- _]. by destruct (0 <? verbosity).
Qed.

Lemma collect_schemas_stored filters schema_type verbosity paths st found st' res :
  collect_schemas env filters schema_type verbosity paths st found = (st', res) →
  stored st' = stored st ∧ users st' = users st.
Proof.
  revert st found. induction paths as [|path paths IH]; intros st found; simpl.
  - by intros [= <- _].
  - destruct (find_schemas _ _ _ _ _ _) as [st1 [[l|]|e]] eqn:Hfind;
      apply find_schemas_stored in Hfind as [Hs Hu].
    + intros H. apply IH in H as [-> ->]. done.
    + by intros [= <- _].
    + by intros [= <- _].
Qed.

(** A path that is not a directory ends the collection with an
    exception: with [TypeError] when the paths before it were read. *)
Lemma collect_schemas_not_a_directory filters schema_type verbosity pre bad post st found :
  walk env bad = None →
  ∃ st' e,
    collect_schemas env filters schema_type verbosity (pre ++ bad :: post) st found
      = (st', Raise e)
    ∧ (Forall (λ q, ∀ st0, ∃ st1 l,
                 find_schemas env q filters schema_type verbosity st0 = (st1, Ok (Some l)))
              pre → e = TypeError).
Proof.
  intros Hbad. revert st found. induction pre as [|q pre IH]; intros st found; simpl.
  - unfold find_schemas. rewrite Hbad. by do 2 eexists.
  - destruct (find_schemas env q _ _ _ st) as [st1 [[l|]|e]] eqn:Hfind.
    + destruct (IH st1 (found ++ l)%list) as (st' & e & -> & He).
      exists st', e. split; [done |]. intros Hpre. apply He. by inversion Hpre.
    + exists st1, TypeError. split; [done |]. done.
    + exists st1, e. split; [done |]. intros Hpre.
      inversion Hpre as [|? ? Hq _]; subst. destruct (Hq st) as (? & ? & Hq').
      congruence.
Qed.

End Scan.

(** C7: the scan of the example tree.  The file that loads to nothing
    is reported and skipped, but the file on which the YAML loader
    raises ends [find_schemas] with that exception: nothing is reported
    for it and the file after it is never read. *)
Theorem malformed_yaml_is_not_skipped :
  walk example_env "processes" = Some example_files
  ∧ find_schemas example_env "processes" None ProcessModel 1 example_state
    = (write_err "Could not read YAML file processes/empty.yml" example_state,
       Raise YAMLError)
  ∧ find_schemas example_env "clean" None ProcessModel 1 example_state
    = (example_state,
       Ok (Some [VDict [("slug", VStr "upload"); ("name", VStr "Upload");
                        ("version", VStr "1.0.0"); ("type", VStr "data:raw");
                        ("run", VDict [("program", VStr "true")])]])).
Proof. repeat split; vm_compute; reflexivity. Qed.

(** What the guard of line 78 does handle: a file whose document is
    empty is reported and the scan goes on with the next file. *)
Lemma empty_document_is_skipped filters schema_type file schemas files st found :
  is_yaml_name file = true →
  truthy schemas = false →
  scan_files filters schema_type ((file, Loaded schemas) :: files) st found
  = scan_files filters schema_type files
      (write_err ("Could not read YAML file " ++ file) st) found.
Proof. intros Hname Hempty. simpl. by rewrite Hname, Hempty. Qed.

(** An exception of the loader leaves the scan at once. *)
Lemma loader_exception_ends_scan filters schema_type file e files st found :
  is_yaml_name file = true →
  scan_files filters schema_type ((file, LoadRaises e) :: files) st found
  = (st, Raise e).
Proof. intros Hname. simpl. by rewrite Hname. Qed.

(** ** The command *)

Lemma elem_of_insert_by_date v u l : v ∈ insert_by_date u l ↔ v = u ∨ v ∈ l.
Proof.
  induction l as [|h t IH]; simpl.
  - rewrite list_elem_of_singleton. split; [by left | intros [|H]; [done | by apply elem_of_nil in H]].
  - destruct (date_joined u <=? date_joined h).
    + by rewrite elem_of_cons.
    + rewrite !elem_of_cons, IH. tauto.
Qed.

Lemma elem_of_order_by_date_joined v l : v ∈ order_by_date_joined l ↔ v ∈ l.
Proof.
  unfold order_by_date_joined. induction l as [|h t IH]; simpl; [done |].
  rewrite elem_of_insert_by_date, elem_of_cons, IH. done.
Qed.

(** The first row of the ordered query joined no later than any other. *)
Lemma order_by_date_joined_head l h t :
  order_by_date_joined l = h :: t → ∀ v, v ∈ l → date_joined h ≤ date_joined v.
Proof.
  assert (∀ l0 u, (∀ h0 t0, l0 = h0 :: t0 → ∀ v, v ∈ l0 → date_joined h0 ≤ date_joined v) →
                  ∀ h0 t0, insert_by_date u l0 = h0 :: t0 →
                  ∀ v, v ∈ insert_by_date u l0 → date_joined h0 ≤ date_joined v) as Hins.
  { intros l0 u Hl0 h0 t0. destruct l0 as [|a l0]; simpl.
    - intros [= <- <-] v ->%list_elem_of_singleton. lia.
    - destruct (Z.leb_spec (date_joined u) (date_joined a)).
      + intros [= <- <-] v [->|Hv]%elem_of_cons; [lia |].
        specialize (Hl0 a l0 eq_refl v Hv). lia.
      + intros [= <- <-] v [->|Hv]%elem_of_cons; [lia |].
        apply elem_of_insert_by_date in Hv as [->|Hv]; [lia |].
        apply (Hl0 a l0 eq_refl). by right. }
  revert h t. induction l as [|a l IH]; intros h t; [done |].
  change (order_by_date_joined (a :: l))
    with (insert_by_date a (order_by_date_joined l)).
  intros Heq v Hv. apply (Hins (order_by_date_joined l) a) with (t0 := t); [| done |].
  - intros h0 t0 Hl v0 Hv0. apply (IH h0 t0 Hl).
    by apply (proj1 (elem_of_order_by_date_joined v0 l)).
  - apply elem_of_insert_by_date. apply elem_of_cons in Hv as [->|Hv]; [by left | right].
    by apply (proj2 (elem_of_order_by_date_joined v l)).
Qed.

Lemma elem_of_superusers u st :
  u ∈ superusers st ↔ u ∈ users st ∧ is_superuser u = true.
Proof.
  unfold superusers. rewrite elem_of_order_by_date_joined, list_elem_of_filter. tauto.
Qed.

Section Command.

Context (env : collaborators).

Lemma table_set_table_ne m m' t st : m ≠ m' → table m' (set_table m t st) = table m' st.
Proof. by destruct m, m'. Qed.

Lemma contributed_refl uid st : contributed uid st st.
Proof. intros m k r Hr. right. eauto. Qed.

Lemma contributed_tables uid st0 st st' :
  (∀ m, table m st' = table m st) → contributed uid st0 st → contributed uid st0 st'.
Proof. intros Ht Hc m k r Hr. apply (Hc m k r). by rewrite <- Ht. Qed.

Lemma contributed_same uid st0 st st' :
  stored st' = stored st → contributed uid st0 st → contributed uid st0 st'.
Proof.
  unfold stored. intros [= Hp Hd _]. apply contributed_tables.
  intros []; simpl; congruence.
Qed.

Lemma contributed_insert uid st0 st m key r' :
  (contributor r' = uid ∨ ∃ r, table m st !! key = Some r ∧ contributor r = contributor r') →
  contributed uid st0 st →
  contributed uid st0 (set_table m (<[key := r']> (table m st)) st).
Proof.
  intros Hr' Hc m' k r Hr. destruct (decide (m = m')) as [<-|Hm].
  - rewrite table_set_table in Hr. destruct (decide (key = k)) as [<-|Hk].
    + rewrite lookup_insert_eq in Hr. injection Hr as <-.
      destruct Hr' as [?|(r1 & Hr1 & Heq)]; [by left |].
      destruct (Hc m key r1 Hr1) as [?|(r0 & ? & ?)]; [left | right; exists r0]; split_and?; congruence.
    + rewrite lookup_insert_ne in Hr by done. by apply Hc.
  - rewrite table_set_table_ne in Hr by done. by apply Hc.
Qed.

Lemma upsert_contributed m noun force verbosity who p slug version st0 st log st' log' o :
  contributed (user_id who) st0 st →
  upsert env m noun force verbosity who p slug version st log = (st', log', o) →
  contributed (user_id who) st0 st'.
Proof.
  intros Hc. unfold upsert.
  destruct version as [| | |version| |]; try (by intros [= <- _ _]).
  destruct (version_int env version) as [iv|e]; [| by intros [= <- _ _]].
  destruct slug as [| | |slug| |]; try (by intros [= <- _ _]).
  destruct (match version_max _ _ with Some v => iv <? v | None => false end).
  { intros [= <- _ _]. by apply (contributed_same _ _ st). }
  destruct (table m st !! (slug, iv)) as [r|] eqn:Hrow.
  - destruct force.
    + intros [= <- _ _]. apply contributed_insert; [| done]. right. eauto.
    + intros [= <- _ _]. destruct (0 <? verbosity); [| done].
      by apply (contributed_same _ _ st).
  - intros [= <- _ _]. eapply contributed_tables; [| apply contributed_insert; [| exact Hc]].
    + by intros [].
    + by left.
Qed.

Lemma register_process_contributed who force verbosity p st0 st log st' log' o :
  contributed (user_id who) st0 st →
  register_process env who force verbosity p st log = (st', log', o) →
  contributed (user_id who) st0 st'.
Proof.
  intros Hc. unfold register_process.
  destruct p as [| | | | |p]; try (by intros [= <- _ _]).
  destruct (prepare_process env p) as [[p' slug version|lines]|e].
  - by apply upsert_contributed.
  - intros [= <- _ _]. eapply contributed_same; [| done]. apply stored_write_errs.
  - by intros [= <- _ _].
Qed.

Lemma register_descriptor_contributed who force verbosity d st0 st log st' log' o :
  contributed (user_id who) st0 st →
  register_descriptor env who force verbosity d st log = (st', log', o) →
  contributed (user_id who) st0 st'.
Proof.
  intros Hc. unfold register_descriptor.
  destruct d as [| | | | |d]; try (by intros [= <- _ _]).
  destruct (prepare_descriptor env d) as [[d' slug version|lines]|e].
  - by apply upsert_contributed.
  - intros [= <- _ _]. eapply contributed_same; [| done]. apply stored_write_errs.
  - by intros [= <- _ _].
Qed.

Lemma for_each_contributed uid body items st0 :
  (∀ x st log st' log' o,
     contributed uid st0 st → body x st log = (st', log', o) → contributed uid st0 st') →
  ∀ st log st' log' o,
    contributed uid st0 st →
    for_each body items st log = (st', log', o) →
    contributed uid st0 st'.
Proof.
  intros Hbody. induction items as [|x items IH]; intros st log st' log' o Hc; simpl.
  - by intros [= <- _ _].
  - destruct (body x st log) as [[st1 log1] [|e]] eqn:Hx.
    + apply IH. by eapply Hbody.
    + intros [= <- _ _]. by eapply Hbody.
Qed.

Lemma register_processes_contributed schemas who force verbosity st0 st st' o :
  contributed (user_id who) st0 st →
  register_processes env schemas who force verbosity st = (st', o) →
  contributed (user_id who) st0 st'.
Proof.
  intros Hc. unfold register_processes.
  destruct (for_each _ _ _ _) as [[st1 log] [|e]] eqn:Hloop;
    eapply for_each_contributed in Hloop; try exact Hc;
    try (intros; by eapply register_process_contributed).
  - intros [= <- _]. destruct (0 <? verbosity); [| done].
    eapply contributed_same; [| done]. apply stored_write_logs.
  - by intros [= <- _].
Qed.

Lemma register_descriptors_contributed schemas who force verbosity st0 st st' o :
  contributed (user_id who) st0 st →
  register_descriptors env schemas who force verbosity st = (st', o) →
  contributed (user_id who) st0 st'.
Proof.
  intros Hc. unfold register_descriptors.
  destruct (for_each _ _ _ _) as [[st1 log] [|e]] eqn:Hloop;
    eapply for_each_contributed in Hloop; try exact Hc;
    try (intros; by eapply register_descriptor_contributed).
  - intros [= <- _]. destruct (0 <? verbosity); [| done].
    eapply contributed_same; [| done]. apply stored_write_logs.
  - by intros [= <- _].
Qed.

End Command.

(** C8: without a superuser the command writes an error and leaves
    with [SystemExit(1)], the store being as it was; with one, the
    superuser who joined first is the contributor of every row the
    command stores: a row of the state the command ends in (by
    returning or by an exception) is contributed by that user or is an
    earlier row with its earlier contributor. *)
Theorem superuser_decides_registration env schemas force paths verbosity st :
  ((∀ u, u ∈ users st → is_superuser u = false) →
   handle env schemas force paths verbosity st
     = (write_err "Admin does not exist: create a superuser" st, Raised (SystemExit 1))
   ∧ stored (write_err "Admin does not exist: create a superuser" st) = stored st)
  ∧ ((∃ u, u ∈ users st ∧ is_superuser u = true) →
     ∃ user_admin,
       user_admin ∈ users st
       ∧ is_superuser user_admin = true
       ∧ (∀ u, u ∈ users st → is_superuser u = true →
               date_joined user_admin ≤ date_joined u)
       ∧ ∀ st' o, handle env schemas force paths verbosity st = (st', o) →
                  contributed (user_id user_admin) st st').
Proof.
  split.
  - intros Hnone. split; [| done]. unfold handle.
    destruct (superusers st) as [|u t] eqn:Hsu; [done |].
    assert (u ∈ superusers st) as Hu by (rewrite Hsu; by left).
    apply elem_of_superusers in Hu as [Hu Hsuper]. apply Hnone in Hu. congruence.
  - intros (u & Hu & Hsuper). unfold handle.
    destruct (superusers st) as [|user_admin t] eqn:Hsu.
    { assert (u ∈ superusers st) as Hin by (by apply elem_of_superusers).
      rewrite Hsu in Hin. by apply elem_of_nil in Hin. }
    exists user_admin.
    assert (user_admin ∈ superusers st) as Hadmin by (rewrite Hsu; by left).
    apply elem_of_superusers in Hadmin as [Hadmin Hadmin_super].
    split; [done |]. split; [done |]. split.
    { intros v Hv Hv_super. unfold superusers in Hsu.
      apply (order_by_date_joined_head _ _ _ Hsu). by apply list_elem_of_filter. }
    intros st' o.
    destruct (collect_schemas env schemas ProcessModel _ _ st [])
      as [st1 [process_schemas|e]] eqn:H1;
      apply collect_schemas_stored in H1 as [H1 _];
      [| intros [= <- _]; by apply (contributed_same _ _ st), contributed_refl].
    assert (contributed (user_id user_admin) st st1) as Hc1
      by (by apply (contributed_same _ _ st), contributed_refl).
    destruct (register_processes env process_schemas user_admin force verbosity st1)
      as [st2 [|e]] eqn:H2;
      apply (register_processes_contributed env _ _ _ _ st) in H2; try done;
      [| by intros [= <- _]].
    destruct (collect_schemas env schemas DescriptorModel _ _ st2 [])
      as [st3 [descriptor_schemas|e]] eqn:H3;
      apply collect_schemas_stored in H3 as [H3 _];
      [| intros [= <- _]; by apply (contributed_same _ _ st2)].
    intros H4. apply (register_descriptors_contributed env _ _ _ _ st) in H4; [done |].
    by apply (contributed_same _ _ st2).
Qed.

(** A run without a superuser, and a run with two of them. *)
Lemma superuser_decides_registration_witness :
  (handle example_env None false [] 1 state_without_admin
     = (write_err "Admin does not exist: create a superuser" state_without_admin,
        Raised (SystemExit 1))
   ∧ stored (write_err "Admin does not exist: create a superuser" state_without_admin)
     = stored state_without_admin)
  ∧ ∃ user_admin,
      user_admin ∈ users example_state
      ∧ is_superuser user_admin = true
      ∧ (∀ u, u ∈ users example_state → is_superuser u = true →
              date_joined user_admin ≤ date_joined u)
      ∧ ∀ st' o, handle example_env None false [] 1 example_state = (st', o) →
                 contributed (user_id user_admin) example_state st'.
Proof.
  split.
  - refine (proj1 (superuser_decides_registration example_env None false [] 1
                     state_without_admin) _).
    intros u Hu. simpl in Hu.
    apply elem_of_cons in Hu as [->|Hu]; [reflexivity |].
    apply list_elem_of_singleton in Hu as ->. reflexivity.
  - refine (proj2 (superuser_decides_registration example_env None false [] 1
                     example_state) _).
    exists admin. split; [| reflexivity].
    simpl. right. right. left.
Defined.

(** In the example the command stores one process, contributed by the
    superuser who joined first, not by the one listed first. *)
Example earliest_superuser_contributes :
  superusers example_state = [admin; User 3 true 200]
  ∧ (handle example_env None false [] 1 example_state).2 = Done
  ∧ contributor <$>
      processes (handle example_env None false [] 1 example_state).1 !! ("upload", v1_0_0)
    = Some (user_id admin).
Proof. repeat split; vm_compute; reflexivity. Qed.

(** C9: a path that is not a directory makes [find_schemas] return
    [None] (after a line on the output when verbosity is positive), and
    a command that has a superuser and such a path among its paths ends
    with an exception and stores nothing; the exception is the
    [TypeError] of extending a list by [None] whenever the paths before
    it were read without an exception. *)
Theorem not_a_directory_aborts_command env schemas force verbosity st pre bad post :
  superusers st ≠ [] →
  walk env bad = None →
  (∀ schema_type st0,
     ∃ st1, find_schemas env bad schemas schema_type verbosity st0 = (st1, Ok None)
            ∧ stored st1 = stored st0)
  ∧ ∃ st' e,
      handle env schemas force (pre ++ bad :: post) verbosity st = (st', Raised e)
      ∧ stored st' = stored st
      ∧ (Forall (λ q, ∀ st0, ∃ st1 l,
                   find_schemas env q schemas ProcessModel verbosity st0
                     = (st1, Ok (Some l))) pre →
         e = TypeError).
Proof.
  intros Hsu Hbad. split.
  - intros schema_type st0. unfold find_schemas. rewrite Hbad.
    eexists. split; [reflexivity |]. by destruct (0 <? verbosity).
  - unfold handle. destruct (superusers st) as [|user_admin t]; [done |].
    destruct (collect_schemas_not_a_directory env schemas ProcessModel verbosity
                pre bad post st [] Hbad) as (st' & e & Hcollect & He).
    exists st', e.
    assert (match pre ++ bad :: post with
            | [] => concat (map fst (finders env))
            | _ => pre ++ bad :: post
            end = pre ++ bad :: post)%list as -> by (by destruct pre).
    rewrite Hcollect. split; [done |]. split; [| done].
    by apply collect_schemas_stored in Hcollect as [? _].
Qed.

(** A run over a directory, a missing path and another directory. *)
Lemma not_a_directory_aborts_command_witness :
  (∀ schema_type st0,
     ∃ st1, find_schemas example_env "missing" None schema_type 1 st0 = (st1, Ok None)
            ∧ stored st1 = stored st0)
  ∧ ∃ st' e,
      handle example_env None false (["clean"] ++ "missing" :: ["processes"]) 1
        example_state = (st', Raised e)
      ∧ stored st' = stored example_state
      ∧ (Forall (λ q, ∀ st0, ∃ st1 l,
                   find_schemas example_env q None ProcessModel 1 st0
                     = (st1, Ok (Some l))) ["clean"] →
         e = TypeError).
Proof.
  refine (not_a_directory_aborts_command example_env None false 1 example_state
            ["clean"] "missing" ["processes"] _ _).
  - vm_compute. discriminate.
  - vm_compute. reflexivity.
Defined.

(** The run of the example: the directory before the missing path is
    read, then the command ends with [TypeError]. *)
Example missing_path_raises_type_error :
  handle example_env None false ["clean"; "missing"; "processes"] 1 example_state
  = (write_out "Invalid path missing" example_state, Raised TypeError).
Proof. vm_compute. reflexivity. Qed.

(** ** Normalisation *)

(** Induction on values, with the items of lists and dictionaries. *)
Lemma value_ind' (P : value → Prop) :
  P VNone → (∀ b, P (VBool b)) → (∀ z, P (VInt z)) → (∀ s, P (VStr s)) →
  (∀ l, Forall P l → P (VList l)) →
  (∀ d, Forall (λ kv, P kv.2) d → P (VDict d)) →
  ∀ v, P v.
Proof.
  intros HNone HBool HInt HStr HList HDict.
  refine (fix go (v : value) : P v :=
            match v with
            | VNone => HNone
            | VBool b => HBool b
            | VInt z => HInt z
            | VStr s => HStr s
            | VList l =>
                HList l ((fix items (l : list value) : Forall P l :=
                            match l with
                            | [] => @List.Forall_nil _ P
                            | x :: r => @List.Forall_cons _ P x r (go x) (items r)
                            end) l)
            | VDict d =>
                HDict d ((fix entries (d : list (string * value))
                            : Forall (λ kv, P kv.2) d :=
                            match d with
                            | [] => @List.Forall_nil _ _
                            | kv :: r => @List.Forall_cons _ (λ kv, P kv.2) kv r (go kv.2) (entries r)
                            end) d)
            end).
Qed.

(** Induction on schemas: a list of fields is reached from the values
    that its field dictionaries hold. *)
Lemma schema_ind (S : value → Prop) :
  (∀ l, (∀ d k v, VDict d ∈ l → (k, v) ∈ d → S v) → S (VList l)) →
  (∀ v, (∀ l, v ≠ VList l) → S v) →
  ∀ v, S v.
Proof.
  intros HList Hother v.
  cut (S v ∧ ∀ d, v = VDict d → ∀ k x, (k, x) ∈ d → S x); [by intros [? _] |].
  induction v as [| b | z | s | l IH | d IH] using value_ind';
    try (split; [by apply Hother | done]).
  - split; [| done]. apply HList. intros d k x Hd Hx.
    rewrite Forall_forall in IH. destruct (IH _ Hd) as [_ Hentries].
    by apply (Hentries d eq_refl k x).
  - split; [by apply Hother |]. intros d' [= <-] k x Hx.
    rewrite Forall_forall in IH. by destruct (IH _ Hx) as [? _].
Qed.

Lemma dget_elem_of k v d : dget k d = Some v → (k, v) ∈ d.
Proof.
  induction d as [|[k' v'] d IH]; simpl; [done |].
  destruct (String.eqb k k') eqn:E.
  - apply String.eqb_eq in E as <-. intros [= ->]. by left.
  - intros H. right. by apply IH.
Qed.

Lemma dhas_dset_eq k v d : dhas k (dset k v d) = true.
Proof. by rewrite dhas_dget, dget_dset_eq. Qed.

Lemma dhas_dset_ne k k' v d : k ≠ k' → dhas k (dset k' v d) = dhas k d.
Proof. intros. by rewrite !dhas_dget, dget_dset_ne. Qed.

Lemma dhas_ddel_ne k k' d : k ≠ k' → dhas k (ddel k' d) = dhas k d.
Proof. intros. by rewrite !dhas_dget, dget_ddel_ne. Qed.

(** *** Terminating a type *)

Lemma last_char_append_colon s : last_char (s ++ ":") = Some colon.
Proof.
  induction s as [|c s IH]; [done |].
  simpl. destruct (s ++ ":") eqn:E; [by destruct s | by rewrite <- IH].
Qed.

Lemma ends_with_colon_append s : ends_with_colon (s ++ ":") = true.
Proof. unfold ends_with_colon. by rewrite last_char_append_colon. Qed.

(** The outcome of [terminate_type] ends with the separator and is
    left as it is by a second run. *)
Lemma terminate_type_settled strict t t' :
  terminate_type strict t = Ok t' →
  terminate_type strict t' = Ok t' ∧ ends_in_separator t' = true.
Proof.
  destruct t as [| | |s|l|]; simpl; try done.
  - destruct (last_char s) as [c|] eqn:Hs; [| done].
    destruct (Ascii.eqb c colon) eqn:Hc; intros [= <-]; simpl.
    + unfold ends_with_colon. by rewrite Hs, Hc.
    + by rewrite last_char_append_colon, ends_with_colon_append.
  - destruct (last l) as [e|] eqn:Hl; [| done].
    assert (terminate_type strict (VList (l ++ [VStr ":"])) = Ok (VList (l ++ [VStr ":"]))
            ∧ ends_in_separator (VList (l ++ [VStr ":"])) = true)%list as Happended.
    { simpl. rewrite last_snoc. by destruct strict. }
    destruct e as [| | |e| |]; try (destruct strict; [done | by intros [= <-]]).
    destruct strict.
    + destruct (ends_with_colon e) eqn:He; intros [= <-]; [| done].
      simpl. by rewrite Hl, He.
    + destruct (String.eqb e ":") eqn:He; intros [= <-]; [| done].
      apply String.eqb_eq in He as ->. simpl. by rewrite Hl.
Qed.

(** On a string, [terminate_type] appends the separator when it is
    missing. *)
Lemma terminate_type_string strict s t' :
  terminate_type strict (VStr s) = Ok t' →
  t' = VStr (if ends_with_colon s then s else s ++ ":").
Proof.
  simpl. unfold ends_with_colon. destruct (last_char s) as [c|]; [| done].
  by destruct (Ascii.eqb c colon); intros [= <-].
Qed.

Lemma terminate_field_type_settled d d' :
  terminate_field_type d = Ok d' →
  terminate_field_type d' = Ok d'
  ∧ (∃ t, dget "type" d' = Some t ∧ ends_in_separator t = true)
  ∧ ∀ k, k ≠ "type" → dget k d' = dget k d.
Proof.
  unfold terminate_field_type, dindex.
  destruct (dget "type" d) as [t|] eqn:Ht; [| done]. simpl.
  destruct (terminate_type true t) as [t'|] eqn:Ht'; [| done]. simpl.
  intros [= <-]. apply terminate_type_settled in Ht' as [Hfix Hend].
  rewrite dget_dset_eq. simpl. rewrite Hfix. simpl. rewrite dset_dset.
  split; [done |]. split; [eauto |]. intros k Hk. by apply dget_dset_ne.
Qed.

(** *** Walking and updating a schema *)

Lemma group_leaves_dget W d :
  group_leaves W d = match dget "group" d with Some v => W v | None => Ok [] end.
Proof.
  induction d as [|[k v] d IH]; simpl; [done |].
  by destruct (String.eqb "group" k).
Qed.

Lemma group_update_dget U d :
  group_update U d =
  match dget "group" d with
  | Some v => v' <- U v ;; Ok (dset "group" v' d)
  | None => Ok d
  end.
Proof.
  induction d as [|[k v] d IH]; simpl; [done |].
  destruct (String.eqb "group" k); [done |]. rewrite IH.
  destruct (dget "group" d) as [v0|]; [| done]. simpl. by destruct (U v0).
Qed.

Lemma iterate_other_Ok {A} v (x y : A) :
  iterate_other v x = Ok y → y = x ∧ ∀ B (z : B), iterate_other v z = Ok z.
Proof.
  unfold iterate_other. destruct (py_iter v) as [[|i items]|e]; simpl; try done.
  by intros [= <-].
Qed.

Lemma update_fields_list body l :
  update_fields body (VList l)
  = (l' <- fields_update body (update_fields body) l ;; Ok (VList l')).
Proof. done. Qed.

Lemma iterate_schema_list l :
  iterate_schema (VList l) = fields_leaves iterate_schema l.
Proof. done. Qed.

Lemma update_fields_other body v :
  (∀ l, v ≠ VList l) → update_fields body v = iterate_other v v.
Proof. intros Hv. destruct v; try done. by destruct (Hv l). Qed.

Lemma iterate_schema_other v :
  (∀ l, v ≠ VList l) → iterate_schema v = iterate_other v [].
Proof. intros Hv. destruct v; try done. by destruct (Hv l). Qed.

Section Settled.

Variable body : dict → result dict.

(** The body of the loop keeps the name of a field and does not make
    or unmake a group, and a second run of it changes nothing more. *)
Hypothesis body_name : ∀ d d', body d = Ok d' → dget "name" d' = dget "name" d.
Hypothesis body_group : ∀ d d', body d = Ok d' → dhas "group" d' = dhas "group" d.
Hypothesis body_settled : ∀ d d', body d = Ok d' → body d' = Ok d'.

Lemma field_update_settled x x' :
  (∀ d k v, x = VDict d → (k, v) ∈ d → settles body v) →
  field_update body (update_fields body) x = Ok x' →
  field_update body (update_fields body) x' = Ok x'
  ∧ ∃ ls ls',
      field_leaves iterate_schema x = Ok ls
      ∧ field_leaves iterate_schema x' = Ok ls'
      ∧ Forall2 (λ d d', body d = Ok d') ls ls'.
Proof.
  intros IH. destruct x as [| | | | |d]; try done. simpl.
  unfold dindex. destruct (dget "name" d) as [name|] eqn:Hname; [| done]. simpl.
  destruct (dhas "group" d) eqn:Hgroup.
  - destruct (hashable name) eqn:Hhash; [| done].
    rewrite group_update_dget, group_leaves_dget.
    rewrite dhas_dget in Hgroup. destruct (dget "group" d) as [v|] eqn:Hv; [| done].
    simpl. destruct (update_fields body v) as [v'|] eqn:Hupd; [| done]. simpl.
    intros [= <-].
    destruct (IH d "group" v eq_refl (dget_elem_of _ _ _ Hv) v' Hupd)
      as (Hfix & ls & ls' & Hls & Hls' & Hall).
    simpl. unfold dindex. rewrite dget_dset_ne, Hname by done. simpl.
    rewrite dhas_dset_eq, Hhash, group_update_dget, group_leaves_dget, dget_dset_eq.
    simpl. rewrite Hfix. simpl. rewrite dset_dset. split; [done |].
    exists ls, ls'. by rewrite Hls, Hls'.
  - destruct (body d) as [d'|] eqn:Hbody; [| done]. simpl. intros [= <-].
    simpl. unfold dindex.
    rewrite (body_name _ _ Hbody), Hname, (body_group _ _ Hbody), Hgroup. simpl.
    rewrite (body_settled _ _ Hbody). simpl. split; [done |].
    exists [d], [d']. split_and!; [done | done |]. by constructor.
Qed.

Lemma fields_update_settled l l' :
  (∀ d k v, VDict d ∈ l → (k, v) ∈ d → settles body v) →
  fields_update body (update_fields body) l = Ok l' →
  fields_update body (update_fields body) l' = Ok l'
  ∧ ∃ ls ls',
      fields_leaves iterate_schema l = Ok ls
      ∧ fields_leaves iterate_schema l' = Ok ls'
      ∧ Forall2 (λ d d', body d = Ok d') ls ls'.
Proof.
  revert l'. induction l as [|x l IHl]; intros l' IH; simpl.
  - intros [= <-]. split; [done |]. exists [], []. by split_and!.
  - destruct (field_update body (update_fields body) x) as [x'|] eqn:Hx; [| done].
    simpl. destruct (fields_update body (update_fields body) l) as [r'|] eqn:Hr; [| done].
    simpl. intros [= <-].
    apply field_update_settled in Hx as (Hx' & ls1 & ls1' & H1 & H1' & Hall1).
    2: { intros d k v -> Hkv. apply (IH d k v); [by left | done]. }
    destruct (IHl r') as (Hr' & ls2 & ls2' & H2 & H2' & Hall2); [| done |].
    { intros d k v Hd Hkv. apply (IH d k v); [by right | done]. }
    simpl. rewrite Hx', Hr'. simpl. split; [done |].
    exists (ls1 ++ ls2)%list, (ls1' ++ ls2')%list.
    rewrite H1, H1', H2, H2'. simpl. split_and!; [done | done |].
    by apply Forall2_app.
Qed.

(** A second run of the loop over a schema changes nothing more, and
    the fields of the updated schema are the updated fields. *)
Lemma update_fields_settled v v' :
  update_fields body v = Ok v' →
  update_fields body v' = Ok v' ∧ leafwise body v v'.
Proof.
  revert v'. change (settles body v). induction v as [l IH | v Hv] using schema_ind;
    intros v'.
  - rewrite update_fields_list.
    destruct (fields_update body (update_fields body) l) as [l'|] eqn:Hl; [| done].
    simpl. intros [= <-].
    apply fields_update_settled in Hl as (Hl' & ls & ls' & H1 & H2 & Hall); [| done].
    rewrite update_fields_list, Hl'. split; [done |].
    exists ls, ls'. by rewrite !iterate_schema_list.
  - rewrite update_fields_other by done. intros [-> Hany]%iterate_other_Ok.
    rewrite update_fields_other by done. split; [apply Hany |].
    exists [], []. rewrite iterate_schema_other by done. by split_and!.
Qed.

End Settled.

(** *** The steps of the normalisation *)

Lemma terminate_top_type_spec p p' :
  terminate_top_type p = Ok p' →
  type_settled p' ∧ ∀ k, k ≠ "type" → dget k p' = dget k p.
Proof.
  unfold terminate_top_type, dindex.
  destruct (dget "type" p) as [t|]; [| done]. simpl.
  destruct (terminate_type false t) as [t'|] eqn:Ht; [| done]. simpl.
  intros [= <-]. apply terminate_type_settled in Ht as [Hfix _]. split.
  - exists t'. by rewrite dget_dset_eq.
  - intros k Hk. by apply dget_dset_ne.
Qed.

Lemma terminate_category_spec p p' :
  terminate_category p = Ok p' →
  category_settled p' ∧ ∀ k, k ≠ "category" → dget k p' = dget k p.
Proof.
  unfold terminate_category, category_settled.
  destruct (dget "category" p) as [[| | |s| |]|] eqn:Hc; try done.
  - destruct (ends_with_colon s) eqn:Hs; intros [= <-].
    + by rewrite Hc.
    + rewrite dget_dset_eq, ends_with_colon_append. split; [done |].
      intros k Hk. by apply dget_dset_ne.
  - intros [= <-]. by rewrite Hc.
Qed.

Lemma foldl_take_data_name fields p :
  foldl take_data_name p fields = with_data_name (data_name_of fields) p.
Proof.
  unfold data_name_of.
  change p with (with_data_name None p) at 1. generalize (@None value).
  induction fields as [|d fields IH]; intros found; simpl; [done |].
  rewrite <- IH. f_equal. unfold take_data_name.
  destruct (dget "name" d) as [[| | |n| |]|]; try done.
  destruct (dget "default" d) as [dflt|]; [| done].
  destruct (String.eqb n "name"); [| done].
  destruct found; simpl; [apply dset_dset | done].
Qed.

Lemma data_name_from_static_spec p p' :
  data_name_from_static p = Ok p' →
  data_name_settled p' ∧ ∀ k, k ≠ "data_name" → dget k p' = dget k p.
Proof.
  unfold data_name_from_static, data_name_settled.
  destruct (dget "static" p) as [static|] eqn:Hs.
  - destruct (iterate_schema static) as [fields|] eqn:Hf; [| done]. simpl.
    intros [= <-]. rewrite foldl_take_data_name.
    assert (∀ k, k ≠ "data_name" →
                 dget k (with_data_name (data_name_of fields) p) = dget k p) as Hframe.
    { intros k Hk. destruct (data_name_of fields); [by apply dget_dset_ne | done]. }
    split; [| done]. rewrite Hframe, Hs by done. exists fields. split; [done |].
    intros x ->. apply dget_dset_eq.
  - intros [= <-]. by rewrite Hs.
Qed.

Lemma legacy_slug_spec slugify p p' :
  legacy_slug slugify p = Ok p' →
  dhas "slug" p' = true
  ∧ (∀ k, k ∉ ["name"; "label"; "slug"; "var"; "static"] → dget k p' = dget k p)
  ∧ (p' = p ∨ dget "static" p' = None ∧ dget "var" p' = None).
Proof.
  unfold legacy_slug. destruct (dhas "slug" p) eqn:Hslug.
  - intros [= <-]. split; [done |]. split; [done | by left].
  - unfold legacy_names, dindex.
    destruct (dget "name" p) as [[| | |n| |]|]; try done. simpl.
    destruct (dget "label" _) as [label|]; [| done]. simpl. intros [= <-].
    split; [| split; [| right]].
    + rewrite !dhas_ddel_ne, dhas_dset_ne, dhas_ddel_ne by done. apply dhas_dset_eq.
    + intros k Hk.
      assert (k ≠ "name" ∧ k ≠ "label" ∧ k ≠ "slug" ∧ k ≠ "var" ∧ k ≠ "static")
        as (? & ? & ? & ? & ?).
      { split_and!; intros ->; apply Hk; repeat constructor. }
      by rewrite !dget_ddel_ne, dget_dset_ne, dget_ddel_ne, dget_dset_ne, dget_ddel_ne.
    + split; [apply dget_ddel_eq |]. rewrite dget_ddel_ne by done. apply dget_ddel_eq.
Qed.

Lemma terminate_field_type_name d d' :
  terminate_field_type d = Ok d' → dget "name" d' = dget "name" d.
Proof. intros H. by apply terminate_field_type_settled in H as (_ & _ & ->). Qed.

Lemma terminate_field_type_group d d' :
  terminate_field_type d = Ok d' → dhas "group" d' = dhas "group" d.
Proof.
  intros H. apply terminate_field_type_settled in H as (_ & _ & Hframe).
  by rewrite !dhas_dget, Hframe.
Qed.

Lemma terminate_field_type_twice d d' :
  terminate_field_type d = Ok d' → terminate_field_type d' = Ok d'.
Proof. intros H. by apply terminate_field_type_settled in H as (? & _). Qed.

(** The type loop over a schema: a second run changes nothing more,
    and the fields of the outcome are those of the schema with their
    types terminated. *)
Lemma terminate_fields_settled sec sec' :
  update_fields terminate_field_type sec = Ok sec' →
  update_fields terminate_field_type sec' = Ok sec'
  ∧ leafwise terminate_field_type sec sec'.
Proof.
  apply update_fields_settled.
  - apply terminate_field_type_name.
  - apply terminate_field_type_group.
  - apply terminate_field_type_twice.
Qed.

Lemma terminate_section_spec field p p' :
  terminate_section field p = Ok p' →
  section_settled field p'
  ∧ (∀ k, k ≠ field → dget k p' = dget k p)
  ∧ match dget field p with
    | None => dget field p' = None
    | Some sec => ∃ sec', dget field p' = Some sec'
                          ∧ leafwise terminate_field_type sec sec'
    end.
Proof.
  unfold terminate_section, section_settled.
  destruct (dget field p) as [sec|] eqn:Hsec.
  - destruct (update_fields terminate_field_type sec) as [sec'|] eqn:Hupd; [| done].
    simpl. intros [= <-]. apply terminate_fields_settled in Hupd as [Hfix Hleaf].
    rewrite dget_dset_eq. split; [done |]. split; [| eauto].
    intros k Hk. by apply dget_dset_ne.
  - intros [= <-]. by rewrite Hsec.
Qed.

(** The default that [data_name] takes does not depend on the types. *)
Lemma data_name_of_terminated ls ls' :
  Forall2 (λ d d', terminate_field_type d = Ok d') ls ls' →
  data_name_of ls' = data_name_of ls.
Proof.
  unfold data_name_of. generalize (@None value).
  intros found Hall. revert found.
  induction Hall as [|d d' ls ls' Hd _ IH]; intros found; simpl; [done |].
  apply terminate_field_type_settled in Hd as (_ & _ & Hframe).
  rewrite !Hframe by done. apply IH.
Qed.

(** The fields of a schema that a run of the type loop leaves as it
    is have terminated types. *)
Lemma settled_fields_terminated sec :
  update_fields terminate_field_type sec = Ok sec →
  ∃ fields, iterate_schema sec = Ok fields
            ∧ ∀ d, d ∈ fields → ∃ t, dget "type" d = Some t ∧ ends_in_separator t = true.
Proof.
  intros Hfix. apply terminate_fields_settled in Hfix as (_ & ls & ls' & H1 & H2 & Hall).
  rewrite H1 in H2. injection H2 as <-. exists ls. split; [done |].
  intros d Hd. apply list_elem_of_lookup in Hd as [i Hi].
  destruct (Forall2_lookup_l _ _ _ _ _ Hall Hi) as (d' & Hi' & Hd').
  assert (d' = d) as -> by congruence.
  by apply terminate_field_type_settled in Hd' as (_ & ? & _).
Qed.

(** *** The normalisation as a whole *)

(** The outcome of the normalisation is normal. *)
Lemma normalize_normalized slugify p p' :
  normalize slugify p = Ok p' → normalized p'.
Proof.
  unfold normalize.
  destruct (terminate_top_type p) as [p1|] eqn:H1; [| done]. simpl.
  destruct (terminate_category p1) as [p2|] eqn:H2; [| done]. simpl.
  destruct (data_name_from_static p2) as [p3|] eqn:H3; [| done]. simpl.
  destruct (legacy_slug slugify p3) as [p4|] eqn:H4; [| done]. simpl.
  destruct (terminate_section "input" p4) as [p5|] eqn:H5; [| done]. simpl.
  destruct (terminate_section "output" p5) as [p6|] eqn:H6; [| done]. simpl.
  destruct (terminate_section "var" p6) as [p7|] eqn:H7; [| done]. simpl.
  intros H8.
  apply terminate_top_type_spec in H1 as [T1 F1].
  apply terminate_category_spec in H2 as [C2 F2].
  apply data_name_from_static_spec in H3 as [D3 F3].
  apply legacy_slug_spec in H4 as (L4 & F4 & A4).
  apply terminate_section_spec in H5 as (S5 & F5 & _).
  apply terminate_section_spec in H6 as (S6 & F6 & _).
  apply terminate_section_spec in H7 as (S7 & F7 & _).
  apply terminate_section_spec in H8 as (S8 & F8 & R8).
  assert (∀ k, k ≠ "input" → k ≠ "output" → k ≠ "var" → k ≠ "static" →
               k ≠ "name" → k ≠ "label" → k ≠ "slug" →
               dget k p' = dget k p3) as Flate.
  { intros k ? ? ? ? ? ? ?. rewrite F8, F7, F6, F5 by done. apply F4.
    intros Hin. repeat (apply elem_of_cons in Hin as [?|Hin]); try done.
    by apply elem_of_nil in Hin. }
  split_and!.
  - destruct T1 as (t & Ht & Hfix). exists t. split; [| done].
    rewrite Flate, F3, F2 by done. done.
  - unfold category_settled in *. by rewrite Flate, F3 by done.
  - unfold data_name_settled in *.
    assert (dget "static" p7 = dget "static" p4) as Hstatic
      by (by rewrite F7, F6, F5).
    rewrite Hstatic in R8.
    destruct A4 as [->|[A4 _]].
    + destruct (dget "static" p3) as [static|]; [| by rewrite R8].
      destruct D3 as (fields & Hfields & Hdn).
      destruct R8 as (sec' & -> & ls & ls' & Hls & Hls' & Hall).
      exists ls'. split; [done |]. intros x Hx.
      rewrite (data_name_of_terminated _ _ Hall) in Hx.
      rewrite Flate by done. apply Hdn. congruence.
    + rewrite A4 in R8. by rewrite R8.
  - rewrite dhas_dget in *. by rewrite F8, F7, F6, F5.
  - intros field Hfield. unfold schema_sections in Hfield. unfold section_settled in *.
    repeat (apply elem_of_cons in Hfield as [->|Hfield]);
      [| | | | by apply elem_of_nil in Hfield].
    + by rewrite F8, F7, F6.
    + by rewrite F8, F7.
    + by rewrite F8.
    + done.
Qed.

(** The normalisation leaves a normal definition as it is. *)
Lemma normalized_fixed slugify p :
  normalized p → normalize slugify p = Ok p.
Proof.
  intros ((t & Ht & Hfix) & HC & HD & HL & HS).
  assert (∀ field, field ∈ schema_sections → terminate_section field p = Ok p) as Hsec.
  { intros field Hfield. specialize (HS field Hfield).
    unfold terminate_section, section_settled in *.
    destruct (dget field p) as [sec|] eqn:Hf; [| done].
    rewrite HS. simpl. by rewrite dset_same. }
  unfold normalize.
  assert (terminate_top_type p = Ok p) as ->.
  { unfold terminate_top_type, dindex. rewrite Ht. simpl. rewrite Hfix. simpl.
    by rewrite dset_same. }
  simpl.
  assert (terminate_category p = Ok p) as ->.
  { unfold terminate_category, category_settled in *.
    destruct (dget "category" p) as [[| | |s| |]|]; try done. by rewrite HC. }
  simpl.
  assert (data_name_from_static p = Ok p) as ->.
  { unfold data_name_from_static, data_name_settled in *.
    destruct (dget "static" p) as [static|]; [| done].
    destruct HD as (fields & -> & Hdn). simpl. rewrite foldl_take_data_name.
    destruct (data_name_of fields) as [x|]; [| done].
    simpl. by rewrite dset_same by auto. }
  simpl.
  assert (legacy_slug slugify p = Ok p) as -> by (unfold legacy_slug; by rewrite HL).
  simpl.
  assert ("input" ∈ schema_sections ∧ "output" ∈ schema_sections
          ∧ "var" ∈ schema_sections ∧ "static" ∈ schema_sections) as (? & ? & ? & ?).
  { unfold schema_sections. split_and!; repeat (first [by left | right]). }
  rewrite (Hsec "input") by done. simpl.
  rewrite (Hsec "output") by done. simpl.
  rewrite (Hsec "var") by done. simpl.
  by apply Hsec.
Qed.

Lemma terminate_top_type_string p p' s :
  terminate_top_type p = Ok p' →
  dget "type" p = Some (VStr s) →
  dget "type" p' = Some (VStr (if ends_with_colon s then s else s ++ ":")).
Proof.
  unfold terminate_top_type, dindex. intros H Hs. rewrite Hs in H. cbn [bind] in H.
  destruct (terminate_type false (VStr s)) as [t'|] eqn:Ht; [| done].
  apply terminate_type_string in Ht as ->. injection H as <-. apply dget_dset_eq.
Qed.

(** On a string type, the loop body appends the separator when it is
    missing. *)
Lemma terminate_field_type_string d d' s :
  terminate_field_type d = Ok d' →
  dget "type" d = Some (VStr s) →
  dget "type" d' = Some (VStr (if ends_with_colon s then s else s ++ ":")).
Proof.
  unfold terminate_field_type, dindex. intros H Hs. rewrite Hs in H. cbn [bind] in H.
  destruct (terminate_type true (VStr s)) as [t'|] eqn:Ht; [| done].
  apply terminate_type_string in Ht as ->. injection H as <-. apply dget_dset_eq.
Qed.

(** What the normalisation does to the top-level type and to the
    sections of the definition it is given. *)
Lemma normalize_types slugify p p' :
  normalize slugify p = Ok p' →
  (∀ s, dget "type" p = Some (VStr s) →
        dget "type" p' = Some (VStr (if ends_with_colon s then s else s ++ ":")))
  ∧ ∀ field, field ∈ schema_sections →
      match dget field p with
      | None => dget field p' = None
      | Some sec =>
          dget field p' = None
          ∨ ∃ sec', dget field p' = Some sec' ∧ leafwise terminate_field_type sec sec'
      end.
Proof.
  unfold normalize.
  destruct (terminate_top_type p) as [p1|] eqn:H1; [| done]. simpl.
  destruct (terminate_category p1) as [p2|] eqn:H2; [| done]. simpl.
  destruct (data_name_from_static p2) as [p3|] eqn:H3; [| done]. simpl.
  destruct (legacy_slug slugify p3) as [p4|] eqn:H4; [| done]. simpl.
  destruct (terminate_section "input" p4) as [p5|] eqn:H5; [| done]. simpl.
  destruct (terminate_section "output" p5) as [p6|] eqn:H6; [| done]. simpl.
  destruct (terminate_section "var" p6) as [p7|] eqn:H7; [| done]. simpl.
  intros H8.
  pose proof (λ s, terminate_top_type_string _ _ s H1) as Htype.
  apply terminate_top_type_spec in H1 as [_ F1].
  apply terminate_category_spec in H2 as [_ F2].
  apply data_name_from_static_spec in H3 as [_ F3].
  apply legacy_slug_spec in H4 as (_ & F4 & A4).
  apply terminate_section_spec in H5 as (_ & F5 & R5).
  apply terminate_section_spec in H6 as (_ & F6 & R6).
  apply terminate_section_spec in H7 as (_ & F7 & R7).
  apply terminate_section_spec in H8 as (_ & F8 & R8).
  assert (∀ k, k ∉ ["name"; "label"; "slug"; "var"; "static"] ↔
               k ≠ "name" ∧ k ≠ "label" ∧ k ≠ "slug" ∧ k ≠ "var" ∧ k ≠ "static")
    as Hlegacy.
  { intros k. split.
    - intros Hk. split_and!; intros ->; apply Hk; repeat (first [by left | right]).
    - intros (? & ? & ? & ? & ?) Hin.
      repeat (apply elem_of_cons in Hin as [?|Hin]); try done.
      by apply elem_of_nil in Hin. }
  split.
  - intros s Hs. rewrite F8, F7, F6, F5, F4, F3, F2 by (done || by apply Hlegacy).
    by apply Htype.
  - assert (∀ k, k ≠ "type" → k ≠ "category" → k ≠ "data_name" →
                 dget k p3 = dget k p) as Fearly.
    { intros k ? ? ?. by rewrite F3, F2, F1. }
    intros field Hfield. unfold schema_sections in Hfield.
    repeat (apply elem_of_cons in Hfield as [->|Hfield]);
      [| | | | by apply elem_of_nil in Hfield].
    + rewrite <- Fearly, <- F4 by (done || by apply Hlegacy).
      rewrite F8, F7, F6 by done.
      destruct (dget "input" p4); [by right | done].
    + rewrite <- Fearly, <- F4, <- F5 by (done || by apply Hlegacy).
      rewrite F8, F7 by done.
      destruct (dget "output" p5); [by right | done].
    + rewrite <- Fearly by done. rewrite F8 by done.
      rewrite F6, F5 in R7 by done.
      destruct A4 as [->|[_ A4]].
      * destruct (dget "var" p3); [by right | done].
      * rewrite A4 in R7. destruct (dget "var" p3); [by left | done].
    + rewrite <- Fearly by done.
      rewrite F7, F6, F5 in R8 by done.
      destruct A4 as [->|[A4 _]].
      * destruct (dget "static" p3); [by right | done].
      * rewrite A4 in R8. destruct (dget "static" p3); [by left | done].
Qed.

(** Lines 116-121 by cases: a definition with a slug is left as it
    is, one without has lost [var] and [static]. *)
Lemma legacy_slug_cases slugify p p' :
  legacy_slug slugify p = Ok p' →
  if dhas "slug" p then p' = p
  else dget "static" p' = None ∧ dget "var" p' = None.
Proof.
  unfold legacy_slug. destruct (dhas "slug" p); [by intros [= <-] |].
  destruct (legacy_names slugify p) as [q|]; [| done]. cbn [bind]. intros [= <-].
  split; [apply dget_ddel_eq |].
  rewrite dget_ddel_ne by done. apply dget_ddel_eq.
Qed.

(** The body of the type loop, said without the loop: only the type
    of the field changes, and it is terminated. *)
Lemma terminate_field_type_terminated d d' :
  terminate_field_type d = Ok d' → type_terminated d d'.
Proof.
  intros H. pose proof (terminate_field_type_settled _ _ H) as (_ & Hend & Hframe).
  split_and!; [done | done |]. intros s Hs. by eapply terminate_field_type_string.
Qed.

Lemma leafwise_types_terminated sec sec' :
  leafwise terminate_field_type sec sec' → types_terminated sec sec'.
Proof.
  intros (ls & ls' & Hls & Hls' & Hall). exists ls, ls'. split_and!; [done | done |].
  eapply Forall2_impl; [done |]. intros d d'. apply terminate_field_type_terminated.
Qed.

(** What the normalisation does to each section: a section that is
    not given is not made up, a section that the loop of lines 123-126
    finds is kept with the types of its fields terminated, and [var]
    and [static] of a definition without a slug are dropped. *)
Lemma normalize_sections slugify p p' :
  normalize slugify p = Ok p' →
  ∀ field, field ∈ schema_sections →
    match dget field p with
    | None => dget field p' = None
    | Some sec =>
        if section_kept field p
        then ∃ sec', dget field p' = Some sec' ∧ leafwise terminate_field_type sec sec'
        else dget field p' = None
    end.
Proof.
  unfold normalize.
  destruct (terminate_top_type p) as [p1|] eqn:H1; [| done]. simpl.
  destruct (terminate_category p1) as [p2|] eqn:H2; [| done]. simpl.
  destruct (data_name_from_static p2) as [p3|] eqn:H3; [| done]. simpl.
  destruct (legacy_slug slugify p3) as [p4|] eqn:H4; [| done]. simpl.
  destruct (terminate_section "input" p4) as [p5|] eqn:H5; [| done]. simpl.
  destruct (terminate_section "output" p5) as [p6|] eqn:H6; [| done]. simpl.
  destruct (terminate_section "var" p6) as [p7|] eqn:H7; [| done]. simpl.
  intros H8.
  apply terminate_top_type_spec in H1 as [_ F1].
  apply terminate_category_spec in H2 as [_ F2].
  apply data_name_from_static_spec in H3 as [_ F3].
  pose proof (legacy_slug_cases _ _ _ H4) as C4.
  apply legacy_slug_spec in H4 as (_ & F4 & _).
  apply terminate_section_spec in H5 as (_ & F5 & R5).
  apply terminate_section_spec in H6 as (_ & F6 & R6).
  apply terminate_section_spec in H7 as (_ & F7 & R7).
  apply terminate_section_spec in H8 as (_ & F8 & R8).
  assert (∀ k, k ≠ "type" → k ≠ "category" → k ≠ "data_name" →
               dget k p3 = dget k p) as Fearly.
  { intros k ? ? ?. by rewrite F3, F2, F1. }
  assert (dhas "slug" p3 = dhas "slug" p) as Hslug.
  { by rewrite !dhas_dget, Fearly. }
  rewrite Hslug in C4.
  assert (∀ k, k ≠ "name" → k ≠ "label" → k ≠ "slug" → k ≠ "var" → k ≠ "static" →
               dget k p4 = dget k p3) as F4'.
  { intros k ? ? ? ? ?. apply F4. intros Hin.
    repeat (apply elem_of_cons in Hin as [?|Hin]; [done |]). by apply elem_of_nil in Hin. }
  intros field Hfield. unfold schema_sections in Hfield. unfold section_kept.
  repeat (apply elem_of_cons in Hfield as [->|Hfield]);
    [| | | | by apply elem_of_nil in Hfield].
  - rewrite <- Fearly, <- F4' by done. rewrite F8, F7, F6 by done.
    rewrite orb_true_r. cbn [orb]. destruct (dget "input" p4); done.
  - rewrite <- Fearly, <- F4', <- F5 by done. rewrite F8, F7 by done.
    rewrite orb_true_r. destruct (dget "output" p5); done.
  - rewrite <- Fearly by done. rewrite F8 by done.
    rewrite F6, F5 in R7 by done. rewrite !orb_false_r.
    destruct (dhas "slug" p).
    + subst p4. destruct (dget "var" p3); done.
    + destruct C4 as [_ C4]. rewrite C4 in R7. by destruct (dget "var" p3).
  - rewrite <- Fearly by done.
    rewrite F7, F6, F5 in R8 by done. rewrite !orb_false_r.
    destruct (dhas "slug" p).
    + subst p4. destruct (dget "static" p3); done.
    + destruct C4 as [C4 _]. rewrite C4 in R8. by destruct (dget "static" p3).
Qed.

(** C5: when the normalisation of a definition returns, the top-level
    type of the outcome ends with [':'], and a string type is the given
    one, with [':'] appended when it was missing.  Every section among
    input, output, var and static that the definition has is in the
    outcome, except [var] and [static] of a definition without a slug,
    which lines 120-121 drop; a section that the definition does not
    have is not in the outcome.  The fields that [iterate_schema]
    yields in a section of the outcome are the fields it yields in the
    given section, one by one: each has the keys and values of the
    given field but for its type, which ends with [':'], and whose
    string is the given string with [':'] appended when it did not end
    with it.  So every field yielded in a section of the outcome has a
    type that ends with [':'].  Normalising the outcome again returns
    it unchanged. *)
Theorem normalize_terminates_types_and_is_idempotent slugify p p' :
  normalize slugify p = Ok p' →
  (∃ t, dget "type" p' = Some t ∧ ends_in_separator t = true)
  ∧ (∀ s, dget "type" p = Some (VStr s) →
          dget "type" p' = Some (VStr (if ends_with_colon s then s else s ++ ":")))
  ∧ (∀ field sec, field ∈ schema_sections → dget field p = Some sec →
       if section_kept field p
       then ∃ sec', dget field p' = Some sec' ∧ types_terminated sec sec'
       else dget field p' = None)
  ∧ (∀ field, field ∈ schema_sections → dget field p = None → dget field p' = None)
  ∧ (∀ field sec, field ∈ schema_sections → dget field p' = Some sec →
       ∃ fields, iterate_schema sec = Ok fields
                 ∧ ∀ d, d ∈ fields →
                        ∃ t, dget "type" d = Some t ∧ ends_in_separator t = true)
  ∧ (∀ field sec sec', field ∈ schema_sections →
       dget field p = Some sec → dget field p' = Some sec' →
       leafwise terminate_field_type sec sec')
  ∧ normalize slugify p' = Ok p'.
Proof.
  intros Hnorm.
  pose proof (normalize_normalized _ _ _ Hnorm) as Hnormal.
  pose proof (normalize_types _ _ _ Hnorm) as [Htype Hsections].
  pose proof (normalize_sections _ _ _ Hnorm) as Hkept.
  split_and!.
  - destruct Hnormal as ((t & Ht & Hfix) & _). exists t. split; [done |].
    by apply terminate_type_settled in Hfix as [_ ?].
  - done.
  - intros field sec Hfield Hsec. specialize (Hkept field Hfield). rewrite Hsec in Hkept.
    destruct (section_kept field p); [| done].
    destruct Hkept as (sec' & Hsec' & Hleaf). exists sec'. split; [done |].
    by apply leafwise_types_terminated.
  - intros field Hfield Hsec. specialize (Hkept field Hfield). by rewrite Hsec in Hkept.
  - intros field sec Hfield Hsec.
    destruct Hnormal as (_ & _ & _ & _ & HS). specialize (HS field Hfield).
    unfold section_settled in HS. rewrite Hsec in HS.
    by apply settled_fields_terminated.
  - intros field sec sec' Hfield Hsec Hsec'. specialize (Hsections field Hfield).
    rewrite Hsec in Hsections. destruct Hsections as [?|(sec0 & ? & ?)]; congruence.
  - by apply normalized_fixed.
Qed.

(** The normalisation of the example definition. *)
Lemma normalize_terminates_types_and_is_idempotent_witness :
  let p := example_process "1.0.0" in
  let p' := normal_form lower p in
  (∃ t, dget "type" p' = Some t ∧ ends_in_separator t = true)
  ∧ (∀ s, dget "type" p = Some (VStr s) →
          dget "type" p' = Some (VStr (if ends_with_colon s then s else s ++ ":")))
  ∧ (∀ field sec, field ∈ schema_sections → dget field p = Some sec →
       if section_kept field p
       then ∃ sec', dget field p' = Some sec' ∧ types_terminated sec sec'
       else dget field p' = None)
  ∧ (∀ field, field ∈ schema_sections → dget field p = None → dget field p' = None)
  ∧ (∀ field sec, field ∈ schema_sections → dget field p' = Some sec →
       ∃ fields, iterate_schema sec = Ok fields
                 ∧ ∀ d, d ∈ fields →
                        ∃ t, dget "type" d = Some t ∧ ends_in_separator t = true)
  ∧ (∀ field sec sec', field ∈ schema_sections →
       dget field p = Some sec → dget field p' = Some sec' →
       leafwise terminate_field_type sec sec')
  ∧ normalize lower p' = Ok p'.
Proof.
  intros p p'.
  refine (normalize_terminates_types_and_is_idempotent lower p p' _).
  vm_compute. reflexivity.
Defined.

(** The normal form of the example, and of the legacy example, in
    which the static section gave [data_name] and was dropped. *)
Example normal_form_of_example :
  normal_form lower (example_process "1.0.0")
  = [ ("slug", VStr "aligner"); ("name", VStr "Aligner");
      ("version", VStr "1.0.0"); ("type", VStr "data:alignment:");
      ("category", VStr "analyses:"); ("persistence", VStr "CACHED");
      ("input",
        VList [VDict [("name", VStr "reads"); ("type", VStr "data:reads:")];
               VDict [("name", VStr "options");
                      ("group", VList [VDict [("name", VStr "threads");
                                              ("type", VStr "basic:integer:")]])]]);
      ("run", VDict [("program", VStr "align")]) ]
  ∧ normal_form lower legacy_process
    = [ ("version", VStr "0.1.2"); ("type", VStr "data:raw:");
        ("run", VDict [("language", VStr "bash")]);
        ("data_name", VStr "Uploaded file");
        ("slug", VStr "import-upload"); ("name", VStr "Upload") ].
Proof. split; vm_compute; reflexivity. Qed.

(** *** Definitions that the normalisation accepts *)

Lemma last_char_nonempty s : String.eqb s "" = false → ∃ c, last_char s = Some c.
Proof.
  induction s as [|c s IH]; [done |]. intros _. simpl.
  destruct s as [|c' s]; [by eexists |]. by apply IH.
Qed.

Lemma terminate_string_type_ok strict v :
  nonempty_string (Some v) = true → ∃ t', terminate_type strict v = Ok t'.
Proof.
  destruct v as [| | |s| |]; try done. simpl. intros Hs%negb_true_iff.
  destruct (last_char_nonempty s Hs) as [c ->]. destruct (Ascii.eqb c colon); by eexists.
Qed.

Lemma terminate_field_type_ok d :
  nonempty_string (dget "type" d) = true → ∃ d', terminate_field_type d = Ok d'.
Proof.
  unfold terminate_field_type, dindex. destruct (dget "type" d) as [t|]; [| done].
  intros Ht. destruct (terminate_string_type_ok true t Ht) as [t' Ht'].
  cbn [bind]. rewrite Ht'. by eexists.
Qed.

Lemma group_value_ok_dget G d :
  group_value_ok G d = match dget "group" d with Some v => G v | None => true end.
Proof.
  induction d as [|[k v] d IH]; simpl; [done |].
  by destruct (String.eqb "group" k).
Qed.

(** The walk and the type loop return on a well-formed schema. *)
Lemma fields_ok_walk sec :
  fields_ok sec = true →
  (∃ fields, iterate_schema sec = Ok fields)
  ∧ ∃ sec', update_fields terminate_field_type sec = Ok sec'.
Proof.
  induction sec as [l IH | v Hv] using schema_ind.
  - change (fields_ok (VList l)) with (forallb (field_ok fields_ok) l).
    rewrite iterate_schema_list, update_fields_list. intros Hl.
    cut ((∃ fields, fields_leaves iterate_schema l = Ok fields)
         ∧ ∃ l', fields_update terminate_field_type
                   (update_fields terminate_field_type) l = Ok l').
    { intros [? [l' ->]]. split; [done | by eexists]. }
    induction l as [|x l IHl]; [split; by eexists |].
    simpl in Hl. apply andb_true_iff in Hl as [Hx Hl].
    destruct IHl as [[rest Hrest] [r' Hr']]; [| done |].
    { intros d k v Hd Hkv. apply (IH d k v); [by right | done]. }
    simpl. rewrite Hrest, Hr'.
    destruct x as [| | | | |d]; try done. simpl in Hx. simpl. unfold dindex.
    destruct (dget "name" d) as [[| | |n| |]|] eqn:Hname; try done. simpl.
    destruct (dhas "group" d) eqn:Hgroup.
    + rewrite group_value_ok_dget in Hx.
      rewrite group_leaves_dget, group_update_dget.
      rewrite dhas_dget in Hgroup. destruct (dget "group" d) as [v|] eqn:Hv; [| done].
      destruct (IH d "group" v) as [[ls ->] [v' ->]];
        [by left | by apply dget_elem_of | done |].
      simpl. split; by eexists.
    + destruct (terminate_field_type_ok d Hx) as [d' ->]. simpl. split; by eexists.
  - destruct v; try done. by destruct (Hv l).
Qed.

Lemma terminate_section_ok field p :
  section_ok field p = true → ∃ p', terminate_section field p = Ok p'.
Proof.
  unfold section_ok, terminate_section. destruct (dget field p) as [sec|]; [| by eexists].
  intros Hsec. apply fields_ok_walk in Hsec as [_ [sec' ->]]. by eexists.
Qed.

Lemma terminate_top_type_ok p :
  nonempty_string (dget "type" p) = true → ∃ p', terminate_top_type p = Ok p'.
Proof.
  unfold terminate_top_type, dindex. destruct (dget "type" p) as [t|]; [| done].
  intros Ht. destruct (terminate_string_type_ok false t Ht) as [t' Ht'].
  cbn [bind]. rewrite Ht'. by eexists.
Qed.

Lemma terminate_category_ok p :
  match dget "category" p with
  | Some (VStr _) | None => true
  | Some _ => false
  end = true →
  ∃ p', terminate_category p = Ok p'.
Proof.
  unfold terminate_category.
  destruct (dget "category" p) as [[| | |s| |]|]; try done; [| by eexists].
  intros _. destruct (ends_with_colon s); by eexists.
Qed.

Lemma data_name_from_static_ok p :
  section_ok "static" p = true → ∃ p', data_name_from_static p = Ok p'.
Proof.
  unfold section_ok, data_name_from_static.
  destruct (dget "static" p) as [static|]; [| by eexists].
  intros Hs. apply fields_ok_walk in Hs as [[fields ->] _]. by eexists.
Qed.

Lemma legacy_slug_ok slugify p :
  dhas "slug" p
  || match dget "name" p with
     | Some (VStr _) => dhas "label" p
     | _ => false
     end = true →
  ∃ p', legacy_slug slugify p = Ok p'.
Proof.
  unfold legacy_slug. destruct (dhas "slug" p); [by eexists |]. simpl.
  unfold legacy_names, dindex.
  destruct (dget "name" p) as [[| | |n| |]|]; try done. cbn [bind].
  rewrite dhas_dget. intros Hlabel.
  rewrite dget_dset_ne, dget_ddel_ne by done.
  destruct (dget "label" p); [| done]. by eexists.
Qed.

Lemma section_ok_ext field p p' :
  dget field p' = dget field p → section_ok field p = true → section_ok field p' = true.
Proof. unfold section_ok. by intros ->. Qed.

Lemma section_ok_absent field p : dget field p = None → section_ok field p = true.
Proof. unfold section_ok. by intros ->. Qed.

(** C6 as stated fails: a definition without [type] makes the
    normalisation raise [KeyError], one with an empty type
    [IndexError], one with a field without [type] [KeyError]; the
    exception leaves the loop of [register_processes], so the
    definitions after it are not registered. *)
Lemma normalization_raises :
  normalize (slugify example_env) untyped_process = Raise KeyError
  ∧ normalize (slugify example_env) [("slug", VStr "aligner"); ("type", VStr "")]
    = Raise IndexError
  ∧ normalize (slugify example_env)
      [("slug", VStr "aligner"); ("type", VStr "data:");
       ("input", VList [VDict [("name", VStr "reads")]])]
    = Raise KeyError
  ∧ register_processes example_env
      [VDict untyped_process; VDict (example_process "1.0.0")] admin false 1
      example_state
    = (example_state, Raised KeyError).
Proof. repeat split; vm_compute; reflexivity. Qed.

(** C6, amended: the normalisation returns for every definition of
    the shape it is written for: a non-empty string as type, a string
    as category if there is one, a slug (or else a string name and a
    label), and input, output, var and static sections that are lists
    of fields, each field a dictionary with a string name and either a
    group of such fields or a non-empty string type. *)
Theorem normalization_of_well_shaped_returns slugify p :
  well_shaped p = true → ∃ p', normalize slugify p = Ok p'.
Proof.
  unfold well_shaped, schema_sections. cbn [forallb].
  intros Hp. repeat (apply andb_true_iff in Hp as [Hp ?]).
  repeat match goal with H : _ && _ = true |- _ => apply andb_true_iff in H as [? H] end.
  rename Hp into Htype.
  match goal with H : match dget "category" p with _ => _ end = true |- _ =>
    rename H into Hcategory end.
  match goal with H : dhas "slug" p || _ = true |- _ => rename H into Hslug end.
  match goal with H : section_ok "input" p = true |- _ => rename H into Hinput end.
  match goal with H : section_ok "output" p = true |- _ => rename H into Houtput end.
  match goal with H : section_ok "var" p = true |- _ => rename H into Hvar end.
  match goal with H : section_ok "static" p = true |- _ => rename H into Hstatic end.
  unfold normalize.
  destruct (terminate_top_type_ok p Htype) as [p1 H1]. rewrite H1. cbn [bind].
  apply terminate_top_type_spec in H1 as [_ F1].
  destruct (terminate_category p1) as [p2|e] eqn:H2.
  2: { destruct (terminate_category_ok p1) as [? Hok]; [by rewrite F1 | congruence]. }
  cbn [bind]. apply terminate_category_spec in H2 as [_ F2].
  destruct (data_name_from_static p2) as [p3|e] eqn:H3.
  2: { destruct (data_name_from_static_ok p2) as [? Hok]; [| congruence].
       apply (section_ok_ext _ p); [| done]. by rewrite F2, F1. }
  cbn [bind]. apply data_name_from_static_spec in H3 as [_ F3].
  assert (∀ k, k ≠ "type" → k ≠ "category" → k ≠ "data_name" →
               dget k p3 = dget k p) as Fearly.
  { intros k ? ? ?. by rewrite F3, F2, F1. }
  destruct (legacy_slug slugify p3) as [p4|e] eqn:H4.
  2: { destruct (legacy_slug_ok slugify p3) as [? Hok]; [| congruence].
       rewrite !dhas_dget, !Fearly by done. by rewrite !dhas_dget in Hslug. }
  cbn [bind]. apply legacy_slug_spec in H4 as (_ & F4 & A4).
  assert (∀ k, k ≠ "name" → k ≠ "label" → k ≠ "slug" → k ≠ "var" → k ≠ "static" →
               dget k p4 = dget k p3) as F4'.
  { intros k ? ? ? ? ?. apply F4. intros Hin.
    repeat (apply elem_of_cons in Hin as [?|Hin]); try done.
    by apply elem_of_nil in Hin. }
  destruct (terminate_section "input" p4) as [p5|e] eqn:H5.
  2: { destruct (terminate_section_ok "input" p4) as [? Hok]; [| congruence].
       apply (section_ok_ext _ p); [| done]. by rewrite F4', Fearly. }
  cbn [bind]. apply terminate_section_spec in H5 as (_ & F5 & _).
  destruct (terminate_section "output" p5) as [p6|e] eqn:H6.
  2: { destruct (terminate_section_ok "output" p5) as [? Hok]; [| congruence].
       apply (section_ok_ext _ p); [| done]. by rewrite F5, F4', Fearly. }
  cbn [bind]. apply terminate_section_spec in H6 as (_ & F6 & _).
  destruct (terminate_section "var" p6) as [p7|e] eqn:H7.
  2: { destruct (terminate_section_ok "var" p6) as [? Hok]; [| congruence].
       destruct A4 as [->|[_ A4]].
       - apply (section_ok_ext _ p); [| done]. by rewrite F6, F5, Fearly.
       - apply section_ok_absent. by rewrite F6, F5. }
  cbn [bind]. apply terminate_section_spec in H7 as (_ & F7 & _).
  apply terminate_section_ok.
  destruct A4 as [->|[A4 _]].
  - apply (section_ok_ext _ p); [| done]. by rewrite F7, F6, F5, Fearly.
  - apply section_ok_absent. by rewrite F7, F6, F5.
Qed.

(** The legacy example has the shape and is normalised. *)
Lemma normalization_of_well_shaped_returns_witness :
  ∃ p', normalize lower legacy_process = Ok p'.
Proof.
  refine (normalization_of_well_shaped_returns lower legacy_process _).
  vm_compute. reflexivity.
Defined.

(** * Further properties of the command *)

(** ** The scan of a tree *)

(** X1: the scan passes over the files whose name does not end in
    [.yml] or [.yaml] (in any letter case) without loading them: it
    gives what the scan of the remaining files gives, whatever loading
    the others would do. *)
Theorem scan_ignores_other_files filters schema_type files st found :
  scan_files filters schema_type files st found
  = scan_files filters schema_type
      (filter (λ f : string * load, is_yaml_name f.1 = true) files) st found.
Proof.
  revert st found. induction files as [|[file content] files IH]; intros st found; [done |].
  rewrite filter_cons. cbn [fst]. destruct (decide (is_yaml_name file = true)) as [Hy|Hn].
  - cbn [scan_files]. rewrite Hy. destruct content as [e|schemas]; [done |].
    destruct (truthy schemas); [| apply IH].
    destruct (bind _ _); [apply IH | done].
  - cbn [scan_files]. apply not_true_is_false in Hn. rewrite Hn. apply IH.
Qed.

(** X2: the scan of two runs of files one after the other is the scan
    of the second run from where the scan of the first one ended, and
    an exception in the first run ends it: the second run is not read
    and what was found is lost. *)
Theorem scan_files_app filters schema_type files1 files2 st found :
  scan_files filters schema_type (files1 ++ files2) st found
  = match scan_files filters schema_type files1 st found with
    | (st1, Ok found1) => scan_files filters schema_type files2 st1 found1
    | (st1, Raise e) => (st1, Raise e)
    end.
Proof.
  revert st found. induction files1 as [|[file content] files1 IH]; intros st found.
  - done.
  - cbn [app scan_files]. destruct (is_yaml_name file); [| apply IH].
    destruct content as [e|schemas]; [done |].
    destruct (truthy schemas); [| apply IH].
    destruct (bind _ _); [apply IH | done].
Qed.

Lemma select_schemas_chosen filters schema_type items chosen :
  select_schemas filters schema_type items = Ok chosen →
  ∀ schema, schema ∈ chosen →
    schema ∈ items ∧ schema_matches filters schema_type schema = Ok true.
Proof.
  revert chosen. induction items as [|x items IH]; intros chosen; simpl.
  - intros [= <-] schema Hin. by apply elem_of_nil in Hin.
  - destruct (schema_matches filters schema_type x) as [keep|] eqn:Hx; [| done]. simpl.
    destruct (select_schemas filters schema_type items) as [rest|]; [| done]. simpl.
    intros [= <-] schema Hin. destruct keep.
    + apply elem_of_cons in Hin as [->|Hin]; [split; [by left | done] |].
      destruct (IH rest eq_refl schema Hin). split; [by right | done].
    + destruct (IH rest eq_refl schema Hin). split; [by right | done].
Qed.

Lemma schema_matches_true filters schema_type schema :
  schema_matches filters schema_type schema = Ok true →
  py_contains (match schema_type with
               | ProcessModel => "run"
               | DescriptorModel => "schema"
               end) schema = Ok true
  ∧ match filters with
    | None | Some [] => True
    | Some fs =>
        ∃ d, schema = VDict d
             ∧ (in_filters (default (VStr "") (dget "slug" d)) fs
                || in_filters (default (VStr "") (dget "name" d)) fs) = true
    end.
Proof.
  unfold schema_matches. destruct filters as [[|f fs]|]; simpl.
  - done.
  - destruct schema as [| | | | |d]; try done. simpl.
    destruct (in_filters _ (f :: fs) || in_filters _ (f :: fs)) eqn:Hin; [| done].
    intros H. split; [done |]. by exists d.
  - done.
Qed.

Lemma scan_files_found filters schema_type files st found st' found' :
  scan_files filters schema_type files st found = (st', Ok found') →
  ∀ schema, schema ∈ found' →
    schema ∈ found
    ∨ (∃ file doc items,
         (file, Loaded doc) ∈ files ∧ is_yaml_name file = true
         ∧ truthy doc = true ∧ py_iter doc = Ok items ∧ schema ∈ items)
      ∧ schema_matches filters schema_type schema = Ok true.
Proof.
  revert st found. induction files as [|[file content] files IH]; intros st found.
  - intros [= <- <-] schema Hin. by left.
  - cbn [scan_files]. destruct (is_yaml_name file) eqn:Hy.
    2: { intros H schema Hin. destruct (IH _ _ H schema Hin) as [?|[(f & d & i & ? & ?) ?]];
           [by left | right]. split; [| done]. exists f, d, i. split; [by right | done]. }
    destruct content as [e|doc]; [done |].
    destruct (truthy doc) eqn:Ht.
    2: { intros H schema Hin. destruct (IH _ _ H schema Hin) as [?|[(f & d & i & ? & ?) ?]];
           [by left | right]. split; [| done]. exists f, d, i. split; [by right | done]. }
    destruct (py_iter doc) as [items|] eqn:Hitems; [| done]. simpl.
    destruct (select_schemas filters schema_type items) as [chosen|] eqn:Hsel; [| done].
    intros H schema Hin.
    destruct (IH _ _ H schema Hin) as [Hold|[(f & d & i & ? & ?) ?]].
    + apply elem_of_app in Hold as [?|Hnew]; [by left | right].
      destruct (select_schemas_chosen _ _ _ _ Hsel schema Hnew). split; [| done].
      exists file, doc, items. split; [by left | done].
    + right. split; [| done]. exists f, d, i. split; [by right | done].
Qed.

(** X3: what [find_schemas] returns for a directory: every schema of
    the list is an item of the document of a file of the tree whose
    name ends in [.yml] or [.yaml], it has the key of its kind ([run]
    for a process, [schema] for a descriptor), and under a non-empty
    filter it is a dictionary whose slug or name is in the filter; the
    store is as it was. *)
Theorem found_schemas_are_selected env path filters schema_type verbosity st st' found :
  find_schemas env path filters schema_type verbosity st = (st', Ok (Some found)) →
  ∃ files,
    walk env path = Some files
    ∧ stored st' = stored st
    ∧ ∀ schema, schema ∈ found →
        (∃ file doc items,
           (file, Loaded doc) ∈ files ∧ is_yaml_name file = true
           ∧ truthy doc = true ∧ py_iter doc = Ok items ∧ schema ∈ items)
        ∧ py_contains (match schema_type with
                       | ProcessModel => "run"
                       | DescriptorModel => "schema"
                       end) schema = Ok true
        ∧ match filters with
          | None | Some [] => True
          | Some fs =>
              ∃ d, schema = VDict d
                   ∧ (in_filters (default (VStr "") (dget "slug" d)) fs
                      || in_filters (default (VStr "") (dget "name" d)) fs) = true
          end.
Proof.
  unfold find_schemas. destruct (walk env path) as [files|]; [| by destruct (0 <? verbosity)].
  destruct (scan_files filters schema_type files st []) as [st1 [found1|e]] eqn:Hscan; [| done].
  intros [= <- <-]. exists files. split; [done |]. split.
  - by apply scan_files_stored in Hscan as [? _].
  - intros schema Hin.
    destruct (scan_files_found _ _ _ _ _ _ _ Hscan schema Hin) as [Hnil|[Hfile Hmatch]];
      [by apply elem_of_nil in Hnil |].
    apply schema_matches_true in Hmatch as [? ?]. done.
Qed.

(** The scan of the example directory under the filter [upload]. *)
Lemma found_schemas_are_selected_witness :
  ∃ files,
    walk example_env "clean" = Some files
    ∧ stored example_state = stored example_state
    ∧ ∀ schema,
        schema ∈ [VDict [("slug", VStr "upload"); ("name", VStr "Upload");
                         ("version", VStr "1.0.0"); ("type", VStr "data:raw");
                         ("run", VDict [("program", VStr "true")])]] →
        (∃ file doc items,
           (file, Loaded doc) ∈ files ∧ is_yaml_name file = true
           ∧ truthy doc = true ∧ py_iter doc = Ok items ∧ schema ∈ items)
        ∧ py_contains "run" schema = Ok true
        ∧ ∃ d, schema = VDict d
               ∧ (in_filters (default (VStr "") (dget "slug" d)) ["upload"]
                  || in_filters (default (VStr "") (dget "name" d)) ["upload"]) = true.
Proof.
  refine (found_schemas_are_selected example_env "clean" (Some ["upload"]) ProcessModel 1
            example_state example_state _ _).
  vm_compute. reflexivity.
Defined.

(** ** What a run does to the store *)

Section Effects.

Context (env : collaborators).

(** What an upsert can do: nothing to the store, an update of the
    row of the slug and version under force, or the insertion of a row
    above every version of the slug. *)
Lemma upsert_effect m noun force verbosity who p slug version st log st' log' o :
  upsert env m noun force verbosity who p slug version st log = (st', log', o) →
  (stored st' = stored st ∧ users st' = users st)
  ∨ (force = true ∧ o = Done
     ∧ ∃ s iv r,
         table m st !! (s, iv) = Some r
         ∧ st' = set_table m (<[(s, iv) := update_columns p r]> (table m st)) st)
  ∨ (o = Done
     ∧ ∃ s iv g,
         (∀ v, is_Some (table m st !! (s, v)) → v < iv)
         ∧ st' = set_permissions g
                   (set_table m (<[(s, iv) := Record_ (user_id who) p]> (table m st)) st)).
Proof.
  unfold upsert.
  destruct version as [| | |version| |]; try (intros [= <- _ _]; by left).
  destruct (version_int env version) as [iv|e]; [| intros [= <- _ _]; by left].
  destruct slug as [| | |slug| |]; try (intros [= <- _ _]; by left).
  destruct (version_max (table m st) slug) as [lv|] eqn:Hmax.
  - apply version_max_Some in Hmax as [Hsome Hle].
    destruct (Z.ltb_spec iv lv); [intros [= <- _ _]; by left |].
    destruct (table m st !! (slug, iv)) as [r|] eqn:Hrow.
    + destruct force; intros [= <- _ <-].
      * right. left. split_and!; [done | done |]. by exists slug, iv, r.
      * left. by destruct (0 <? verbosity).
    + intros [= <- _ <-]. right. right. split; [done |].
      eexists slug, iv, _. split; [| reflexivity].
      intros v Hv. specialize (Hle v Hv).
      destruct (decide (v = iv)) as [->|?]; [| lia].
      rewrite Hrow in Hv. by destruct Hv.
  - pose proof (proj1 (version_max_None _ _) Hmax) as Hnone.
    rewrite Hnone. intros [= <- _ <-]. right. right. split; [done |].
    eexists slug, iv, _. split; [| reflexivity].
    intros v Hv. rewrite Hnone in Hv. by destruct Hv.
Qed.

Lemma set_table_lookup m m' t st k :
  table m' (set_table m t st) !! k
  = if decide (m = m') then t !! k else table m' st !! k.
Proof. by destruct m, m'. Qed.

Lemma rows_kept_refl st : rows_kept st st.
Proof. by intros m k. Qed.

Lemma rows_kept_trans a b c : rows_kept a b → rows_kept b c → rows_kept a c.
Proof. intros Hab Hbc m k Hk. by apply Hbc, Hab. Qed.

Lemma rows_kept_same st st' : stored st' = stored st → rows_kept st st'.
Proof.
  unfold stored. intros [= Hp Hd _] m k.
  destruct m; simpl; by rewrite ?Hp, ?Hd.
Qed.

Lemma rows_unchanged_same st st' : stored st' = stored st → rows_unchanged st st'.
Proof.
  unfold stored. intros [= Hp Hd _] m k r.
  destruct m; simpl; by rewrite ?Hp, ?Hd.
Qed.

Lemma added_above_same st st' : stored st' = stored st → added_above st st'.
Proof.
  unfold stored. intros [= Hp Hd _] m slug v Hv. left.
  destruct m; simpl in *; by rewrite <- ?Hp, <- ?Hd.
Qed.

(** The three relations along an upsert. *)
Lemma upsert_rows m noun force verbosity who p slug version st log st' log' o :
  upsert env m noun force verbosity who p slug version st log = (st', log', o) →
  rows_kept st st' ∧ added_above st st' ∧ users st' = users st
  ∧ (force = false → rows_unchanged st st').
Proof.
  intros [[Hs Hu]|[(Hf & _ & s & iv & r & Hr & ->)|(_ & s & iv & g & Habove & ->)]]%upsert_effect.
  - split_and!; [by apply rows_kept_same | by apply added_above_same | done |].
    intros _. by apply rows_unchanged_same.
  - split_and!.
    + intros m' k Hk. rewrite set_table_lookup. destruct (decide (m = m')) as [<-|]; [| done].
      destruct (decide ((s, iv) = k)) as [<-|]; [by rewrite lookup_insert_eq |].
      by rewrite lookup_insert_ne.
    + intros m' sl v. rewrite set_table_lookup. destruct (decide (m = m')) as [<-|]; [| by left].
      destruct (decide ((s, iv) = (sl, v))) as [[= <- <-]|]; [left; by rewrite Hr |].
      rewrite lookup_insert_ne by done. by left.
    + by destruct m.
    + by rewrite Hf.
  - assert (table m st !! (s, iv) = None) as Hnew.
    { destruct (table m st !! (s, iv)) eqn:Hrow; [| done].
      assert (iv < iv); [apply Habove; by rewrite Hrow | lia]. }
    assert (∀ m' k, table m' (set_permissions g
                       (set_table m (<[(s, iv) := Record_ (user_id who) p]> (table m st)) st))
                    !! k
                    = if decide (m = m') then
                        <[(s, iv) := Record_ (user_id who) p]> (table m st) !! k
                      else table m' st !! k) as Hlook.
    { intros m' k. by destruct m, m'. }
    split_and!.
    + intros m' k Hk. rewrite Hlook. destruct (decide (m = m')) as [<-|]; [| done].
      destruct (decide ((s, iv) = k)) as [<-|]; [by rewrite lookup_insert_eq |].
      by rewrite lookup_insert_ne.
    + intros m' sl v. rewrite Hlook. destruct (decide (m = m')) as [<-|]; [| by left].
      destruct (decide ((s, iv) = (sl, v))) as [[= <- <-]|]; [by right |].
      rewrite lookup_insert_ne by done. by left.
    + by destruct m.
    + intros _ m' k r Hr. rewrite Hlook. destruct (decide (m = m')) as [<-|]; [| done].
      rewrite lookup_insert_ne; [done |]. intros <-. congruence.
Qed.

End Effects.

Section Runs.

Context (env : collaborators).

(** A relation that holds along every step of a loop holds from the
    state the loop starts in to the state it ends in. *)
Lemma for_each_steps (R : state → state → Prop) body :
  (∀ st, R st st) →
  (∀ a b c, R a b → R b c → R a c) →
  (∀ x st log st' log' o, body x st log = (st', log', o) → R st st') →
  ∀ items st log st' log' o,
    for_each body items st log = (st', log', o) → R st st'.
Proof.
  intros Hrefl Htrans Hbody.
  induction items as [|x items IH]; intros st log st' log' o; simpl.
  - by intros [= <- _ _].
  - destruct (body x st log) as [[st1 log1] [|e]] eqn:Hx.
    + intros H. eapply Htrans; [by eapply Hbody | by eapply IH].
    + intros [= <- _ _]. by eapply Hbody.
Qed.

Section Steps.

Variable R : state → state → Prop.
Variables (force : bool) (verbosity : Z).

Hypothesis R_refl : ∀ st, R st st.
Hypothesis R_trans : ∀ a b c, R a b → R b c → R a c.
Hypothesis R_err : ∀ line st, R st (write_err line st).
Hypothesis R_out : ∀ line st, 0 < verbosity → R st (write_out line st).
Hypothesis R_upsert :
  ∀ m noun who p slug version st log st' log' o,
    upsert env m noun force verbosity who p slug version st log = (st', log', o) →
    R st st'.

Lemma write_errs_steps lines st : R st (write_errs lines st).
Proof.
  unfold write_errs. revert st. induction lines as [|line lines IH]; intros st; [done |].
  simpl. eapply R_trans; [apply R_err | apply IH].
Qed.

Lemma write_logs_steps title log st :
  R st (if 0 <? verbosity then write_logs title log st else st).
Proof.
  destruct (Z.ltb_spec 0 verbosity) as [Hv|]; [| done].
  unfold write_logs. destruct log as [|l0 log]; [done |].
  eapply R_trans; [by apply (R_out title) |].
  generalize (write_out title st), (l0 :: log). intros st0 lines. revert st0.
  induction lines as [|line lines IH]; intros st0; [done |].
  simpl. eapply R_trans; [by apply R_out | apply IH].
Qed.

Lemma scan_files_steps filters schema_type files st found :
  R st (scan_files filters schema_type files st found).1.
Proof.
  revert st found. induction files as [|[name content] files IH]; intros st found; [done |].
  cbn [scan_files]. destruct (is_yaml_name name); [| apply IH].
  destruct content as [e|schemas]; [done |].
  destruct (truthy schemas).
  - destruct (bind _ _) as [chosen|e]; [apply IH | done].
  - eapply R_trans; [apply R_err | apply IH].
Qed.

Lemma find_schemas_steps path filters schema_type st :
  R st (find_schemas env path filters schema_type verbosity st).1.
Proof.
  unfold find_schemas. destruct (walk env path) as [files|].
  - pose proof (scan_files_steps filters schema_type files st []) as H.
    by destruct (scan_files _ _ _ _ _) as [st1 [found|e]].
  - simpl. destruct (Z.ltb_spec 0 verbosity); [by apply R_out | done].
Qed.

Lemma collect_schemas_steps filters schema_type paths st found :
  R st (collect_schemas env filters schema_type verbosity paths st found).1.
Proof.
  revert st found. induction paths as [|path paths IH]; intros st found; [done |].
  cbn [collect_schemas].
  pose proof (find_schemas_steps path filters schema_type st) as H.
  destruct (find_schemas _ _ _ _ _ _) as [st1 [[l|]|e]]; [| done | done].
  eapply R_trans; [done | apply IH].
Qed.

Lemma register_process_steps who x st log st' log' o :
  register_process env who force verbosity x st log = (st', log', o) → R st st'.
Proof.
  unfold register_process.
  destruct x as [| | | | |p]; try (by intros [= <- _ _]).
  destruct (prepare_process env p) as [[p' slug version|lines]|e].
  - apply R_upsert.
  - intros [= <- _ _]. apply write_errs_steps.
  - by intros [= <- _ _].
Qed.

Lemma register_descriptor_steps who x st log st' log' o :
  register_descriptor env who force verbosity x st log = (st', log', o) → R st st'.
Proof.
  unfold register_descriptor.
  destruct x as [| | | | |d]; try (by intros [= <- _ _]).
  destruct (prepare_descriptor env d) as [[d' slug version|lines]|e].
  - apply R_upsert.
  - intros [= <- _ _]. apply write_errs_steps.
  - by intros [= <- _ _].
Qed.

Lemma register_processes_steps items who st :
  R st (register_processes env items who force verbosity st).1.
Proof.
  unfold register_processes.
  destruct (for_each _ items st []) as [[st2 log2] [|e]] eqn:H2;
    apply (for_each_steps R _ R_refl R_trans (register_process_steps who)) in H2;
    [| done].
  eapply R_trans; [done | apply write_logs_steps].
Qed.

Lemma register_descriptors_steps items who st :
  R st (register_descriptors env items who force verbosity st).1.
Proof.
  unfold register_descriptors.
  destruct (for_each _ items st []) as [[st2 log2] [|e]] eqn:H2;
    apply (for_each_steps R _ R_refl R_trans (register_descriptor_steps who)) in H2;
    [| done].
  eapply R_trans; [done | apply write_logs_steps].
Qed.

(** A relation that holds along every step of the command holds
    from the state the command starts in to the state it ends in. *)
Lemma handle_steps schemas paths st :
  R st (handle env schemas force paths verbosity st).1.
Proof.
  unfold handle. destruct (superusers st) as [|user_admin t]; [apply R_err |].
  set (pp := match paths with [] => concat (map fst (finders env)) | _ => paths end).
  set (dp := match paths with [] => concat (map snd (finders env)) | _ => paths end).
  pose proof (collect_schemas_steps schemas ProcessModel pp st []) as H1.
  destruct (collect_schemas env schemas ProcessModel _ _ st []) as [st1 [ps|e]]; [| done].
  pose proof (register_processes_steps ps user_admin st1) as H2.
  destruct (register_processes env ps user_admin force verbosity st1) as [st2 [|e]];
    [| by eapply R_trans].
  pose proof (collect_schemas_steps schemas DescriptorModel dp st2 []) as H3.
  destruct (collect_schemas env schemas DescriptorModel _ _ st2 []) as [st3 [ds|e]].
  - eapply R_trans; [done |]. eapply R_trans; [done |]. eapply R_trans; [done |].
    apply register_descriptors_steps.
  - eapply R_trans; [done |]. by eapply R_trans.
Qed.

End Steps.

Lemma quiet_refl force st : quiet force st st.
Proof.
  split_and!; [apply rows_kept_refl | by apply added_above_same | done |].
  intros _. by apply rows_unchanged_same.
Qed.

Lemma quiet_trans force a b c : quiet force a b → quiet force b c → quiet force a c.
Proof.
  intros (Hk1 & Ha1 & Hu1 & Hn1) (Hk2 & Ha2 & Hu2 & Hn2). split_and!.
  - by eapply rows_kept_trans.
  - intros m slug v Hv. destruct (Ha2 m slug v Hv) as [Hb|Hb].
    + by apply Ha1.
    + right. intros v0 Hv0. apply Hb. by apply Hk1.
  - congruence.
  - intros Hf m k r Hr. apply (Hn2 Hf), (Hn1 Hf), Hr.
Qed.

Lemma quiet_output force st st' :
  stored st' = stored st → users st' = users st → quiet force st st'.
Proof.
  intros Hs Hu. split_and!;
    [by apply rows_kept_same | by apply added_above_same | done |].
  intros _. by apply rows_unchanged_same.
Qed.

Lemma quiet_upsert m noun force verbosity who p slug version st log st' log' o :
  upsert env m noun force verbosity who p slug version st log = (st', log', o) →
  quiet force st st'.
Proof. apply upsert_rows. Qed.

Lemma handle_quiet schemas force paths verbosity st :
  quiet force st (handle env schemas force paths verbosity st).1.
Proof.
  apply handle_steps.
  - apply quiet_refl.
  - apply quiet_trans.
  - intros line st0. by apply quiet_output.
  - intros line st0 _. by apply quiet_output.
  - intros m noun who p slug version st0 log st' log' o. apply quiet_upsert.
Qed.

(** X4: whatever the command is given, and whether it returns or an
    exception leaves it, no row of either table is removed, and every
    row that it adds has a version above all the versions that its
    slug had in the table before the run. *)
Theorem command_keeps_rows_and_adds_above schemas force paths verbosity st :
  rows_kept st (handle env schemas force paths verbosity st).1
  ∧ added_above st (handle env schemas force paths verbosity st).1
  ∧ users (handle env schemas force paths verbosity st).1 = users st.
Proof.
  destruct (handle_quiet schemas force paths verbosity st) as (? & ? & ? & _). done.
Qed.

(** X5: without the force flag the command changes no row that is
    stored: every row of either table is found under its key, with its
    contributor and columns, in the state the command ends in. *)
Theorem command_without_force_changes_no_row schemas paths verbosity st :
  rows_unchanged st (handle env schemas false paths verbosity st).1.
Proof.
  destruct (handle_quiet schemas false paths verbosity st) as (_ & _ & _ & Hsame).
  by apply Hsame.
Qed.

End Runs.

(** ** Running the command again *)

Section Again.

Context (env : collaborators).

(** An exception of the upsert does not depend on the state, and
    leaves it as it is. *)
Lemma upsert_raise_anywhere m noun force verbosity who p slug version st log st' log' e :
  upsert env m noun force verbosity who p slug version st log = (st', log', Raised e) →
  ∀ force' s lg,
    upsert env m noun force' verbosity who p slug version s lg = (s, lg, Raised e).
Proof.
  unfold upsert.
  destruct version as [| | |version| |]; try (by intros [= _ _ <-]).
  destruct (version_int env version) as [iv|e']; [| by intros [= _ _ <-]].
  destruct slug as [| | |slug| |]; try (by intros [= _ _ <-]).
  destruct (match version_max _ _ with Some v => iv <? v | None => false end); [done |].
  destruct (table m st !! (slug, iv)); [by destruct force | done].
Qed.

(** After an upsert that did not raise, the table holds the slug at
    the version of the definition or at a later one. *)
Lemma upsert_done_covered m noun force verbosity who p slug version st log st' log' :
  upsert env m noun force verbosity who p slug version st log = (st', log', Done) →
  ∃ s0 v0 iv v,
    slug = VStr s0 ∧ version = VStr v0 ∧ version_int env v0 = Ok iv
    ∧ iv ≤ v ∧ is_Some (table m st' !! (s0, v)).
Proof.
  unfold upsert.
  destruct version as [| | |v0| |]; try done.
  destruct (version_int env v0) as [iv|e'] eqn:Hiv; [| done].
  destruct slug as [| | |s0| |]; try done.
  destruct (version_max (table m st) s0) as [lv|] eqn:Hmax.
  - apply version_max_Some in Hmax as [Hsome Hle].
    destruct (Z.ltb_spec iv lv).
    { intros [= <- _]. exists s0, v0, iv, lv. split_and!; try done. lia. }
    destruct (table m st !! (s0, iv)) as [r|] eqn:Hrow.
    + destruct force; intros [= <- _]; exists s0, v0, iv, iv; split_and!; try done.
      * rewrite table_set_table, lookup_insert_eq. done.
      * destruct (0 <? verbosity); by rewrite ?Hrow.
    + intros [= <- _]. exists s0, v0, iv, iv. split_and!; try done.
      destruct m; simpl; by rewrite lookup_insert_eq.
  - rewrite (proj1 (version_max_None _ _) Hmax).
    intros [= <- _]. exists s0, v0, iv, iv. split_and!; try done.
    destruct m; simpl; by rewrite lookup_insert_eq.
Qed.

(** Without force, an upsert into a table that holds the slug at the
    version or at a later one stores nothing. *)
Lemma upsert_skips_covered m noun verbosity who p s0 v0 iv v s lg :
  version_int env v0 = Ok iv → iv ≤ v → is_Some (table m s !! (s0, v)) →
  ∃ s', upsert env m noun false verbosity who p (VStr s0) (VStr v0) s lg = (s', lg, Done)
        ∧ stored s' = stored s ∧ users s' = users s.
Proof.
  intros Hiv Hle Hv.
  destruct (version_max (table m s) s0) as [lv|] eqn:Hmax.
  - apply version_max_Some in Hmax as [Hsome Hmax].
    destruct (decide (iv < lv)) as [Hlt|Hge].
    + eexists. split; [by apply upsert_newer with (iv := iv) (v' := lv) | done].
    + assert (∀ v', is_Some (table m s !! (s0, v')) → v' ≤ iv) as Hall.
      { intros v' Hv'. specialize (Hmax _ Hv'). lia. }
      assert (v = iv) as -> by (specialize (Hall _ Hv); lia).
      rewrite (upsert_not_newer env m) with (iv := iv) by done.
      destruct Hv as [r ->]. eexists. split; [reflexivity |].
      by destruct (0 <? verbosity).
  - rewrite (proj1 (version_max_None _ _) Hmax) in Hv. by destruct Hv.
Qed.

Lemma same_stored_same_rows m s s' k :
  stored s' = stored s → is_Some (table m s !! k) → is_Some (table m s' !! k).
Proof. intros Hs. by apply (rows_kept_same _ _ Hs). Qed.

(** A loop over definitions that is run again, without force, on a
    state that holds the rows the first run ended with, ends in the
    same way and stores nothing.  [body] is the body of the first run,
    [body'] the body of the second. *)
Lemma for_each_again body body' m items :
  (∀ x st log st' log' e,
     body x st log = (st', log', Raised e) → ∀ s lg, body' x s lg = (s, lg, Raised e)) →
  (∀ x st log st' log',
     body x st log = (st', log', Done) →
     ∀ s lg, (∀ k, is_Some (table m st' !! k) → is_Some (table m s !! k)) →
       ∃ s', body' x s lg = (s', lg, Done) ∧ stored s' = stored s ∧ users s' = users s) →
  (∀ x st log st' log' o, body x st log = (st', log', o) → rows_kept st st') →
  ∀ st log st1 log1 o,
    for_each body items st log = (st1, log1, o) →
    ∀ s lg, (∀ k, is_Some (table m st1 !! k) → is_Some (table m s !! k)) →
      ∃ s', for_each body' items s lg = (s', lg, o)
            ∧ stored s' = stored s ∧ users s' = users s.
Proof.
  intros Hraise Hdone Hkept.
  induction items as [|x items IH]; intros st log st1 log1 o; simpl.
  - intros [= <- _ <-] s lg _. by exists s.
  - destruct (body x st log) as [[sta loga] [|e]] eqn:Hx.
    + intros Hrest s lg Hs.
      pose proof (for_each_steps rows_kept body rows_kept_refl rows_kept_trans Hkept
                    _ _ _ _ _ _ Hrest) as Hrows.
      destruct (Hdone _ _ _ _ _ Hx s lg) as (s' & -> & Hs' & Hu').
      { intros k Hk. by apply Hs, Hrows. }
      destruct (IH _ _ _ _ _ Hrest s' lg) as (s'' & -> & Hs'' & Hu'').
      { intros k Hk. apply (same_stored_same_rows _ s); [done | by apply Hs]. }
      exists s''. split; [done |]. split; congruence.
    + intros [= <- _ <-] s lg _. rewrite (Hraise _ _ _ _ _ _ Hx s lg). by exists s.
Qed.

Lemma register_process_again who force verbosity items st log st1 log1 o :
  for_each (register_process env who force verbosity) items st log = (st1, log1, o) →
  ∀ s lg, (∀ k, is_Some (processes st1 !! k) → is_Some (processes s !! k)) →
    ∃ s', for_each (register_process env who false verbosity) items s lg = (s', lg, o)
          ∧ stored s' = stored s ∧ users s' = users s.
Proof.
  apply (for_each_again _ _ ProcessModel).
  - intros x st0 log0 st' log' e. unfold register_process.
    destruct x as [| | | | |p]; try (by intros [= _ _ <-]).
    destruct (prepare_process env p) as [[p' slug version|lines]|e']; [| done |].
    + intros H s lg. by apply (upsert_raise_anywhere _ _ _ _ _ _ _ _ _ _ _ _ _ H).
    + by intros [= _ _ <-].
  - intros x st0 log0 st' log'. unfold register_process.
    destruct x as [| | | | |p]; try done.
    destruct (prepare_process env p) as [[p' slug version|lines]|e']; [| | done].
    + intros (s0 & v0 & iv & v & -> & -> & Hiv & Hle & Hv)%upsert_done_covered s lg Hs.
      apply upsert_skips_covered with (iv := iv) (v := v); [done | done | by apply Hs].
    + intros _ s lg _. eexists. split; [reflexivity |]. apply stored_write_errs.
  - intros x st0 log0 st' log' o'.
    apply (register_process_steps env rows_kept force verbosity rows_kept_refl
             rows_kept_trans); [intros; by apply rows_kept_same |].
    intros m noun who' p slug version sa la sb lb ob H. by apply upsert_rows in H as [? _].
Qed.

Lemma register_descriptor_again who force verbosity items st log st1 log1 o :
  for_each (register_descriptor env who force verbosity) items st log = (st1, log1, o) →
  ∀ s lg, (∀ k, is_Some (descriptors st1 !! k) → is_Some (descriptors s !! k)) →
    ∃ s', for_each (register_descriptor env who false verbosity) items s lg = (s', lg, o)
          ∧ stored s' = stored s ∧ users s' = users s.
Proof.
  apply (for_each_again _ _ DescriptorModel).
  - intros x st0 log0 st' log' e. unfold register_descriptor.
    destruct x as [| | | | |p]; try (by intros [= _ _ <-]).
    destruct (prepare_descriptor env p) as [[p' slug version|lines]|e']; [| done |].
    + intros H s lg. by apply (upsert_raise_anywhere _ _ _ _ _ _ _ _ _ _ _ _ _ H).
    + by intros [= _ _ <-].
  - intros x st0 log0 st' log'. unfold register_descriptor.
    destruct x as [| | | | |p]; try done.
    destruct (prepare_descriptor env p) as [[p' slug version|lines]|e']; [| | done].
    + intros (s0 & v0 & iv & v & -> & -> & Hiv & Hle & Hv)%upsert_done_covered s lg Hs.
      apply upsert_skips_covered with (iv := iv) (v := v); [done | done | by apply Hs].
    + intros _ s lg _. eexists. split; [reflexivity |]. apply stored_write_errs.
  - intros x st0 log0 st' log' o'.
    apply (register_descriptor_steps env rows_kept force verbosity rows_kept_refl
             rows_kept_trans); [intros; by apply rows_kept_same |].
    intros m noun who' p slug version sa la sb lb ob H. by apply upsert_rows in H as [? _].
Qed.

(** What a scan finds does not depend on the state. *)
Lemma scan_files_anywhere filters schema_type files st found s :
  (scan_files filters schema_type files s found).2
  = (scan_files filters schema_type files st found).2.
Proof.
  revert st s found. induction files as [|[file content] files IH]; intros st s found.
  - done.
  - cbn [scan_files]. destruct (is_yaml_name file); [| apply IH].
    destruct content as [e|schemas]; [done |].
    destruct (truthy schemas); [| apply IH].
    destruct (bind _ _); [apply IH | done].
Qed.

Lemma find_schemas_anywhere path filters schema_type verbosity st s :
  (find_schemas env path filters schema_type verbosity s).2
  = (find_schemas env path filters schema_type verbosity st).2.
Proof.
  unfold find_schemas. destruct (walk env path) as [files|]; [| done].
  pose proof (scan_files_anywhere filters schema_type files st [] s) as H.
  destruct (scan_files _ _ files st []) as [? [?|?]],
           (scan_files _ _ files s []) as [? [?|?]]; simpl in *; congruence.
Qed.

Lemma collect_schemas_anywhere filters schema_type verbosity paths st s found :
  (collect_schemas env filters schema_type verbosity paths s found).2
  = (collect_schemas env filters schema_type verbosity paths st found).2.
Proof.
  revert st s found. induction paths as [|path paths IH]; intros st s found; [done |].
  cbn [collect_schemas].
  pose proof (find_schemas_anywhere path filters schema_type verbosity st s) as H.
  destruct (find_schemas env path _ _ _ st) as [st1 [[l|]|e]],
           (find_schemas env path _ _ _ s) as [s1 [[l'|]|e']]; simpl in H; try done.
  - injection H as ->. apply IH.
  - by injection H as ->.
Qed.

Lemma stored_logs verbosity title log st :
  stored (if 0 <? verbosity then write_logs title log st else st) = stored st.
Proof. destruct (0 <? verbosity); [apply stored_write_logs | done]. Qed.

(** The command, run without force on a state with the same users
    that holds at least the rows a first run ended with, ends as the
    first run did and stores nothing. *)
Lemma handle_again schemas force paths verbosity st s :
  users s = users st →
  rows_kept (handle env schemas force paths verbosity st).1 s →
  stored (handle env schemas false paths verbosity s).1 = stored s
  ∧ (handle env schemas false paths verbosity s).2
    = (handle env schemas force paths verbosity st).2.
Proof.
  intros Hu. unfold handle.
  assert (superusers s = superusers st) as -> by (unfold superusers; by rewrite Hu).
  destruct (superusers st) as [|user_admin t]; [done |].
  set (pp := match paths with [] => concat (map fst (finders env)) | _ => paths end).
  set (dp := match paths with [] => concat (map snd (finders env)) | _ => paths end).
  pose proof (collect_schemas_anywhere schemas ProcessModel verbosity pp st s []) as Hc.
  destruct (collect_schemas env schemas ProcessModel verbosity pp st [])
    as [st1 ps] eqn:H1.
  destruct (collect_schemas env schemas ProcessModel verbosity pp s [])
    as [s1 ps'] eqn:G1.
  simpl in Hc. subst ps'.
  apply collect_schemas_stored in G1 as [G1 G1u].
  destruct ps as [ps|e]; [| done].
  unfold register_processes.
  destruct (for_each _ ps st1 []) as [[st2 log2] o2] eqn:H2.
  pose proof (register_process_again _ _ _ _ _ _ _ _ _ H2) as A2.
  destruct o2 as [|e2].
  2: { simpl. intros Hrows. destruct (A2 s1 []) as (s2 & -> & Hs2 & _).
       { intros k Hk. apply (same_stored_same_rows ProcessModel s); [done |].
         by apply (Hrows ProcessModel). }
       simpl. split; [congruence | done]. }
  set (st2' := if 0 <? verbosity then write_logs "Processor Updates:" log2 st2 else st2).
  pose proof (stored_logs verbosity "Processor Updates:" log2 st2) as L2.
  fold st2' in L2.
  pose proof (collect_schemas_anywhere schemas DescriptorModel verbosity dp st2') as Hd.
  destruct (collect_schemas env schemas DescriptorModel verbosity dp st2' [])
    as [st3 ds] eqn:H3.
  pose proof H3 as [H3s _]%collect_schemas_stored.
  assert (∃ st4, rows_kept st3 st4 ∧
            (match ds with
             | Ok descriptor_schemas =>
                 register_descriptors env descriptor_schemas user_admin force verbosity st3
             | Raise e => (st3, Raised e)
             end).1 = st4 ∧
            ∀ s3 : state, (∀ k, is_Some (descriptors st4 !! k) → is_Some (descriptors s3 !! k)) →
              stored (match ds with
                      | Ok descriptor_schemas =>
                          register_descriptors env descriptor_schemas user_admin false
                            verbosity s3
                      | Raise e => (s3, Raised e)
                      end).1 = stored s3
              ∧ (match ds with
                 | Ok descriptor_schemas =>
                     register_descriptors env descriptor_schemas user_admin false
                       verbosity s3
                 | Raise e => (s3, Raised e)
                 end).2
                = (match ds with
                   | Ok descriptor_schemas =>
                       register_descriptors env descriptor_schemas user_admin force
                         verbosity st3
                   | Raise e => (st3, Raised e)
                   end).2) as (st4 & K4 & E4 & A4).
  { destruct ds as [ds|e]; [| exists st3; split_and!; [apply rows_kept_refl | done | done]].
    unfold register_descriptors.
    destruct (for_each _ ds st3 []) as [[st4 log4] o4] eqn:H4.
    pose proof (register_descriptor_again _ _ _ _ _ _ _ _ _ H4) as B4.
    assert (rows_kept st3 st4) as K4.
    { apply (for_each_steps rows_kept _ rows_kept_refl rows_kept_trans) in H4; [done |].
      intros x sa la sb lb ob.
      apply (register_descriptor_steps env rows_kept force verbosity rows_kept_refl
               rows_kept_trans); [intros; by apply rows_kept_same |].
      intros m noun who' p slug version sa' la' sb' lb' ob' H.
      by apply upsert_rows in H as [? _]. }
    destruct o4 as [|e4].
    - eexists. split_and!; [| reflexivity |].
      + eapply rows_kept_trans; [done |]. simpl. apply rows_kept_same, stored_logs.
      + intros s3 Hs3. destruct (B4 s3 []) as (s4 & -> & Hs4 & _).
        { intros k Hk. apply Hs3. simpl.
          by apply (same_stored_same_rows DescriptorModel st4);
            [apply stored_logs |]. }
        simpl. split; [| done]. by destruct (0 <? verbosity).
    - exists st4. split_and!; [done | done |].
      intros s3 Hs3. destruct (B4 s3 [] Hs3) as (s4 & -> & Hs4 & _). done. }
  simpl. rewrite E4. intros Hrows.
  destruct (A2 s1 []) as (s2 & -> & Hs2 & _).
  { intros k Hk. apply (same_stored_same_rows ProcessModel s); [done |].
    apply (Hrows ProcessModel), (K4 ProcessModel).
    apply (same_stored_same_rows ProcessModel st2'); [done |].
    by apply (same_stored_same_rows ProcessModel st2). }
  assert ((if 0 <? verbosity then write_logs "Processor Updates:" [] s2 else s2) = s2)
    as -> by (by destruct (0 <? verbosity)).
  specialize (Hd s2 []).
  destruct (collect_schemas env schemas DescriptorModel verbosity dp s2 [])
    as [s3 ds'] eqn:G3.
  rewrite H3 in Hd. simpl in Hd. subst ds'.
  apply collect_schemas_stored in G3 as [G3 _].
  destruct (A4 s3) as [S4 O4].
  { intros k Hk. apply (same_stored_same_rows DescriptorModel s); [congruence |].
    by apply (Hrows DescriptorModel). }
  split; [congruence | done].
Qed.

End Again.

(** X6: after a run of the command, forced or not, a run without the
    force flag on the same files stores nothing: rows and grants stay
    as the first run left them, and the second run ends as the first
    one did, by returning or with the same exception. *)
Theorem run_again_without_force_stores_nothing env schemas force paths verbosity st :
  let first := handle env schemas force paths verbosity st in
  let second := handle env schemas false paths verbosity first.1 in
  stored second.1 = stored first.1 ∧ second.2 = first.2.
Proof.
  simpl. apply handle_again.
  - by destruct (handle_quiet env schemas force paths verbosity st) as (_ & _ & ? & _).
  - apply rows_kept_refl.
Qed.

(** ** What the output streams and the verbosity do not change *)

Section Frame.

Context (env : collaborators).
Variables (out err : bool) (verbosity verbosity' : Z).
Hypothesis same_verbosity : out = true → verbosity = verbosity'.

Lemma alike_refl s : alike out err s s.
Proof. done. Qed.

Lemma alike_table m s s' : alike out err s s' → table m s = table m s'.
Proof. intros ([= ? ? ?] & _). by destruct m. Qed.

Lemma alike_permissions s s' : alike out err s s' → permissions s = permissions s'.
Proof. by intros ([= ? ? ?] & _). Qed.

Lemma alike_write_err line s s' :
  alike out err s s' → alike out err (write_err line s) (write_err line s').
Proof.
  intros (Hs & Hu & Ho & He). split_and!; try done.
  intros E. simpl. by rewrite (He E).
Qed.

Lemma alike_write_out line s s' :
  alike out err s s' → alike out err (write_out line s) (write_out line s').
Proof.
  intros (Hs & Hu & Ho & He). split_and!; try done.
  intros E. simpl. by rewrite (Ho E).
Qed.

Lemma alike_at_verbosity (f : state → state) s s' :
  (∀ a b, alike out err a b → alike out err (f a) (f b)) →
  (∀ a, stored (f a) = stored a ∧ users (f a) = users a ∧ stderr (f a) = stderr a) →
  alike out err s s' →
  alike out err (if 0 <? verbosity then f s else s) (if 0 <? verbosity' then f s' else s').
Proof.
  intros Hf Hq H. destruct out eqn:Hout.
  - rewrite <- (same_verbosity eq_refl). destruct (0 <? verbosity); [by apply Hf | done].
  - destruct H as (Hs & Hu & _ & He).
    destruct (Hq s) as (Qs & Qu & Qe), (Hq s') as (Qs' & Qu' & Qe').
    destruct (0 <? verbosity), (0 <? verbosity'); split_and!; try done;
      try (intros E; specialize (He E)); congruence.
Qed.

Lemma alike_set_table m t s s' :
  alike out err s s' → alike out err (set_table m t s) (set_table m t s').
Proof.
  intros ([= Hp Hd Hg] & Hu & Ho & He).
  destruct m; split_and!; try done; unfold stored; simpl; congruence.
Qed.

Lemma alike_set_permissions g s s' :
  alike out err s s' → alike out err (set_permissions g s) (set_permissions g s').
Proof.
  intros ([= Hp Hd Hg] & Hu & Ho & He).
  split_and!; try done; unfold stored; simpl; congruence.
Qed.

Lemma alike_write_errs lines s s' :
  alike out err s s' → alike out err (write_errs lines s) (write_errs lines s').
Proof.
  unfold write_errs. revert s s'.
  induction lines as [|line lines IH]; intros s s' H; [done |].
  simpl. by apply IH, alike_write_err.
Qed.

Lemma stderr_write_logs title log s : stderr (write_logs title log s) = stderr s.
Proof.
  unfold write_logs. destruct log as [|l0 log]; [done |].
  generalize (l0 :: log). intros lines.
  change (stderr s) with (stderr (write_out title s)).
  generalize (write_out title s). intros s0.
  revert s0. induction lines as [|line lines IH]; intros s0; [done |].
  simpl. by rewrite IH.
Qed.

Lemma alike_write_logs title log s s' :
  alike out err s s' → alike out err (write_logs title log s) (write_logs title log s').
Proof.
  unfold write_logs. destruct log as [|l0 log]; [done |].
  intros H%(alike_write_out title). revert H.
  generalize (write_out title s), (write_out title s'), (l0 :: log).
  intros a b lines. revert a b.
  induction lines as [|line lines IH]; intros a b H; [done |].
  simpl. by apply IH, alike_write_out.
Qed.

(** The upsert of a definition into two states that are alike gives
    the same log and ends in the same way, in states that are alike. *)
Lemma upsert_alike m noun force who p slug version s s' log :
  alike out err s s' →
  ∃ s1 s1' log1 o,
    upsert env m noun force verbosity who p slug version s log = (s1, log1, o)
    ∧ upsert env m noun force verbosity' who p slug version s' log = (s1', log1, o)
    ∧ alike out err s1 s1'.
Proof.
  intros H. unfold upsert.
  rewrite <- (alike_table m _ _ H).
  destruct version as [| | |v0| |]; try (by eexists _, _, _, _).
  destruct (version_int env v0) as [iv|e]; [| by eexists _, _, _, _].
  destruct slug as [| | |s0| |]; try (by eexists _, _, _, _).
  destruct (match version_max _ _ with Some v => iv <? v | None => false end).
  { eexists _, _, _, _. split_and!; [done | done |]. by apply alike_write_err. }
  destruct (table m s !! (s0, iv)) as [r|].
  - destruct force.
    + eexists _, _, _, _. split_and!; [done | done |]. by apply alike_set_table.
    + eexists _, _, _, _. split_and!; [done | done |].
      apply (alike_at_verbosity (write_out _)); [| | done].
      * intros a b. apply alike_write_out.
      * done.
  - cbn zeta.
    rewrite <- (alike_permissions (set_table m _ s) (set_table m _ s'))
      by (by apply alike_set_table).
    eexists _, _, _, _. split_and!; [done | done |].
    by apply alike_set_permissions, alike_set_table.
Qed.

Lemma register_process_alike who force x s s' log :
  alike out err s s' →
  ∃ s1 s1' log1 o,
    register_process env who force verbosity x s log = (s1, log1, o)
    ∧ register_process env who force verbosity' x s' log = (s1', log1, o)
    ∧ alike out err s1 s1'.
Proof.
  intros H. unfold register_process.
  destruct x as [| | | | |p]; try (by eexists _, _, _, _).
  destruct (prepare_process env p) as [[p' slug version|lines]|e].
  - by apply upsert_alike.
  - eexists _, _, _, _. split_and!; [done | done |]. by apply alike_write_errs.
  - by eexists _, _, _, _.
Qed.

Lemma register_descriptor_alike who force x s s' log :
  alike out err s s' →
  ∃ s1 s1' log1 o,
    register_descriptor env who force verbosity x s log = (s1, log1, o)
    ∧ register_descriptor env who force verbosity' x s' log = (s1', log1, o)
    ∧ alike out err s1 s1'.
Proof.
  intros H. unfold register_descriptor.
  destruct x as [| | | | |d]; try (by eexists _, _, _, _).
  destruct (prepare_descriptor env d) as [[d' slug version|lines]|e].
  - by apply upsert_alike.
  - eexists _, _, _, _. split_and!; [done | done |]. by apply alike_write_errs.
  - by eexists _, _, _, _.
Qed.

Lemma for_each_alike body body' items :
  (∀ x s s' log, alike out err s s' →
     ∃ s1 s1' log1 o, body x s log = (s1, log1, o) ∧ body' x s' log = (s1', log1, o)
                      ∧ alike out err s1 s1') →
  ∀ s s' log, alike out err s s' →
    ∃ s1 s1' log1 o,
      for_each body items s log = (s1, log1, o)
      ∧ for_each body' items s' log = (s1', log1, o)
      ∧ alike out err s1 s1'.
Proof.
  intros Hbody. induction items as [|x items IH]; intros s s' log H; simpl.
  - by eexists _, _, _, _.
  - destruct (Hbody x s s' log H) as (s1 & s1' & log1 & o & -> & -> & H1).
    destruct o as [|e]; [by apply IH | by eexists _, _, _, _].
Qed.

Lemma register_processes_alike who force items s s' :
  alike out err s s' →
  alike out err (register_processes env items who force verbosity s).1
                (register_processes env items who force verbosity' s').1
  ∧ (register_processes env items who force verbosity s).2
    = (register_processes env items who force verbosity' s').2.
Proof.
  intros H. unfold register_processes.
  destruct (for_each_alike _ _ items (register_process_alike who force) s s' [] H)
    as (s1 & s1' & log1 & o & -> & -> & H1).
  destruct o as [|e]; [| done]. split; [| done]. simpl.
  apply (alike_at_verbosity (write_logs _ _)); [| | done].
  - intros a b. apply alike_write_logs.
  - intros a. destruct (stored_write_logs "Processor Updates:" log1 a) as [-> ->].
    by rewrite stderr_write_logs.
Qed.

Lemma register_descriptors_alike who force items s s' :
  alike out err s s' →
  alike out err (register_descriptors env items who force verbosity s).1
                (register_descriptors env items who force verbosity' s').1
  ∧ (register_descriptors env items who force verbosity s).2
    = (register_descriptors env items who force verbosity' s').2.
Proof.
  intros H. unfold register_descriptors.
  destruct (for_each_alike _ _ items (register_descriptor_alike who force) s s' [] H)
    as (s1 & s1' & log1 & o & -> & -> & H1).
  destruct o as [|e]; [| done]. split; [| done]. simpl.
  apply (alike_at_verbosity (write_logs _ _)); [| | done].
  - intros a b. apply alike_write_logs.
  - intros a. destruct (stored_write_logs "Descriptor schemas Updates:" log1 a) as [-> ->].
    by rewrite stderr_write_logs.
Qed.

Lemma scan_files_alike filters schema_type files s s' found :
  alike out err s s' →
  alike out err (scan_files filters schema_type files s found).1
                (scan_files filters schema_type files s' found).1
  ∧ (scan_files filters schema_type files s found).2
    = (scan_files filters schema_type files s' found).2.
Proof.
  revert s s' found. induction files as [|[file content] files IH]; intros s s' found H.
  - done.
  - cbn [scan_files]. destruct (is_yaml_name file); [| by apply IH].
    destruct content as [e|schemas]; [done |].
    destruct (truthy schemas); [| by apply IH, alike_write_err].
    destruct (bind _ _); [by apply IH | done].
Qed.

Lemma find_schemas_alike path filters schema_type s s' :
  alike out err s s' →
  alike out err (find_schemas env path filters schema_type verbosity s).1
                (find_schemas env path filters schema_type verbosity' s').1
  ∧ (find_schemas env path filters schema_type verbosity s).2
    = (find_schemas env path filters schema_type verbosity' s').2.
Proof.
  intros H. unfold find_schemas. destruct (walk env path) as [files|].
  - destruct (scan_files_alike filters schema_type files s s' [] H) as [H1 H2].
    destruct (scan_files _ _ files s []) as [a [l|e]],
             (scan_files _ _ files s' []) as [b [l'|e']]; simpl in *; try done.
    + by injection H2 as ->.
    + by injection H2 as ->.
  - split; [| done]. simpl.
    apply (alike_at_verbosity (write_out _)); [| | done].
    + intros a b. apply alike_write_out.
    + done.
Qed.

Lemma collect_schemas_alike filters schema_type paths s s' found :
  alike out err s s' →
  alike out err (collect_schemas env filters schema_type verbosity paths s found).1
                (collect_schemas env filters schema_type verbosity' paths s' found).1
  ∧ (collect_schemas env filters schema_type verbosity paths s found).2
    = (collect_schemas env filters schema_type verbosity' paths s' found).2.
Proof.
  revert s s' found. induction paths as [|path paths IH]; intros s s' found H; [done |].
  cbn [collect_schemas].
  destruct (find_schemas_alike path filters schema_type s s' H) as [H1 H2].
  destruct (find_schemas env path _ _ verbosity s) as [a [[l|]|e]],
           (find_schemas env path _ _ verbosity' s') as [b [[l'|]|e']];
    simpl in H1, H2; try done.
  - injection H2 as ->. by apply IH.
  - by injection H2 as ->.
Qed.

(** The command, run on two states that are alike, ends in the same
    way in states that are alike. *)
Lemma handle_alike schemas force paths s s' :
  alike out err s s' →
  alike out err (handle env schemas force paths verbosity s).1
                (handle env schemas force paths verbosity' s').1
  ∧ (handle env schemas force paths verbosity s).2
    = (handle env schemas force paths verbosity' s').2.
Proof.
  intros H. unfold handle.
  assert (superusers s' = superusers s) as ->.
  { unfold superusers. by destruct H as (_ & -> & _). }
  destruct (superusers s) as [|user_admin t].
  { split; [| done]. by apply alike_write_err. }
  set (pp := match paths with [] => concat (map fst (finders env)) | _ => paths end).
  set (dp := match paths with [] => concat (map snd (finders env)) | _ => paths end).
  destruct (collect_schemas_alike schemas ProcessModel pp s s' [] H) as [H1 E1].
  destruct (collect_schemas env schemas ProcessModel verbosity pp s []) as [a ps],
           (collect_schemas env schemas ProcessModel verbosity' pp s' []) as [a' ps'].
  simpl in H1, E1. subst ps'. destruct ps as [ps|e]; [| done].
  destruct (register_processes_alike user_admin force ps a a' H1) as [H2 E2].
  destruct (register_processes env ps user_admin force verbosity a) as [b o],
           (register_processes env ps user_admin force verbosity' a') as [b' o'].
  simpl in H2, E2. subst o'. destruct o as [|e]; [| done].
  destruct (collect_schemas_alike schemas DescriptorModel dp b b' [] H2) as [H3 E3].
  destruct (collect_schemas env schemas DescriptorModel verbosity dp b []) as [c ds],
           (collect_schemas env schemas DescriptorModel verbosity' dp b' []) as [c' ds'].
  simpl in H3, E3. subst ds'. destruct ds as [ds|e]; [| done].
  by apply register_descriptors_alike.
Qed.

End Frame.

Lemma for_each_app body l1 l2 st log :
  for_each body (l1 ++ l2) st log =
  match for_each body l1 st log with
  | (st1, log1, Done) => for_each body l2 st1 log1
  | raised => raised
  end.
Proof.
  revert st log. induction l1 as [|x l1 IH]; intros st log; simpl; [done |].
  destruct (body x st log) as [[st1 log1] [|e]]; [apply IH | done].
Qed.

(** X7: the verbosity changes only what goes to the output stream.
    Two runs of the command from the same state that differ in the
    verbosity alone store the same rows and grants, write the same
    lines to the error stream and end in the same way. *)
Theorem verbosity_changes_only_the_output env schemas force paths verbosity verbosity' st :
  let a := handle env schemas force paths verbosity st in
  let b := handle env schemas force paths verbosity' st in
  stored a.1 = stored b.1 ∧ stderr a.1 = stderr b.1 ∧ a.2 = b.2.
Proof.
  simpl.
  destruct (handle_alike env false true verbosity verbosity' ltac:(done)
              schemas force paths st st (alike_refl _ _ _)) as [(Hs & _ & _ & He) Ho].
  split_and!; [done | by apply He | done].
Qed.

Lemma stdout_write_errs lines st : stdout (write_errs lines st) = stdout st.
Proof.
  unfold write_errs. revert st. induction lines as [|line lines IH]; intros st; [done |].
  simpl. by rewrite IH.
Qed.

(** A definition that the loop skips with lines on the error stream
    leaves the rest of the loop as it is without the definition. *)
Lemma for_each_skipped env who force verbosity l1 p lines l2 st :
  prepare_process env p = Ok (Skipped lines) →
  ∃ s1 s1' log1 o,
    for_each (register_process env who force verbosity) (l1 ++ VDict p :: l2) st []
    = (s1, log1, o)
    ∧ for_each (register_process env who force verbosity) (l1 ++ l2) st [] = (s1', log1, o)
    ∧ alike true false s1 s1'.
Proof.
  intros Hp. rewrite !for_each_app.
  destruct (for_each _ l1 st []) as [[st1 log1] [|e]]; [| by eexists _, _, _, _].
  cbn [for_each]. unfold register_process at 1. rewrite Hp.
  apply for_each_alike.
  - intros x s s' log. by apply register_process_alike.
  - destruct (stored_write_errs lines st1) as [Hs Hu].
    split_and!; [done | done | | done]. intros _. apply stdout_write_errs.
Qed.

(** X8: a process definition that validation refuses is skipped, and
    the rest of the batch is registered as if the definition were not
    there: with it and without it the batch stores the same rows and
    grants, prints the same to the output stream and ends in the same
    way. *)
Theorem invalid_process_does_not_disturb_the_batch
    env who force verbosity l1 p p' ex l2 st :
  normalize (slugify env) p = Ok p' →
  jsonschema_validate env ProcessModel p' = Some ex →
  let with_it := register_processes env (l1 ++ VDict p :: l2) who force verbosity st in
  let without_it := register_processes env (l1 ++ l2) who force verbosity st in
  stored with_it.1 = stored without_it.1
  ∧ stdout with_it.1 = stdout without_it.1
  ∧ with_it.2 = without_it.2.
Proof.
  intros Hn Hv. simpl.
  assert (∃ lines, prepare_process env p = Ok (Skipped lines)) as [lines Hp].
  { unfold prepare_process, valid. rewrite Hn. cbn [bind]. rewrite Hv. by eexists. }
  unfold register_processes.
  destruct (for_each_skipped env who force verbosity l1 p lines l2 st Hp)
    as (s1 & s1' & log1 & o & -> & -> & H).
  destruct o as [|e]; [| by destruct H as (? & _ & ? & _); auto].
  pose proof (alike_at_verbosity true false verbosity verbosity ltac:(done)
                (write_logs "Processor Updates:" log1) s1 s1') as (Hs & _ & Ho & _).
  - intros a b. by apply alike_write_logs.
  - intros a. destruct (stored_write_logs "Processor Updates:" log1 a) as [-> ->].
    by rewrite stderr_write_logs.
  - done.
  - simpl. split_and!; [done | by apply Ho | done].
Qed.

Lemma invalid_process_does_not_disturb_the_batch_witness :
  let l1 := [VDict (example_process "1.0.0")] in
  let l2 := [VDict legacy_process] in
  let with_it :=
    register_processes example_env (l1 ++ VDict nameless_process :: l2) admin false 1
      example_state in
  let without_it := register_processes example_env (l1 ++ l2) admin false 1 example_state in
  stored with_it.1 = stored without_it.1
  ∧ stdout with_it.1 = stdout without_it.1
  ∧ with_it.2 = without_it.2.
Proof.
  refine (invalid_process_does_not_disturb_the_batch example_env admin false 1
            [VDict (example_process "1.0.0")] nameless_process
            [("slug", VStr "nameless"); ("version", VStr "1.0.0"); ("type", VStr "data:raw:")]
            (ValidationError "[]" "'name' is a required property" "required" "['name']")
            [VDict legacy_process] example_state _ _).
  - vm_compute. reflexivity.
  - vm_compute. reflexivity.
Defined.

(** X9: a process definition whose preparation raises ends the batch
    there.  What the definitions before it stored stays stored, no
    later definition is registered, the summary of the updates is not
    printed, and the exception leaves [register_processes]. *)
Theorem exception_ends_the_batch_without_rollback
    env who force verbosity l1 p e l2 st :
  let before := for_each (register_process env who force verbosity) l1 st [] in
  before.2 = Done →
  prepare_process env p = Raise e →
  register_processes env (l1 ++ VDict p :: l2) who force verbosity st
  = (before.1.1, Raised e).
Proof.
  simpl. intros Hdone Hp. unfold register_processes. rewrite for_each_app.
  destruct (for_each _ l1 st []) as [[st1 log1] o]. simpl in Hdone. subst o.
  cbn [for_each]. unfold register_process at 1. by rewrite Hp.
Qed.

Lemma exception_ends_the_batch_without_rollback_witness :
  register_processes example_env
    ([VDict (example_process "1.0.0")] ++ VDict untyped_process :: [VDict legacy_process])
    admin false 1 example_state
  = ((for_each (register_process example_env admin false 1)
        [VDict (example_process "1.0.0")] example_state []).1.1,
     Raised KeyError).
Proof.
  refine (exception_ends_the_batch_without_rollback example_env admin false 1
            [VDict (example_process "1.0.0")] untyped_process KeyError
            [VDict legacy_process] example_state _ _).
  - vm_compute. reflexivity.
  - vm_compute. reflexivity.
Defined.

(** ** Grants and output along a run *)

Section Grants.

Context (env : collaborators).

Lemma grants_kept_same st st' : stored st' = stored st → grants_kept st st'.
Proof. unfold stored, grants_kept. intros [= Hp Hd Hg]. rewrite Hg. by split. Qed.

Lemma permissions_set_permissions g st : permissions (set_permissions g st) = g.
Proof. done. Qed.

(** An upsert changes the grants of the inserted row alone, and only
    by adding to them. *)
Lemma upsert_grants m noun force verbosity who p slug version st log st' log' o :
  upsert env m noun force verbosity who p slug version st log = (st', log', o) →
  grants_kept st st'.
Proof.
  unfold upsert.
  destruct version as [| | |v0| |]; try (by intros [= <- _ _]).
  destruct (version_int env v0) as [iv|e']; [| by intros [= <- _ _]].
  destruct slug as [| | |s0| |]; try (by intros [= <- _ _]).
  destruct (match version_max _ _ with Some v => iv <? v | None => false end);
    [by intros [= <- _ _] |].
  destruct (table m st !! (s0, iv)) as [r|] eqn:Hrow.
  { destruct force; intros [= <- _ _]; [by destruct m | by destruct (0 <? verbosity)]. }
  intros [= <- _ _]. unfold grants_kept. cbv zeta. rewrite !permissions_set_permissions.
  assert (permissions (set_table m (<[(s0, iv) := Record_ (user_id who) p]> (table m st)) st)
          = permissions st) as -> by (by destruct m).
  set (new := (m, (s0, iv))).
  set (g1 := assign_contributor_permissions _ new _ (permissions st)).
  assert (∀ o, o ≠ new → g1 !! o = permissions st !! o) as Hother.
  { intros o' Ho. unfold g1, assign_contributor_permissions. by rewrite lookup_insert_ne. }
  assert (grants_on (permissions st) new ⊆ grants_on g1 new) as Hnew.
  { unfold g1, assign_contributor_permissions. rewrite grants_on_insert_eq.
    apply union_subseteq_l. }
  assert (∀ m' k, is_Some (table m' st !! k) → (m', k) ≠ new) as Hrows.
  { intros m' k Hk [= -> ->]. rewrite Hrow in Hk. by destruct Hk. }
  destruct (latest (table m st) s0) as [old|]; split.
  - intros m' k Hk. unfold copy_permissions.
    rewrite lookup_insert_ne by (by intros ?; eapply Hrows).
    by apply Hother, Hrows.
  - intros o'. unfold copy_permissions. destruct (decide (o' = new)) as [->|Ho].
    + rewrite grants_on_insert_eq. etrans; [apply Hnew | apply union_subseteq_l].
    + rewrite grants_on_insert_ne by done. unfold grants_on. by rewrite Hother.
  - intros m' k Hk. by apply Hother, Hrows.
  - intros o'. destruct (decide (o' = new)) as [->|Ho]; [done |].
    unfold grants_on. by rewrite Hother.
Qed.

Lemma grants_and_rows_trans a b c :
  rows_kept a b ∧ grants_kept a b → rows_kept b c ∧ grants_kept b c →
  rows_kept a c ∧ grants_kept a c.
Proof.
  intros [Hk1 [Hr1 Hg1]] [Hk2 [Hr2 Hg2]]. split; [by eapply rows_kept_trans |]. split.
  - intros m k Hk. rewrite Hr2 by (by apply Hk1). by apply Hr1.
  - intros o'. etrans; [apply Hg1 | apply Hg2].
Qed.

Lemma handle_grants schemas force paths verbosity st :
  rows_kept st (handle env schemas force paths verbosity st).1
  ∧ grants_kept st (handle env schemas force paths verbosity st).1.
Proof.
  apply (handle_steps env (λ a b, rows_kept a b ∧ grants_kept a b)).
  - intros a. split; [apply rows_kept_refl | by apply grants_kept_same].
  - apply grants_and_rows_trans.
  - intros line a. split; [by apply rows_kept_same | by apply grants_kept_same].
  - intros line a _. split; [by apply rows_kept_same | by apply grants_kept_same].
  - intros m noun who p slug version a log b log' o H. split.
    + by apply upsert_rows in H as [? _].
    + by apply upsert_grants in H.
Qed.

(** The only line an upsert prints to the output stream is printed
    at a positive verbosity. *)
Lemma upsert_stdout m noun force verbosity who p slug version st log st' log' o :
  verbosity ≤ 0 →
  upsert env m noun force verbosity who p slug version st log = (st', log', o) →
  stdout st' = stdout st.
Proof.
  intros Hv. unfold upsert.
  destruct version as [| | |v0| |]; try (by intros [= <- _ _]).
  destruct (version_int env v0) as [iv|e']; [| by intros [= <- _ _]].
  destruct slug as [| | |s0| |]; try (by intros [= <- _ _]).
  destruct (match version_max _ _ with Some v => iv <? v | None => false end);
    [by intros [= <- _ _] |].
  destruct (table m st !! (s0, iv)) as [r|].
  - destruct force; intros [= <- _ _]; [by destruct m |].
    by destruct (Z.ltb_spec 0 verbosity); [lia |].
  - intros [= <- _ _]. by destruct m.
Qed.

End Grants.

(** X10: the command revokes nothing.  Every row that is in a table
    before the run has the same grants after it, and no object at all
    has lost a grant, whatever the command was given and whether it
    returned or an exception left it. *)
Theorem command_revokes_no_grant env schemas force paths verbosity st :
  let st' := (handle env schemas force paths verbosity st).1 in
  (∀ m k, is_Some (table m st !! k) →
          permissions st' !! (m, k) = permissions st !! (m, k))
  ∧ ∀ o, grants_on (permissions st) o ⊆ grants_on (permissions st') o.
Proof.
  simpl. by destruct (handle_grants env schemas force paths verbosity st) as [_ ?].
Qed.

(** X11: at verbosity zero or below the command prints nothing to the
    output stream: neither the notice of an invalid path, nor the
    notice of a version that is installed, nor the summary of the
    updates. *)
Theorem command_is_silent_without_verbosity env schemas force paths verbosity st :
  verbosity ≤ 0 →
  stdout (handle env schemas force paths verbosity st).1 = stdout st.
Proof.
  intros Hv. apply (handle_steps env (λ a b, stdout b = stdout a)).
  - done.
  - intros a b c Hab Hbc. by rewrite Hbc.
  - done.
  - intros line a Hpos. lia.
  - intros m noun who p slug version a log b log' o. by apply upsert_stdout.
Qed.

Lemma command_is_silent_without_verbosity_witness :
  stdout (handle example_env None false ["clean"] 0 example_state).1 = stdout example_state.
Proof.
  apply (command_is_silent_without_verbosity example_env None false ["clean"] 0
           example_state).
  lia.
Defined.

(** ** What preparation does to a definition *)

Lemma bind_Ok {A B} (r : result A) (k : A → result B) b :
  bind r k = Ok b → ∃ a, r = Ok a ∧ k a = Ok b.
Proof. destruct r as [a|e]; [| done]. intros H. by exists a. Qed.

Lemma terminate_section_frame field p p' k :
  terminate_section field p = Ok p' → k ≠ field → dget k p' = dget k p.
Proof. intros (_ & Hframe & _)%terminate_section_spec ?. by apply Hframe. Qed.

(** The normalisation of a process definition gives a definition
    with a slug, and leaves every key but ten as it is. *)
Lemma normalize_frame slugify p p' :
  normalize slugify p = Ok p' →
  dhas "slug" p' = true
  ∧ ∀ k, k ∉ ["type"; "category"; "data_name"; "name"; "label"; "slug";
              "var"; "static"; "input"; "output"] →
         dget k p' = dget k p.
Proof.
  unfold normalize.
  intros (p1 & H1 & H)%bind_Ok. apply bind_Ok in H as (p2 & H2 & H).
  apply bind_Ok in H as (p3 & H3 & H). apply bind_Ok in H as (p4 & H4 & H).
  apply bind_Ok in H as (p5 & H5 & H). apply bind_Ok in H as (p6 & H6 & H).
  apply bind_Ok in H as (p7 & H7 & H8).
  apply terminate_top_type_spec in H1 as [_ F1].
  apply terminate_category_spec in H2 as [_ F2].
  apply data_name_from_static_spec in H3 as [_ F3].
  apply legacy_slug_spec in H4 as (S4 & F4 & _).
  pose proof (terminate_section_frame _ _ _ "slug" H5) as S5.
  pose proof (terminate_section_frame _ _ _ "slug" H6) as S6.
  pose proof (terminate_section_frame _ _ _ "slug" H7) as S7.
  pose proof (terminate_section_frame _ _ _ "slug" H8) as S8.
  split.
  - rewrite dhas_dget, S8, S7, S6, S5, <- dhas_dget by done. done.
  - intros k Hk.
    assert (k ≠ "type" ∧ k ≠ "category" ∧ k ≠ "data_name" ∧ k ≠ "name" ∧ k ≠ "label"
            ∧ k ≠ "slug" ∧ k ≠ "var" ∧ k ≠ "static" ∧ k ≠ "input" ∧ k ≠ "output")
      as (? & ? & ? & ? & ? & ? & ? & ? & ? & ?).
    { split_and!; intros ->; apply Hk; repeat constructor. }
    rewrite (terminate_section_frame _ _ _ k H8), (terminate_section_frame _ _ _ k H7),
      (terminate_section_frame _ _ _ k H6), (terminate_section_frame _ _ _ k H5) by done.
    rewrite F4, F3, F2, F1; [done | done | done | done |].
    intros Hin. apply Hk. repeat (apply elem_of_cons in Hin as [->|Hin];
      [repeat constructor |]). by apply elem_of_nil in Hin.
Qed.

(** Lines 132-140 and 142-148: one of the two mappings. *)
Lemma mapping_step_frame key mapping (p p1 : dict) :
  match dget key p with
  | Some v => v' <- mapping_index mapping v ;; Ok (dset key v' p)
  | None => Ok p
  end = Ok p1 →
  (∀ k, k ≠ key → dget k p1 = dget k p)
  ∧ match dget key p with
    | Some v => ∃ v', mapping_index mapping v = Ok v' ∧ dget key p1 = Some v'
    | None => dget key p1 = None
    end.
Proof.
  destruct (dget key p) as [v|] eqn:Hkey.
  - intros (v' & Hv & [= <-])%bind_Ok. split.
    + intros k Hk. by apply dget_dset_ne.
    + exists v'. split; [done | apply dget_dset_eq].
  - by intros [= <-].
Qed.

(** Lines 150-154: one of the two renamings. *)
Lemma rename_step a b (p : dict) :
  a ≠ b →
  let p1 := match dget a p with
            | Some v => dset b v (ddel a p)
            | None => p
            end in
  dget a p1 = None
  ∧ dget b p1 = match dget a p with Some v => Some v | None => dget b p end
  ∧ ∀ k, k ≠ a → k ≠ b → dget k p1 = dget k p.
Proof.
  intros Hab. simpl. destruct (dget a p) as [v|] eqn:Ha.
  - split_and!.
    + rewrite dget_dset_ne by done. apply dget_ddel_eq.
    + apply dget_dset_eq.
    + intros k ? ?. by rewrite dget_dset_ne, dget_ddel_ne.
  - by split_and!.
Qed.

Section Prepared.

Context (env : collaborators).

(** Lines 132-154: the values of [persistence] and [scheduling_class]
    are mapped, [input] and [output] are moved to [input_schema] and
    [output_schema], and no other key changes. *)
Lemma map_columns_spec p p' :
  map_columns env p = Ok p' →
  dget "input" p' = None ∧ dget "output" p' = None
  ∧ dget "input_schema" p'
    = match dget "input" p with Some v => Some v | None => dget "input_schema" p end
  ∧ dget "output_schema" p'
    = match dget "output" p with Some v => Some v | None => dget "output_schema" p end
  ∧ ∀ k, k ∉ ["persistence"; "scheduling_class"; "input"; "output";
              "input_schema"; "output_schema"] →
         dget k p' = dget k p.
Proof.
  unfold map_columns.
  intros (p1 & [F1 _]%mapping_step_frame & (p2 & [F2 _]%mapping_step_frame & [= <-])%bind_Ok)%bind_Ok.
  destruct (rename_step "input" "input_schema" p2) as (I1 & I2 & I3); [done |].
  set (p3 := match dget "input" p2 with
             | Some v => dset "input_schema" v (ddel "input" p2)
             | None => p2
             end) in *.
  destruct (rename_step "output" "output_schema" p3) as (O1 & O2 & O3); [done |].
  set (p4 := match dget "output" p3 with
             | Some v => dset "output_schema" v (ddel "output" p3)
             | None => p3
             end) in *.
  split_and!.
  - by rewrite O3.
  - done.
  - rewrite O3, I2, !F2, !F1 by done. done.
  - rewrite O2, !I3, !F2, !F1 by done. done.
  - intros k Hk.
    assert (k ≠ "persistence" ∧ k ≠ "scheduling_class" ∧ k ≠ "input" ∧ k ≠ "output"
            ∧ k ≠ "input_schema" ∧ k ≠ "output_schema") as (? & ? & ? & ? & ? & ?).
    { split_and!; intros ->; apply Hk; repeat constructor. }
    by rewrite O3, I3, F2, F1.
Qed.

(** Lines 157-171, when the definition goes on to the version check:
    only [run] and [output_schema] can change, and a [run] section
    names its language, [bash] when the definition gave none. *)
Lemma resolve_engine_spec slug p p' :
  resolve_engine env slug p = Ok (inl p') →
  (∀ k, k ≠ "run" → k ≠ "output_schema" → dget k p' = dget k p)
  ∧ match dget "run" p with
    | None => dget "run" p' = None
    | Some r =>
        ∃ run, r = VDict run
               ∧ dget "run" p'
                 = Some (VDict (if dhas "language" run then run
                                else dset "language" (VStr "bash") run))
    end.
Proof.
  unfold resolve_engine. destruct (dget "run" p) as [[| | | | |run]|] eqn:Hrun; try done.
  2: { intros [= <-]. by rewrite Hrun. }
  set (run' := if dhas "language" run then run else dset "language" (VStr "bash") run).
  destruct (engine_output_schema env _ _) as [[|x extra]|]; [| | done].
  - intros [= <-]. split.
    + intros k ? ?. by apply dget_dset_ne.
    + exists run. split; [done | apply dget_dset_eq].
  - destruct (dget "output_schema" (dset "run" (VDict run') p)) as [[| | | |l|]|];
      try done; intros [= <-]; (split;
        [ intros k ? ?; by rewrite !dget_dset_ne
        | exists run; split; [done |]; rewrite dget_dset_ne by done; apply dget_dset_eq ]).
Qed.

Lemma valid_None m d : valid env m d = None → jsonschema_validate env m d = None.
Proof. unfold valid. by destruct (jsonschema_validate env m d). Qed.

(** What [prepare_process] hands to the upsert. *)
Lemma prepare_process_spec p p' slug version :
  prepare_process env p = Ok (Ready p' slug version) →
  ∃ q pm,
    normalize (slugify env) p = Ok q
    ∧ jsonschema_validate env ProcessModel q = None
    ∧ map_columns env q = Ok pm
    ∧ dget "slug" pm = Some slug
    ∧ resolve_engine env slug pm = Ok (inl p')
    ∧ dget "version" p' = Some version.
Proof.
  unfold prepare_process. intros (q & Hq & H)%bind_Ok.
  destruct (valid env ProcessModel q) as [lines|] eqn:Hv; [done |].
  apply valid_None in Hv.
  apply bind_Ok in H as (pm & Hpm & H). apply bind_Ok in H as (slug' & Hslug & H).
  apply bind_Ok in H as ([p''|message] & Hr & H); [| done].
  apply bind_Ok in H as (version' & Hversion & [= <- <- <-]).
  unfold dindex in Hslug, Hversion.
  destruct (dget "slug" pm) as [sl|] eqn:Hs; [| done]. injection Hslug as ->.
  destruct (dget "version" p'') as [ve|] eqn:Hve; [| done]. injection Hversion as ->.
  by exists q, pm.
Qed.

(** Conversely, a definition that goes through these steps reaches
    the version check. *)
Lemma prepare_process_ready p q pm p' slug version :
  normalize (slugify env) p = Ok q →
  jsonschema_validate env ProcessModel q = None →
  map_columns env q = Ok pm →
  dget "slug" pm = Some slug →
  resolve_engine env slug pm = Ok (inl p') →
  dget "version" p' = Some version →
  prepare_process env p = Ok (Ready p' slug version).
Proof.
  intros Hq Hv Hpm Hslug Hr Hversion. unfold prepare_process, valid, dindex.
  rewrite Hq. cbn [bind]. rewrite Hv, Hpm. cbn [bind]. rewrite Hslug. cbn [bind].
  rewrite Hr. cbn [bind]. by rewrite Hversion.
Qed.

End Prepared.

(** X12: the normalisation of a process definition (lines 102-126)
    gives a definition that has a slug, and touches ten keys at most:
    the value of every key other than [type], [category], [data_name],
    [name], [label], [slug], [var], [static], [input] and [output] is
    what the definition gave; so are the version and the [run]
    section. *)
Theorem normalization_touches_only_its_keys slugify p p' :
  normalize slugify p = Ok p' →
  dhas "slug" p' = true
  ∧ (∀ k, k ∉ ["type"; "category"; "data_name"; "name"; "label"; "slug";
               "var"; "static"; "input"; "output"] →
          dget k p' = dget k p)
  ∧ dget "version" p' = dget "version" p
  ∧ dget "run" p' = dget "run" p.
Proof.
  intros [Hslug Hframe]%normalize_frame. split_and!; [done | done | |];
    apply Hframe; intros Hin;
    repeat (apply elem_of_cons in Hin as [?|Hin]; [done |]); by apply elem_of_nil in Hin.
Qed.

Lemma normalization_touches_only_its_keys_witness :
  let p' := normal_form lower legacy_process in
  dhas "slug" p' = true
  ∧ (∀ k, k ∉ ["type"; "category"; "data_name"; "name"; "label"; "slug";
               "var"; "static"; "input"; "output"] →
          dget k p' = dget k legacy_process)
  ∧ dget "version" p' = dget "version" legacy_process
  ∧ dget "run" p' = dget "run" legacy_process.
Proof.
  intros p'.
  refine (normalization_touches_only_its_keys lower legacy_process p' _).
  vm_compute. reflexivity.
Defined.

(** X13: a process definition that reaches the upsert has passed
    validation in its normalised form; the slug and the version it is
    stored under are its own columns [slug] and [version]; it has no
    [input] and no [output] column, their values being under
    [input_schema] and [output_schema]; and its [run] section, if it
    has one, is a dictionary that names a language. *)
Theorem prepared_process_is_ready_for_the_model env p p' slug version :
  prepare_process env p = Ok (Ready p' slug version) →
  (∃ q, normalize (slugify env) p = Ok q
        ∧ jsonschema_validate env ProcessModel q = None
        ∧ (∀ v, dget "input" q = Some v → dget "input_schema" p' = Some v))
  ∧ dget "slug" p' = Some slug
  ∧ dget "version" p' = Some version
  ∧ dget "input" p' = None ∧ dget "output" p' = None
  ∧ ∀ r, dget "run" p' = Some r →
         ∃ run language, r = VDict run ∧ dget "language" run = Some language.
Proof.
  intros (q & pm & Hq & Hv & Hpm & Hslug & Hr & Hversion)%prepare_process_spec.
  apply map_columns_spec in Hpm as (Hin & Hout & Hins & _ & _).
  apply resolve_engine_spec in Hr as [Hframe Hrun].
  split_and!.
  - exists q. split_and!; [done | done |]. intros v Hv'.
    rewrite Hframe, Hins, Hv' by done. done.
  - by rewrite Hframe.
  - done.
  - by rewrite Hframe.
  - by rewrite Hframe.
  - intros r Hr. destruct (dget "run" pm) as [r0|]; [| congruence].
    destruct Hrun as (run & -> & Hrun). rewrite Hrun in Hr. injection Hr as <-.
    destruct (dhas "language" run) eqn:Hl.
    + rewrite dhas_dget in Hl. destruct (dget "language" run) as [language|] eqn:Hg; [| done].
      by exists run, language.
    + eexists _, _. split; [done | apply dget_dset_eq].
Qed.

Lemma prepared_process_is_ready_for_the_model_witness :
  let p' := ready_dict (prepare_process example_env (example_process "1.0.0")) in
  (∃ q, normalize lower (example_process "1.0.0") = Ok q
        ∧ jsonschema_validate example_env ProcessModel q = None
        ∧ (∀ v, dget "input" q = Some v → dget "input_schema" p' = Some v))
  ∧ dget "slug" p' = Some (VStr "aligner")
  ∧ dget "version" p' = Some (VStr "1.0.0")
  ∧ dget "input" p' = None ∧ dget "output" p' = None
  ∧ ∀ r, dget "run" p' = Some r →
         ∃ run language, r = VDict run ∧ dget "language" run = Some language.
Proof.
  intros p'.
  refine (prepared_process_is_ready_for_the_model example_env (example_process "1.0.0")
            p' (VStr "aligner") (VStr "1.0.0") _).
  vm_compute. reflexivity.
Defined.

(** X14: a process definition that passes validation but names a
    persistence other than [RAW], [CACHED] and [TEMP] is not skipped:
    the lookup of line 139 raises [KeyError], which leaves the
    preparation, and with it the loop. *)
Theorem unknown_persistence_raises_key_error env who force verbosity p q s st log :
  normalize (slugify env) p = Ok q →
  jsonschema_validate env ProcessModel q = None →
  dget "persistence" q = Some (VStr s) →
  s ∉ ["RAW"; "CACHED"; "TEMP"] →
  register_process env who force verbosity (VDict p) st log = (st, log, Raised KeyError).
Proof.
  intros Hq Hv Hp Hs.
  assert (s ≠ "RAW" ∧ s ≠ "CACHED" ∧ s ≠ "TEMP") as (H1 & H2 & H3).
  { split_and!; intros ->; apply Hs; repeat constructor. }
  unfold register_process, prepare_process, valid. rewrite Hq. cbn [bind]. rewrite Hv.
  unfold map_columns. rewrite Hp. unfold mapping_index, dindex. cbn [dget].
  apply String.eqb_neq in H1 as ->. apply String.eqb_neq in H2 as ->.
  apply String.eqb_neq in H3 as ->. done.
Qed.

Lemma unknown_persistence_raises_key_error_witness :
  register_process example_env admin false 1 (VDict odd_persistence_process)
    example_state []
  = (example_state, [], Raised KeyError).
Proof.
  refine (unknown_persistence_raises_key_error example_env admin false 1
            odd_persistence_process odd_persistence_process "FOREVER" example_state [] _ _ _ _).
  - vm_compute. reflexivity.
  - vm_compute. reflexivity.
  - vm_compute. reflexivity.
  - apply (bool_decide_unpack ("FOREVER" ∉ ["RAW"; "CACHED"; "TEMP"])). vm_compute.
    reflexivity.
Defined.

(** ** Descriptor schemas *)

Lemma legacy_names_spec slugify p p' :
  legacy_names slugify p = Ok p' →
  dhas "slug" p' = true
  ∧ ∀ k, k ≠ "name" → k ≠ "label" → k ≠ "slug" → dget k p' = dget k p.
Proof.
  unfold legacy_names, dindex.
  destruct (dget "name" p) as [[| | |n| |]|]; try done. simpl.
  destruct (dget "label" _) as [label|]; [| done]. simpl. intros [= <-]. split.
  - rewrite dhas_dset_ne, dhas_ddel_ne by done. apply dhas_dset_eq.
  - intros k ? ? ?. by rewrite dget_dset_ne, dget_ddel_ne, dget_dset_ne, dget_ddel_ne.
Qed.

(** Lines 234-237: one of the two extensions of the schema. *)
Lemma merge_into_schema_spec field d d' :
  field ≠ "schema" →
  merge_into_schema field d = Ok d' →
  dget field d' = None
  ∧ (∀ k, k ≠ field → k ≠ "schema" → dget k d' = dget k d)
  ∧ match dget field d with
    | None => dget "schema" d' = dget "schema" d
    | Some extra =>
        ∃ l items, dget "schema" d = Some (VList l) ∧ py_iter extra = Ok items
                   ∧ dget "schema" d' = Some (VList (l ++ items))
    end.
Proof.
  intros Hne. unfold merge_into_schema, dindex.
  destruct (dget field d) as [extra|] eqn:Hf; [| by intros [= <-]].
  destruct (dget "schema" d) as [[| | | |l|]|]; try done. cbn [bind].
  destruct (py_iter extra) as [items|]; [| done]. cbn [bind]. intros [= <-].
  split_and!.
  - rewrite dget_dset_ne by done. apply dget_ddel_eq.
  - intros k ? ?. by rewrite dget_dset_ne, dget_ddel_ne.
  - exists l, items. split_and!; [done | done | apply dget_dset_eq].
Qed.

Lemma update_fields_of_list body l v :
  update_fields body (VList l) = Ok v → ∃ l', v = VList l'.
Proof.
  rewrite update_fields_list. intros (l' & _ & [= <-])%bind_Ok. by exists l'.
Qed.

Lemma terminate_section_value field p p' :
  terminate_section field p = Ok p' →
  match dget field p with
  | None => dget field p' = None
  | Some sec => ∃ sec', update_fields terminate_field_type sec = Ok sec'
                        ∧ dget field p' = Some sec'
  end.
Proof.
  unfold terminate_section. destruct (dget field p) as [sec|] eqn:Hsec.
  - intros (sec' & Hsec' & [= <-])%bind_Ok. exists sec'. split; [done | apply dget_dset_eq].
  - intros [= <-]. by rewrite Hsec.
Qed.

Section Descriptors.

Context (env : collaborators).

(** The normalisation of a descriptor schema leaves the keys it does
    not name as they are. *)
Lemma normalize_descriptor_frame d d' k :
  normalize_descriptor env d = Ok d' →
  k ∉ ["name"; "label"; "slug"; "schema"; "static"; "var"] →
  dget k d' = dget k d.
Proof.
  unfold normalize_descriptor.
  intros (d1 & H1 & H)%bind_Ok. apply bind_Ok in H as (d2 & H2 & H).
  apply bind_Ok in H as (d3 & H3 & H).
  set (d4 := if dhas "schema" d3 then d3 else dset "schema" (VList []) d3) in H.
  apply bind_Ok in H as (d5 & H5 & H6). intros Hk.
  assert (k ≠ "name" ∧ k ≠ "label" ∧ k ≠ "slug" ∧ k ≠ "schema" ∧ k ≠ "static"
          ∧ k ≠ "var") as (? & ? & ? & ? & ? & ?).
  { split_and!; intros ->; apply Hk; repeat constructor. }
  apply merge_into_schema_spec in H5 as (_ & F5 & _); [| done].
  apply merge_into_schema_spec in H6 as (_ & F6 & _); [| done].
  rewrite F6, F5 by done.
  assert (dget k d4 = dget k d3) as ->.
  { unfold d4. destruct (dhas "schema" d3); [done | by apply dget_dset_ne]. }
  assert (dget k d3 = dget k d2) as ->.
  { revert H3. destruct (dhas "slug" d2); [by intros [= <-] |].
    intros [_ F3]%legacy_names_spec. by apply F3. }
  by rewrite (terminate_section_frame _ _ _ k H2), (terminate_section_frame _ _ _ k H1).
Qed.

(** X15: the normalisation of a descriptor schema (lines 220-237)
    gives a schema with a slug and a [schema] list and without
    [static] and [var]; keys other than [name], [label], [slug],
    [schema], [static] and [var] keep their value.  When [static] and
    [var] are lists, the [schema] list is made of the schema's own
    fields with their types terminated, then the fields of [static] as
    they were given (the type loop does not visit them), then the
    fields of [var] with their types terminated. *)
Theorem descriptor_normalisation_merges_static_and_var d d' :
  normalize_descriptor env d = Ok d' →
  dhas "slug" d' = true ∧ dhas "schema" d' = true
  ∧ dget "static" d' = None ∧ dget "var" d' = None
  ∧ (∀ k, k ∉ ["name"; "label"; "slug"; "schema"; "static"; "var"] →
          dget k d' = dget k d)
  ∧ ∀ ss vs, dget "static" d = Some (VList ss) → dget "var" d = Some (VList vs) →
      ∃ own vs',
        dget "schema" d' = Some (VList (own ++ ss ++ vs'))
        ∧ update_fields terminate_field_type (VList vs) = Ok (VList vs')
        ∧ match dget "schema" d with
          | None => own = []
          | Some schema => update_fields terminate_field_type schema = Ok (VList own)
          end.
Proof.
  unfold normalize_descriptor.
  intros (d1 & H1 & H)%bind_Ok. apply bind_Ok in H as (d2 & H2 & H).
  apply bind_Ok in H as (d3 & H3 & H).
  set (d4 := if dhas "schema" d3 then d3 else dset "schema" (VList []) d3) in H.
  apply bind_Ok in H as (d5 & H5 & H6).
  pose proof (terminate_section_frame _ _ _ "static" H1 ltac:(done)) as F1s.
  pose proof (terminate_section_frame _ _ _ "schema" H1 ltac:(done)) as F1c.
  pose proof (terminate_section_value _ _ _ H1) as V1.
  pose proof (terminate_section_frame _ _ _ "static" H2 ltac:(done)) as F2s.
  pose proof (terminate_section_frame _ _ _ "var" H2 ltac:(done)) as F2v.
  pose proof (terminate_section_value _ _ _ H2) as V2.
  assert (dhas "slug" d3 = true
          ∧ ∀ k, k ≠ "name" → k ≠ "label" → k ≠ "slug" → dget k d3 = dget k d2)
    as [S3 F3].
  { revert H3. destruct (dhas "slug" d2) eqn:Hs; intros H3.
    - injection H3 as <-. by split.
    - by apply legacy_names_spec in H3. }
  assert (dhas "schema" d4 = true ∧ ∀ k, k ≠ "schema" → dget k d4 = dget k d3)
    as [C4 F4].
  { unfold d4. destruct (dhas "schema" d3) eqn:Hc; [done |]. split.
    - apply dhas_dset_eq.
    - intros k ?. by apply dget_dset_ne. }
  assert (dget "schema" d4 = match dget "schema" d3 with
                             | Some v => Some v
                             | None => Some (VList [])
                             end) as V4.
  { unfold d4. rewrite (dhas_dget "schema" d3).
    destruct (dget "schema" d3) eqn:Hc; [done | apply dget_dset_eq]. }
  apply merge_into_schema_spec in H5 as (N5 & F5 & V5); [| done].
  apply merge_into_schema_spec in H6 as (N6 & F6 & V6); [| done].
  split_and!.
  - rewrite dhas_dget, F6, F5, F4, <- dhas_dget by done. done.
  - rewrite dhas_dget. rewrite dhas_dget in C4.
    destruct (dget "var" d5) as [extra|].
    + by destruct V6 as (l & items & _ & _ & ->).
    + rewrite V6. destruct (dget "static" d4) as [extra|].
      * by destruct V5 as (l & items & _ & _ & ->).
      * by rewrite V5.
  - by rewrite F6.
  - done.
  - intros k Hk.
    assert (k ≠ "name" ∧ k ≠ "label" ∧ k ≠ "slug" ∧ k ≠ "schema" ∧ k ≠ "static"
            ∧ k ≠ "var") as (? & ? & ? & ? & ? & ?).
    { split_and!; intros ->; apply Hk; repeat constructor. }
    rewrite F6, F5, F4, F3 by done.
    by rewrite (terminate_section_frame _ _ _ k H2), (terminate_section_frame _ _ _ k H1).
  - intros ss vs Hss Hvs.
    rewrite Hvs in V1. destruct V1 as (var' & Hvar' & V1).
    destruct (update_fields_of_list _ _ _ Hvar') as [vs' ->].
    rewrite F5, F4, F3, F2v, V1 in V6 by done.
    destruct V6 as (l6 & items6 & C5 & [= <-] & C6).
    rewrite F4, F3, F2s, F1s, Hss in V5 by done.
    destruct V5 as (l5 & items5 & C4' & [= <-] & C5').
    rewrite C5' in C5. injection C5 as <-.
    exists l5, vs'. split_and!.
    + by rewrite C6, app_assoc.
    + done.
    + rewrite V4, F3 in C4' by done. rewrite <- F1c.
      destruct (dget "schema" d1) as [schema|].
      * destruct V2 as (schema' & Hschema' & V2). rewrite V2 in C4'. by injection C4' as ->.
      * rewrite V2 in C4'. by injection C4' as <-.
Qed.

End Descriptors.

(** The normalisation of the example descriptor schema. *)
Lemma descriptor_normalisation_merges_static_and_var_witness :
  let d := sample_descriptor in
  let d' := descriptor_form example_env sample_descriptor in
  dhas "slug" d' = true ∧ dhas "schema" d' = true
  ∧ dget "static" d' = None ∧ dget "var" d' = None
  ∧ (∀ k, k ∉ ["name"; "label"; "slug"; "schema"; "static"; "var"] →
          dget k d' = dget k d)
  ∧ ∀ ss vs, dget "static" d = Some (VList ss) → dget "var" d = Some (VList vs) →
      ∃ own vs',
        dget "schema" d' = Some (VList (own ++ ss ++ vs'))
        ∧ update_fields terminate_field_type (VList vs) = Ok (VList vs')
        ∧ match dget "schema" d with
          | None => own = []
          | Some schema => update_fields terminate_field_type schema = Ok (VList own)
          end.
Proof.
  intros d d'.
  refine (descriptor_normalisation_merges_static_and_var example_env d d' _).
  vm_compute. reflexivity.
Defined.

(** X16: a descriptor schema without a [version] is registered under
    the version [0.0.0] (line 243).  When it passes validation and the
    table holds neither that version of its slug nor a later one, it is
    inserted under the packed [0.0.0] with the normalised schema as its
    columns, among which there is no [version]; the table of processes
    stays as it is. *)
Theorem descriptor_without_version_is_registered_as_0_0_0
    env who force verbosity d d' slug iv st log :
  normalize_descriptor env d = Ok d' →
  jsonschema_validate env DescriptorModel d' = None →
  dget "slug" d' = Some (VStr slug) →
  dget "version" d = None →
  version_int env "0.0.0" = Ok iv →
  (∀ v, is_Some (descriptors st !! (slug, v)) → v < iv) →
  ∃ st',
    register_descriptor env who force verbosity (VDict d) st log
      = (st', (log ++ ["Inserted " +:+ slug])%list, Done)
    ∧ descriptors st' = <[(slug, iv) := Record_ (user_id who) d']> (descriptors st)
    ∧ dget "version" d' = None
    ∧ processes st' = processes st.
Proof.
  intros Hn Hv Hslug Hversion Hiv Hbelow.
  assert (dget "version" d' = None) as Hversion'.
  { rewrite (normalize_descriptor_frame env d d') by
      (try done; intros Hin;
       repeat (apply elem_of_cons in Hin as [?|Hin]; [done |]); by apply elem_of_nil in Hin).
    done. }
  assert (descriptors st !! (slug, iv) = None) as Hnone.
  { destruct (descriptors st !! (slug, iv)) eqn:Hrow; [| done].
    assert (iv < iv); [apply Hbelow; by rewrite Hrow | lia]. }
  unfold register_descriptor, prepare_descriptor, valid, dindex.
  rewrite Hn. cbn [bind]. rewrite Hv, Hslug. cbn [bind]. rewrite Hversion'. cbn [default].
  rewrite (upsert_not_newer env DescriptorModel) with (iv := iv); [| done |].
  2: { intros v' Hv'. apply Hbelow in Hv'. lia. }
  cbn [table]. rewrite Hnone. cbv zeta. eexists. split; [reflexivity |]. done.
Qed.

Lemma descriptor_without_version_is_registered_as_0_0_0_witness :
  let d' := descriptor_form example_env sample_descriptor in
  ∃ st',
    register_descriptor example_env admin false 1 (VDict sample_descriptor) example_state []
      = (st', ([] ++ ["Inserted " +:+ "sample-info"])%list, Done)
    ∧ descriptors st' = <[("sample-info", 0) := Record_ (user_id admin) d']>
                          (descriptors example_state)
    ∧ dget "version" d' = None
    ∧ processes st' = processes example_state.
Proof.
  intros d'.
  refine (descriptor_without_version_is_registered_as_0_0_0 example_env admin false 1
            sample_descriptor d' "sample-info" 0 example_state [] _ _ _ _ _ _).
  - vm_compute. reflexivity.
  - vm_compute. reflexivity.
  - vm_compute. reflexivity.
  - vm_compute. reflexivity.
  - vm_compute. reflexivity.
  - intros v [r Hr]. simpl in Hr. by rewrite lookup_empty in Hr.
Defined.

Section Phases.

Context (env : collaborators).

(** An upsert into the table of one model leaves the table of the
    other model as it is. *)
Lemma upsert_other_table m m' noun force verbosity who p slug version st log st' log' o :
  m ≠ m' →
  upsert env m noun force verbosity who p slug version st log = (st', log', o) →
  table m' st' = table m' st.
Proof.
  intros Hne
    [[Hs Hu]|[(_ & _ & s & iv & r & _ & ->)|(_ & s & iv & g & _ & ->)]]%upsert_effect.
  - unfold stored in Hs. injection Hs as Hp Hd _. destruct m'; simpl; congruence.
  - by destruct m, m'.
  - by destruct m, m'.
Qed.

Lemma register_processes_descriptors items who force verbosity st :
  descriptors (register_processes env items who force verbosity st).1 = descriptors st.
Proof.
  unfold register_processes.
  destruct (for_each _ items st []) as [[st1 log1] o] eqn:H.
  apply (for_each_steps (λ a b, descriptors b = descriptors a)) in H.
  - destruct o; [| done]. simpl. rewrite <- H.
    pose proof (stored_logs verbosity "Processor Updates:" log1 st1) as Hs.
    unfold stored in Hs. by injection Hs.
  - done.
  - intros a b c Hab Hbc. by rewrite Hbc.
  - intros x a la b lb ob. unfold register_process.
    destruct x as [| | | | |p]; try (by intros [= <- _ _]).
    destruct (prepare_process env p) as [[p' slug version|lines]|e].
    + by apply (upsert_other_table ProcessModel DescriptorModel).
    + intros [= <- _ _]. destruct (stored_write_errs lines a) as [Hs _].
      unfold stored in Hs. by injection Hs.
    + by intros [= <- _ _].
Qed.

Lemma register_descriptors_processes items who force verbosity st :
  processes (register_descriptors env items who force verbosity st).1 = processes st.
Proof.
  unfold register_descriptors.
  destruct (for_each _ items st []) as [[st1 log1] o] eqn:H.
  apply (for_each_steps (λ a b, processes b = processes a)) in H.
  - destruct o; [| done]. simpl. rewrite <- H.
    pose proof (stored_logs verbosity "Descriptor schemas Updates:" log1 st1) as Hs.
    unfold stored in Hs. by injection Hs.
  - done.
  - intros a b c Hab Hbc. by rewrite Hbc.
  - intros x a la b lb ob. unfold register_descriptor.
    destruct x as [| | | | |d]; try (by intros [= <- _ _]).
    destruct (prepare_descriptor env d) as [[d' slug version|lines]|e].
    + by apply (upsert_other_table DescriptorModel ProcessModel).
    + intros [= <- _ _]. destruct (stored_write_errs lines a) as [Hs _].
      unfold stored in Hs. by injection Hs.
    + by intros [= <- _ _].
Qed.

End Phases.

(** X17: each of the two registrations keeps to its own table.
    [register_processes] leaves the table of descriptor schemas as it
    is and [register_descriptors] the table of processes, whatever the
    definitions are and also when an exception ends the loop. *)
Theorem each_registration_keeps_to_its_table env items who force verbosity st :
  descriptors (register_processes env items who force verbosity st).1 = descriptors st
  ∧ processes (register_descriptors env items who force verbosity st).1 = processes st.
Proof.
  split; [apply register_processes_descriptors | apply register_descriptors_processes].
Qed.

(** ** The filter and the outcome of a batch *)

Section Filter.

Context (env : collaborators).

Lemma select_schemas_empty_filter schema_type items :
  select_schemas (Some []) schema_type items = select_schemas None schema_type items.
Proof.
  induction items as [|schema items IH]; [done |].
  cbn [select_schemas]. by rewrite IH.
Qed.

Lemma scan_files_empty_filter schema_type files st found :
  scan_files (Some []) schema_type files st found
  = scan_files None schema_type files st found.
Proof.
  revert st found. induction files as [|[file content] files IH]; intros st found; [done |].
  cbn [scan_files]. rewrite !IH.
  destruct (is_yaml_name file); [| done].
  destruct content as [e|schemas]; [done |].
  destruct (truthy schemas); [| done].
  destruct (py_iter schemas) as [items|e]; [| done]. cbn [bind].
  rewrite select_schemas_empty_filter.
  destruct (select_schemas None schema_type items); [apply IH | done].
Qed.

Lemma collect_schemas_empty_filter schema_type verbosity paths st found :
  collect_schemas env (Some []) schema_type verbosity paths st found
  = collect_schemas env None schema_type verbosity paths st found.
Proof.
  revert st found. induction paths as [|path paths IH]; intros st found; [done |].
  cbn [collect_schemas]. unfold find_schemas.
  destruct (walk env path) as [files|]; [| done].
  rewrite scan_files_empty_filter.
  destruct (scan_files None schema_type files st []) as [st1 [l|e]]; [apply IH | done].
Qed.

End Filter.

(** X18: an empty list of names is no filter.  The command run with
    [schemas] the empty list, which is what the option [-s] without a
    name gives, does what the command run without the option does: it
    registers every definition it finds. *)
Theorem empty_filter_selects_everything env force paths verbosity st :
  handle env (Some []) force paths verbosity st = handle env None force paths verbosity st.
Proof.
  unfold handle. destruct (superusers st) as [|user_admin t]; [done |].
  rewrite collect_schemas_empty_filter.
  destruct (collect_schemas env None ProcessModel _ _ st []) as [st1 [ps|e]]; [| done].
  destruct (register_processes env ps user_admin force verbosity st1) as [st2 [|e]];
    [| done].
  by rewrite collect_schemas_empty_filter.
Qed.

(** A loop that ran to its end ran the body on each of its items,
    and what the body stored is still stored at the end. *)
Lemma for_each_member body items x :
  (∀ y st log st' log' o, body y st log = (st', log', o) → rows_kept st st') →
  x ∈ items →
  ∀ st log st' log',
    for_each body items st log = (st', log', Done) →
    ∃ sa la sb lb, body x sa la = (sb, lb, Done) ∧ rows_kept sb st'.
Proof.
  intros Hkept Hin. induction items as [|y items IH]; [by apply elem_of_nil in Hin |].
  intros st log st' log'. cbn [for_each].
  destruct (body y st log) as [[st1 log1] [|e]] eqn:Hy; [| done].
  intros Hrest. apply elem_of_cons in Hin as [->|Hin].
  - exists st, log, st1, log1. split; [done |].
    by apply (for_each_steps rows_kept body rows_kept_refl rows_kept_trans Hkept) in Hrest.
  - by apply (IH Hin st1 log1 st' log').
Qed.

(** X19: when [register_processes] returns, every definition of the
    batch that reached the upsert is installed: the table holds its
    slug at the version of the definition or at a later one. *)
Theorem registered_definitions_are_installed
    env who force verbosity items st st' p p' slug version :
  register_processes env items who force verbosity st = (st', Done) →
  VDict p ∈ items →
  prepare_process env p = Ok (Ready p' slug version) →
  ∃ s v iv installed,
    slug = VStr s ∧ version = VStr v ∧ version_int env v = Ok iv
    ∧ iv ≤ installed ∧ is_Some (processes st' !! (s, installed)).
Proof.
  unfold register_processes. intros Hrun Hin Hp.
  destruct (for_each _ items st []) as [[st1 log1] [|e]] eqn:Hloop; [| done].
  injection Hrun as <-.
  assert (∀ y a la b lb o,
            register_process env who force verbosity y a la = (b, lb, o) → rows_kept a b)
    as Hkept.
  { intros y a la b lb o.
    apply (register_process_steps env rows_kept force verbosity rows_kept_refl
             rows_kept_trans); [intros; by apply rows_kept_same |].
    intros m noun who' q sl ve sa la' sb lb' ob H. by apply upsert_rows in H as [? _]. }
  destruct (for_each_member _ _ _ Hkept Hin _ _ _ _ Hloop)
    as (sa & la & sb & lb & Hbody & Hrows).
  unfold register_process in Hbody. rewrite Hp in Hbody.
  apply upsert_done_covered in Hbody as (s & v & iv & installed & -> & -> & Hiv & Hle & Hrow).
  exists s, v, iv, installed. split_and!; try done.
  apply (rows_kept_same st1 _ (stored_logs verbosity _ log1 st1) ProcessModel).
  by apply (Hrows ProcessModel).
Qed.

Lemma registered_definitions_are_installed_witness :
  let items := [VDict nameless_process; VDict (example_process "1.0.0")] in
  let st' := (register_processes example_env items admin false 1 example_state).1 in
  ∃ s v iv installed,
    VStr "aligner" = VStr s ∧ VStr "1.0.0" = VStr v ∧ version_int example_env v = Ok iv
    ∧ iv ≤ installed ∧ is_Some (processes st' !! (s, installed)).
Proof.
  intros items st'.
  refine (registered_definitions_are_installed example_env admin false 1 items
            example_state st' (example_process "1.0.0")
            (ready_dict (prepare_process example_env (example_process "1.0.0")))
            (VStr "aligner") (VStr "1.0.0") _ _ _).
  - vm_compute. reflexivity.
  - repeat constructor.
  - vm_compute. reflexivity.
Defined.
